(** * tfcoreml: the frozen-graph conversion driver

    A shallow embedding of [tfcoreml/_tf_coreml_converter.py], the driver
    that takes a frozen TensorFlow graph through ordering, placeholder
    handling, liveness probing, shape collection, the unsupported-operation
    check, lowering and the renaming of the interface blobs; and of the
    entry point [convert] in front of it, with the check of the names of
    the newer convention and the class [SupportedVersion].

    Python dictionaries keyed by strings are [gmap string _]; a dictionary
    that is only ever tested for membership is a [gset string]; a dictionary
    whose iteration order is observed is an association list.  Exceptions
    are an inductive type and fallible code returns [Result]. Code that the
    driver calls but that lives in other modules (TensorFlow, numpy,
    coremltools, the other files of the package) is a field of the record
    [Externals]; every call the driver makes to one of them is recorded, in
    order, in the event trace of the monad [M]. *)

From Stdlib Require Import Ascii String ZArith Lia.
From stdpp Require Import gmap strings list fin_maps.

#[global] Set Warnings "-clear-no-such-hyp".

(** ** Exceptions and results *)

(** The exceptions the module meets, with [str(e)] where it is read.
    [NotImplementedError] and [RecursionError] are the subclasses of
    [RuntimeError]; [OtherError] stands for an exception of a class that
    is none of those named here and a subclass of none of them. *)
Inductive exn : Type :=
| ValueError (msg : string)
| NotImplementedError (msg : string)
| AssertionError (msg : string)
| TypeError (msg : string)
| RuntimeError (msg : string)
| RecursionError (msg : string)
| IndexError
| KeyError (key : string)
| CyclicGraphError
| OtherError (tag : string).

#[global] Instance exn_eq_dec : EqDecision exn.
Proof. solve_decision. Defined.

Definition Result (A : Type) : Type := (exn + A)%type.

Definition raise {A} (e : exn) : Result A := inl e.
Definition ok {A} (a : A) : Result A := inr a.

Definition bind {A B} (m : Result A) (k : A -> Result B) : Result B :=
  match m with
  | inl e => inl e
  | inr a => k a
  end.

Notation "x <- m ;; k" := (bind m (fun x => k))
  (at level 62, m at next level, right associativity).

(** [for x in xs: st = body(st, x)], stopping at the first exception. *)
Fixpoint for_each {S A} (body : S -> A -> Result S) (xs : list A) (st : S)
  : Result S :=
  match xs with
  | [] => ok st
  | x :: rest => st' <- body st x ;; for_each body rest st'
  end.

(** [xs[i]] *)
Definition index {A} (xs : list A) (i : nat) : Result A :=
  match xs !! i with
  | Some x => ok x
  | None => raise IndexError
  end.

(** ** Strings *)

(** The double quote character, as a string. *)
Definition dq : string := String (ascii_of_nat 34) EmptyString.

(** [s.replace(old, new)] for a one-character [old]. *)
Fixpoint str_replace (old : ascii) (new : string) (s : string) : string :=
  match s with
  | EmptyString => EmptyString
  | String c rest =>
      if Ascii.eqb c old then new +:+ str_replace old new rest
      else String c (str_replace old new rest)
  end.

(** [sep.join(xs)] *)
Fixpoint str_join (sep : string) (xs : list string) : string :=
  match xs with
  | [] => ""
  | [x] => x
  | x :: rest => x +:+ sep +:+ str_join sep rest
  end.

(** [needle] occurs in [s] as a substring. *)
Definition occurs_in (needle s : string) : Prop :=
  exists pre post, s = pre +:+ needle +:+ post.

(** The character [c] occurs in [s]. *)
Fixpoint contains_char (c : ascii) (s : string) : bool :=
  match s with
  | EmptyString => false
  | String c' rest => Ascii.eqb c' c || contains_char c rest
  end.

(** ** The graph: tensors and operations *)

(** A [TensorShape]: [None] is an unknown rank (so that [as_list()]
    raises), otherwise one entry per dimension, [None] for an unknown
    dimension. *)
Definition TensorShape : Type := option (list (option Z)).

Definition is_fully_defined (s : TensorShape) : bool :=
  match s with
  | None => false
  | Some dims => forallb (fun d => bool_decide (is_Some d)) dims
  end.

(** [as_list()] of a shape all of whose dimensions are known. *)
Definition known_dims (dims : list (option Z)) : list Z := omap id dims.

Record Tensor : Type := mkTensor {
  t_name : string;
  t_shape : TensorShape
}.

Record Operation : Type := mkOp {
  op_name : string;
  op_type : string;
  op_inputs : list Tensor;
  op_outputs : list Tensor
}.

#[global] Instance Tensor_eq_dec : EqDecision Tensor.
Proof. solve_decision. Defined.
#[global] Instance Operation_eq_dec : EqDecision Operation.
Proof. solve_decision. Defined.

Definition output_names_of (op : Operation) : list string :=
  t_name <$> op_outputs op.

(** [any(filter(output_names.__contains__, output_feature_names))]:
    [filter] keeps the requested names that are outputs of the operation
    and [any] tests the truth value of each, so that an empty name does
    not count. *)
Definition any_requested (output_names : list string)
    (output_feature_names : list string) : bool :=
  existsb (fun x => negb (String.eqb x ""))
    (List.filter (fun x => bool_decide (x ∈ output_names)) output_feature_names).

(** ** The unsupported-operation check *)

Section CheckUnsupported.

(** The keys of [_ops_to_layers._OP_REGISTRY]. *)
Variable _OP_REGISTRY : gset string.

Definition all_outputs_reached (output_feature_names : list string)
    (outputs_encountered : gset string) : bool :=
  forallb (fun out => bool_decide (out ∈ outputs_encountered))
    output_feature_names.

Definition mark_outputs (op : Operation) (outputs_encountered : gset string)
  : gset string :=
  foldl (fun enc out => {[ t_name out ]} ∪ enc) outputs_encountered
    (op_outputs op).

(** The [if] that appends the type of [op] to [unsupported_op_types]. *)
Definition note_unsupported (skip_ops : list string)
    (unsupported_op_types : list string) (op : Operation) : list string :=
  if bool_decide (op_type op ∉ _OP_REGISTRY)
     && bool_decide (op_type op ∉ unsupported_op_types)
     && bool_decide (op_name op ∉ skip_ops)
  then unsupported_op_types ++ [op_type op]
  else unsupported_op_types.

(** The loop of [_check_unsupported_ops]; the state is
    [(unsupported_op_types, outputs_encountered)]. *)
Fixpoint scan_ops (output_feature_names skip_ops : list string)
    (ops : list Operation) (unsupported_op_types : list string)
    (outputs_encountered : gset string) : list string :=
  match ops with
  | [] => unsupported_op_types
  | op :: rest =>
      if all_outputs_reached output_feature_names outputs_encountered
      then unsupported_op_types
      else
        scan_ops output_feature_names skip_ops rest
          (note_unsupported skip_ops unsupported_op_types op)
          (mark_outputs op outputs_encountered)
  end.

Definition _check_unsupported_ops (ops : list Operation)
    (output_feature_names skip_ops : list string) : Result unit :=
  let unsupported_op_types := scan_ops output_feature_names skip_ops ops [] ∅ in
  if decide (0 < length unsupported_op_types)%nat
  then raise (NotImplementedError
                ("Unsupported Ops of type: " +:+ str_join "," unsupported_op_types))
  else ok tt.

End CheckUnsupported.

(** Every requested output is an output of one of the operations. *)
Definition covers (output_feature_names : list string)
    (ops : list Operation) : Prop :=
  forall out, out ∈ output_feature_names ->
    exists op t, op ∈ ops ∧ t ∈ op_outputs op ∧ t_name t = out.

(** ** Dictionaries whose order is observed *)

(** [d[k] = v] on an insertion-ordered dictionary: an existing key keeps
    its position, a new key goes to the end. *)
Fixpoint dict_set {K V} `{EqDecision K} (k : K) (v : V) (d : list (K * V))
  : list (K * V) :=
  match d with
  | [] => [(k, v)]
  | (k', v') :: rest =>
      if decide (k = k') then (k, v) :: rest else (k', v') :: dict_set k v rest
  end.

(** ** Calls that leave the module, and the driver's monad *)

Inductive Call : Type :=
| call_load_graph
| call_topological_sort_ops
| call_find_unused_ops
| call_session_run (fetches : list Tensor)
| call_interpret_shape (input_name : string)
| call_NeuralNetworkBuilder
| call_convert_ops_to_layers
| call_optimize_nn_spec
| call_read_class_labels
| call_set_class_labels
| call_set_pre_processing_parameters
| call_save_spec
| call_MLModel.

Record Event : Type := mkEvent {
  ev_call : Call;
  ev_raised : option exn
}.

#[global] Instance Call_eq_dec : EqDecision Call.
Proof. solve_decision. Defined.
#[global] Instance Event_eq_dec : EqDecision Event.
Proof. solve_decision. Defined.

(** The calls made before the placeholder pass. *)
Definition ordering_call (c : Call) : Prop :=
  match c with
  | call_load_graph | call_topological_sort_ops => True
  | _ => False
  end.

(** The calls of the analysis: everything before the lowering. *)
Definition analysis_call (c : Call) : Prop :=
  match c with
  | call_load_graph | call_topological_sort_ops
  | call_find_unused_ops | call_session_run _ => True
  | _ => False
  end.

(** A computation of the driver: its outcome and the calls it made. *)
Definition M (A : Type) : Type := (Result A * list Event)%type.

Definition mret {A} (a : A) : M A := (inr a, []).

Definition mbind {A B} (m : M A) (k : A -> M B) : M B :=
  match m with
  | (inl e, tr) => (inl e, tr)
  | (inr a, tr) => (fst (k a), tr ++ snd (k a))
  end.

Notation "x <~ m ;; k" := (mbind m (fun x => k))
  (at level 62, m at next level, right associativity).

(** Code of the driver itself: no call is recorded. *)
Definition lift {A} (r : Result A) : M A := (r, []).

Definition raised {A} (r : Result A) : option exn :=
  match r with
  | inl e => Some e
  | inr _ => None
  end.

(** A call to code outside the module, with its outcome. *)
Definition call {A} (c : Call) (r : Result A) : M A :=
  (r, [mkEvent c (raised r)]).

(** [try: x = m  except: x = dflt] with a bare [except]. *)
Definition except_all {A} (m : M A) (dflt : A) : M A :=
  match m with
  | (inl _, tr) => (inr dflt, tr)
  | (inr a, tr) => (inr a, tr)
  end.

(** [str(e)] when [isinstance(e, RuntimeError)]: for a [RuntimeError]
    and for an instance of one of its subclasses. *)
Definition as_RuntimeError (e : exn) : option string :=
  match e with
  | RuntimeError msg | NotImplementedError msg | RecursionError msg =>
      Some msg
  | _ => None
  end.

(** [try: m  except RuntimeError as e: raise ValueError(...)] *)
Definition except_RuntimeError {A} (m : M A) (handler : string -> exn) : M A :=
  match m with
  | (inl e, tr) =>
      match as_RuntimeError e with
      | Some msg => (inl (handler msg), tr)
      | None => (inl e, tr)
      end
  | (inr a, tr) => (inr a, tr)
  end.

(** [for x in xs: st = body(st, x)] in the driver's monad. *)
Fixpoint mfor_each {S A} (body : S -> A -> M S) (xs : list A) (st : S) : M S :=
  match xs with
  | [] => mret st
  | x :: rest => st' <~ body st x ;; mfor_each body rest st'
  end.

(** ** The Core ML side: features, layers and the model specification *)

(** An entry of [input_features] / [output_features]: the name and
    the [datatypes.Array] of its dimensions, or [None] for an output left without
    a shape. *)
Definition Feature : Type := (string * option (list Z))%type.

(** The type of a [FeatureDescription]: [HasField('multiArrayType')]
    holds for [MultiArrayType]. *)
Inductive FeatureType : Type :=
| MultiArrayType (shape : list Z)
| OtherFeatureType (tag : string).

Record FeatureDescription : Type := mkFeatureDescription {
  fd_name : string;
  fd_type : FeatureType;
  fd_shortDescription : string
}.

(** An element of a Python list holding strings and integers. *)
Inductive PyItem : Type :=
| PyStr (s : string)
| PyInt (z : Z).

(** The kinds of value [class_labels] can hold when it is not [None]. *)
Inductive ClassLabels : Type :=
| labels_path (path : string)
| labels_list (classes : list PyItem)
| labels_other.

Section Driver.

(** Values the driver only passes along. *)
Context {ndarray RandomState LayerParams SpecRest MLModel
         PreprocArgs ConversionFn : Type}.

Record NeuralNetworkLayer : Type := mkLayer {
  layer_input : list string;
  layer_output : list string;
  layer_params : LayerParams
}.

(** [builder.spec], with the layers of [builder.nn_spec]. *)
Record Model_spec : Type := mkSpec {
  description_input : list FeatureDescription;
  description_output : list FeatureDescription;
  layers : list NeuralNetworkLayer;
  spec_rest : SpecRest
}.

(** A value fed to a placeholder: the integer [1] for a scalar,
    an array otherwise. *)
Inductive FeedValue : Type :=
| feed_int (z : Z)
| feed_array (a : ndarray).

Definition FeedDict : Type := list (Tensor * FeedValue).

(** [class Context]. The dictionaries that start empty and are filled
    by the lowering code only are kept with the types its comments
    give them. *)
Record Context_ : Type := mkContext {
  builder : option Model_spec;
  consts : gmap string ndarray;
  shape_dict : gmap string (list Z);
  translated : gmap string bool;
  out_name_to_in_name : gmap string string;
  all_ops : list Operation;
  output_names : list string;
  skip_map_names : gmap string string;
  load_constants_mlmodel : gmap string bool;
  blob_graph : gmap string (list Operation);
  shape_dict_rank_4 : gmap string (list Z);
  dim_labels : gmap string (list string);
  use_dfs_shape_infer : bool;
  session : bool;
  input_feed_dict : option FeedDict;
  unused_ops : list string;
  effectively_constant_ops : list string;
  skip_ops : list string;
  add_custom_layers : bool;
  custom_conversion_functions : gmap string ConversionFn;
  ops_converted_to_custom_layers : list Operation
}.

(** [Context.__init__] *)
Definition Context_init (consts : gmap string ndarray)
    (shape_dict : gmap string (list Z)) (ops : list Operation)
    (blob_graph : gmap string (list Operation))
    (output_features : list Feature) : Context_ :=
  {| builder := None;
     consts := consts;
     shape_dict := shape_dict;
     translated := (fun _ => true) <$> consts;
     out_name_to_in_name := ∅;
     all_ops := ops;
     output_names := fst <$> output_features;
     skip_map_names := ∅;
     load_constants_mlmodel := ∅;
     blob_graph := blob_graph;
     shape_dict_rank_4 := ∅;
     dim_labels := ∅;
     use_dfs_shape_infer := true;
     session := false;
     input_feed_dict := None;
     unused_ops := [];
     effectively_constant_ops := [];
     skip_ops := [];
     add_custom_layers := false;
     custom_conversion_functions := ∅;
     ops_converted_to_custom_layers := [] |}.

(** Everything the driver calls outside its own file. *)
Record Externals : Type := mkExternals {
  (** reading and importing the serialized graph, [g.get_operations()] *)
  load_graph : string -> Result (list Operation);
  (** [_tf_graph_transform._topological_sort_ops] *)
  _topological_sort_ops : list Operation -> Result (list Operation);
  (** [_tf_graph_transform._find_unused_ops] *)
  _find_unused_ops : list Operation -> list string -> FeedDict -> FeedDict
                     -> Result (list string * list string);
  (** the keys of [_ops_to_layers._OP_REGISTRY] *)
  _OP_REGISTRY : gset string;
  (** [np.random.rand] at the dimensions, on the process-wide generator *)
  np_random_rand : list Z -> RandomState -> Result ndarray * RandomState;
  (** [k * a] *)
  nd_scale : Z -> ndarray -> ndarray;
  (** [list(a.shape)] *)
  nd_shape : ndarray -> list Z;
  (** [sess.run(tensors, feed_dict=...)] *)
  session_run : list Tensor -> FeedDict -> Result (list ndarray);
  (** [tensor.consumers()] *)
  consumers : Tensor -> list Operation;
  (** [str(shape)] of a [TensorShape] *)
  TensorShape_str : TensorShape -> string;
  (** [str(n)] of an integer and [str(l)] of a list *)
  int_str : Z -> string;
  list_str : list PyItem -> string;
  (** [_interpret_shapes._interpret_shape] *)
  interpret_shape : string -> Context_ -> Result (bool * Context_);
  (** [NeuralNetworkBuilder(input_features, output_features, mode=mode)] *)
  NeuralNetworkBuilder : list Feature -> list Feature -> option string
                         -> Result Model_spec;
  (** [_ops_to_layers.convert_ops_to_layers]; the builder of the
      context it returns is the state it left the builder in *)
  convert_ops_to_layers : Context_ -> Result Context_;
  (** [optimizations._optimize_nn_spec.optimize_nn_spec] *)
  optimize_nn_spec : Model_spec -> Result Model_spec;
  (** [os.path.isfile] and reading the lines of a file *)
  os_path_isfile : string -> bool;
  read_lines : string -> Result (list string);
  (** [builder.set_class_labels] *)
  set_class_labels : list PyItem -> option (string * string) -> Model_spec
                     -> Result Model_spec;
  (** [builder.set_pre_processing_parameters] *)
  set_pre_processing_parameters : option (list string) -> PreprocArgs
                                  -> Model_spec -> Result Model_spec;
  (** [coremltools.models.utils.save_spec] and [MLModel(spec)] *)
  save_spec : Model_spec -> string -> Result unit;
  MLModel_of_spec : Model_spec -> Result MLModel
}.

Variable E : Externals.

(** *** Shapes of the Core ML features *)

Definition _infer_coreml_input_shape (tf_shape : list Z) : Result (list Z) :=
  match tf_shape with
  | [] => ok [1; 1; 1]%Z
  | [w] => ok [1%Z; 1%Z; w]
  | [_; c] => ok [c]
  | [_; s; c] => ok [c; 1%Z; s]
  | [_; h; w; c] => ok [c; h; w]
  | _ => raise (ValueError ("Unrecognized TensorFlow input shape"
                            +:+ list_str E (PyInt <$> tf_shape)))
  end.

(** The result is [None] where the source returns [None]. *)
Definition _infer_coreml_output_shape (tf_shape : list Z)
  : Result (option (list Z)) :=
  match tf_shape with
  | [d] => ok (Some [d; 1%Z; 1%Z])
  | [b; c] => if (b =? 1)%Z then ok (Some [c]) else ok None
  | [_; _; _] => ok None
  | [_; h; w; c] => ok (Some [c; h; w])
  | [] => ok (Some [1%Z])
  | _ => raise (ValueError ("Unrecognized TensorFlow output shape "
                            +:+ list_str E (PyInt <$> tf_shape)))
  end.

(** *** Loading and ordering *)

Definition decode_jpeg_message : string :=
  "Unsupported Op of type: DecodeJpeg. Kindly refer to the "
  +:+ dq +:+ "examples/inception_v3.ipynb" +:+ dq
  +:+ " notebook, on the tfcoreml github page, to see how to strip input "
  +:+ "pre-processing from the TF graph before conversion to CoreML.".

(** From the start of [_convert_pb_to_mlmodel] to the sorted [OPS]. *)
Definition load_and_sort (tf_model_path : string) : M (list Operation) :=
  OPS <~ call call_load_graph (load_graph E tf_model_path) ;;
  _ <~ lift (if bool_decide ("DecodeJpeg" ∈ op_type <$> OPS)
             then raise (NotImplementedError decode_jpeg_message)
             else ok tt) ;;
  call call_topological_sort_ops (_topological_sort_ops E OPS).

(** *** The dictionary from a blob to the operations it feeds *)

Definition blob_graph_step (BLOB_GRAPH : gmap string (list Operation))
    (op : Operation) : gmap string (list Operation) :=
  let BLOB_GRAPH :=
    foldl (fun g inp =>
             match g !! t_name inp with
             | Some consumers_ => <[t_name inp := consumers_ ++ [op]]> g
             | None => g
             end) BLOB_GRAPH (op_inputs op) in
  foldl (fun g out =>
           match g !! t_name out with
           | None => <[t_name out := []]> g
           | Some _ => g
           end) BLOB_GRAPH (op_outputs op).

Definition make_blob_graph (OPS : list Operation)
  : gmap string (list Operation) :=
  foldl blob_graph_step ∅ OPS.

(** *** The placeholder pass *)

(** What the placeholder loop updates, and the generator it draws from. *)
Record PState : Type := mkPState {
  ps_SHAPE_DICT : gmap string (list Z);
  ps_input_feed_dict : FeedDict;
  ps_input_feed_dict2 : FeedDict;
  ps_rng : RandomState
}.

Definition provide_shape_message (input_name : string) : string :=
  "Please provide the shape for the input " +:+ input_name
  +:+ " through the argument 'input_name_shape_dict'".

Definition incomplete_shape_message (input_name : string)
    (shape : TensorShape) : string :=
  input_name +:+ " is a placeholder with incomplete shape "
  +:+ TensorShape_str E shape
  +:+ ". Please provide the 'input_name_shape_dict' argument to the "
  +:+ "convert function, with the fully defined shape.".

(** The shape a placeholder is given: the [if]/[elif]/[else] on
    [input_name in input_name_shape_dict]. *)
Definition placeholder_shape (input_name_shape_dict : gmap string (list Z))
    (input_name : string) (shape : TensorShape) : Result (list Z) :=
  match input_name_shape_dict !! input_name with
  | Some override => ok override
  | None =>
      if is_fully_defined shape
      then ok (known_dims (default [] shape))
      else
        match shape with
        | None => raise (ValueError (provide_shape_message input_name))
        | Some shape_list =>
            d0 <- index shape_list 0 ;;
            if bool_decide (d0 = None)
               && bool_decide (None ∉ drop 1 shape_list)
            then ok (1%Z :: known_dims (drop 1 shape_list))
            else raise (ValueError (incomplete_shape_message input_name shape))
        end
  end.

(** The two feeds of a placeholder: [1] for a scalar, two successive
    draws otherwise, the second scaled by 255. *)
Definition draw_feeds (shape : list Z) (rng : RandomState)
  : Result (FeedValue * FeedValue * RandomState) :=
  if decide (length shape = 0%nat)
  then ok (feed_int 1, feed_int 1, rng)
  else
    let (r1, rng1) := np_random_rand E shape rng in
    a1 <- r1 ;;
    let (r2, rng2) := np_random_rand E shape rng1 in
    a2 <- r2 ;;
    ok (feed_array a1, feed_array (nd_scale E 255 a2), rng2).

(** The feeds of a placeholder and its entry in [SHAPE_DICT], once its
    shape is known: from [if len(shape) == 0] to the end of the body. *)
Definition placeholder_commit (st : PState) (out0 : Tensor)
    (shape : list Z) : Result PState :=
  feeds <- draw_feeds shape (ps_rng st) ;;
  let '(v1, v2, rng') := feeds in
  ok {| ps_SHAPE_DICT := <[t_name out0 := shape]> (ps_SHAPE_DICT st);
        ps_input_feed_dict := dict_set out0 v1 (ps_input_feed_dict st);
        ps_input_feed_dict2 := dict_set out0 v2 (ps_input_feed_dict2 st);
        ps_rng := rng' |}.

(** The body of [for op in OPS] at the comment
    "run through all placeholders". *)
Definition placeholder_step (output_feature_names : list string)
    (input_name_shape_dict : gmap string (list Z))
    (st : PState) (op : Operation) : Result PState :=
  let output_names := output_names_of op in
  if String.eqb (op_type op) "Placeholder"
  then
    if any_requested output_names output_feature_names
    then raise (AssertionError "Output feature cannot be a placeholder")
    else
      out0 <- index (op_outputs op) 0 ;;
      let input_name := t_name out0 in
      shape <- placeholder_shape input_name_shape_dict input_name
                 (t_shape out0) ;;
      placeholder_commit st out0 shape
  else ok st.

Definition placeholder_start (rng : RandomState) : PState :=
  {| ps_SHAPE_DICT := ∅;
     ps_input_feed_dict := [];
     ps_input_feed_dict2 := [];
     ps_rng := rng |}.

Definition placeholder_pass (output_feature_names : list string)
    (input_name_shape_dict : gmap string (list Z))
    (OPS : list Operation) (st : PState) : Result PState :=
  for_each (placeholder_step output_feature_names input_name_shape_dict)
    OPS st.

(** What the placeholder pass hands to the rest of the conversion: the
    shape dictionary and the two feeds, without the generator. *)
Definition drawn (r : Result PState)
  : Result (gmap string (list Z) * FeedDict * FeedDict) :=
  ps <- r ;;
  ok (ps_SHAPE_DICT ps, ps_input_feed_dict ps, ps_input_feed_dict2 ps).

(** *** Probing for unused and effectively constant operations *)

(** The [try] ... [except: pass] around [_find_unused_ops]. *)
Definition probe (OPS : list Operation) (output_feature_names : list string)
    (input_feed_dict input_feed_dict2 : FeedDict)
  : M (list string * list string) :=
  except_all
    (call call_find_unused_ops
       (_find_unused_ops E OPS output_feature_names
          input_feed_dict input_feed_dict2))
    ([], []).

(** *** Shapes and constants *)

(** [d[key]] on a dictionary. *)
Definition getitem {V} (d : gmap string V) (key : string) : Result V :=
  match d !! key with
  | Some v => ok v
  | None => raise (KeyError key)
  end.

(** What the loop at "Populate SHAPE_DICT" updates. *)
Record Wanted : Type := mkWanted {
  w_SHAPE_DICT : gmap string (list Z);
  w_shapes_wanted : list (string * Tensor);
  w_consts_wanted : list (string * Tensor)
}.

Definition note_output (st : Wanted) (out : Tensor) : Wanted :=
  if is_fully_defined (t_shape out)
  then {| w_SHAPE_DICT :=
            <[t_name out := known_dims (default [] (t_shape out))]>
              (w_SHAPE_DICT st);
          w_shapes_wanted := w_shapes_wanted st;
          w_consts_wanted := w_consts_wanted st |}
  else {| w_SHAPE_DICT := w_SHAPE_DICT st;
          w_shapes_wanted := w_shapes_wanted st ++ [(t_name out, out)];
          w_consts_wanted := w_consts_wanted st |}.

Definition is_const (effectively_constant_ops : list string)
    (op : Operation) : bool :=
  String.eqb (op_type op) "Const"
  || (String.eqb (op_type op) "Dequantize"
      && bool_decide (op_name op ∈ effectively_constant_ops)).

Definition collect_step (effectively_constant_ops : list string)
    (st : Wanted) (op : Operation) : Result Wanted :=
  let st := foldl note_output st (op_outputs op) in
  if is_const effectively_constant_ops op
  then
    const <- index (op_outputs op) 0 ;;
    ok {| w_SHAPE_DICT := w_SHAPE_DICT st;
          w_shapes_wanted := w_shapes_wanted st;
          w_consts_wanted := w_consts_wanted st ++ [(t_name const, const)] |}
  else ok st.

Definition collect_wanted (effectively_constant_ops : list string)
    (OPS : list Operation) (SHAPE_DICT : gmap string (list Z))
  : Result Wanted :=
  for_each (collect_step effectively_constant_ops) OPS
    {| w_SHAPE_DICT := SHAPE_DICT;
       w_shapes_wanted := [];
       w_consts_wanted := [] |}.

(** The body of [for i in range(len(tensor_names))]. *)
Definition commit_step (tensor_names const_tensor_names : list string)
    (tensors_evaluated : list ndarray)
    (st : gmap string (list Z) * gmap string ndarray) (i : nat)
  : Result (gmap string (list Z) * gmap string ndarray) :=
  let (SHAPE_DICT, CONSTS) := st in
  name <- index tensor_names i ;;
  SHAPE_DICT <-
    match SHAPE_DICT !! name with
    | None =>
        v <- index tensors_evaluated i ;;
        ok (<[name := nd_shape E v]> SHAPE_DICT)
    | Some _ => ok SHAPE_DICT
    end ;;
  CONSTS <-
    (if bool_decide (name ∈ const_tensor_names)
        && bool_decide (CONSTS !! name = None)
     then
       v <- index tensors_evaluated i ;;
       ok (<[name := v]> CONSTS)
     else ok CONSTS) ;;
  ok (SHAPE_DICT, CONSTS).

(** From "Collecting all the 'Const' ops" to the end of the loop:
    one run of the session for every wanted tensor. *)
Definition run_and_commit (w : Wanted) (input_feed_dict : FeedDict)
  : M (gmap string (list Z) * gmap string ndarray) :=
  if decide (0 < length (w_shapes_wanted w)
             ∨ 0 < length (w_consts_wanted w))%nat
  then
    let wanted := w_shapes_wanted w ++ w_consts_wanted w in
    let tensor_names := fst <$> wanted in
    let tensors := snd <$> wanted in
    let const_tensor_names := fst <$> w_consts_wanted w in
    tensors_evaluated <~
      call (call_session_run tensors)
        (session_run E tensors input_feed_dict) ;;
    lift (for_each
            (commit_step tensor_names const_tensor_names tensors_evaluated)
            (seq 0 (length tensor_names)) (w_SHAPE_DICT w, ∅))
  else mret (w_SHAPE_DICT w, ∅).

Definition populate_shape_dict (effectively_constant_ops : list string)
    (OPS : list Operation) (SHAPE_DICT : gmap string (list Z))
    (input_feed_dict : FeedDict)
  : M (gmap string (list Z) * gmap string ndarray) :=
  w <~ lift (collect_wanted effectively_constant_ops OPS SHAPE_DICT) ;;
  run_and_commit w input_feed_dict.

(** *** Output features *)

Definition output_step (output_feature_names : list string)
    (SHAPE_DICT : gmap string (list Z))
    (output_features : list Feature) (op : Operation)
  : Result (list Feature) :=
  if any_requested (output_names_of op) output_feature_names
  then
    for_each
      (fun output_features output =>
         tf_shape <- getitem SHAPE_DICT (t_name output) ;;
         shape <- _infer_coreml_output_shape tf_shape ;;
         ok (output_features ++ [(t_name output, shape)]))
      (List.filter (fun x => bool_decide (t_name x ∈ output_feature_names))
         (op_outputs op))
      output_features
  else ok output_features.

Definition collect_output_features (output_feature_names : list string)
    (SHAPE_DICT : gmap string (list Z)) (OPS : list Operation)
  : Result (list Feature) :=
  for_each (output_step output_feature_names SHAPE_DICT) OPS [].

Definition missing_output_message (given_out_name : string) : string :=
  "output name: " +:+ given_out_name
  +:+ ", was provided, but the Tensorflow graph does not contain a tensor "
  +:+ "with this name.".

(** [if len(output_features) != len(output_feature_names): ...] *)
Definition check_output_names (output_features : list Feature)
    (output_feature_names : list string) : Result unit :=
  if decide (length output_features ≠ length output_feature_names)
  then
    let all_out_names_in_graph := fst <$> output_features in
    for_each
      (fun _ given_out_name =>
         if bool_decide (given_out_name ∉ all_out_names_in_graph)
         then raise (ValueError (missing_output_message given_out_name))
         else ok tt)
      output_feature_names tt
  else ok tt.

(** *** Input features *)

(** What the loop [for input_tensor in input_feed_dict] updates.
    [SHAPE_DICT] and [context.shape_dict] are one dictionary from the
    construction of the context on, so the loop reads it in the
    context. *)
Record InState : Type := mkInState {
  in_context : Context_;
  in_sequence_inputs : gmap string Z;
  in_input_features : list Feature
}.

Definition input_step (st : InState) (entry : Tensor * FeedValue)
  : M InState :=
  let input_tensor := fst entry in
  let context := in_context st in
  let input_name := t_name input_tensor in
  shape <~ lift (getitem (shape_dict context) input_name) ;;
  interpreted <~
    (if use_dfs_shape_infer context
     then call (call_interpret_shape input_name)
            (interpret_shape E input_name context)
     else mret (false, context)) ;;
  let (status, context) := interpreted : bool * Context_ in
  shape <~ lift (if status
                 then getitem (shape_dict_rank_4 context) input_name
                 else ok shape) ;;
  let sequence_inputs :=
    match shape with
    | [d0; _; _; _] =>
        if (d0 =? 1)%Z then in_sequence_inputs st
        else <[input_name := d0]> (in_sequence_inputs st)
    | _ => in_sequence_inputs st
    end in
  consumer_op <~ lift (index (consumers E input_tensor) 0) ;;
  if String.eqb (op_type consumer_op) "OneHot"
  then mret {| in_context := context;
               in_sequence_inputs := <[input_name := (-1)%Z]> sequence_inputs;
               in_input_features :=
                 in_input_features st ++ [(input_name, Some [1%Z])] |}
  else
    shape <~ lift (_infer_coreml_input_shape shape) ;;
    mret {| in_context := context;
            in_sequence_inputs := sequence_inputs;
            in_input_features :=
              in_input_features st ++ [(input_name, Some shape)] |}.

Definition collect_input_features (context : Context_)
    (input_feed_dict : FeedDict) : M InState :=
  mfor_each input_step input_feed_dict
    {| in_context := context;
       in_sequence_inputs := ∅;
       in_input_features := [] |}.

(** *** Descriptions of the sequence inputs *)

Definition feed_message (items : list PyItem) : string :=
  ". Feed it an MLMultiArray of shape " +:+ list_str E items
  +:+ " at runtime".

Definition sequence_message (seq_length : Z) (proto_shape : list Z)
  : string :=
  if (seq_length =? -1)%Z
  then "This input is a sequence"
       +:+ (if decide (0 < length proto_shape)%nat
            then feed_message
                   ([PyStr "Seq_size"; PyStr "1"] ++ (PyInt <$> proto_shape))
            else "")
  else "This input is a sequence of length " +:+ int_str E seq_length
       +:+ (if decide (0 < length proto_shape)%nat
            then feed_message
                   ([PyInt seq_length; PyInt 1] ++ (PyInt <$> proto_shape))
            else "").

Definition describe_sequence (sequence_inputs : gmap string Z)
    (inputs : FeatureDescription) : FeatureDescription :=
  match sequence_inputs !! fd_name inputs with
  | Some seq_length =>
      let proto_shape :=
        match fd_type inputs with
        | MultiArrayType shape => shape
        | OtherFeatureType _ => []
        end in
      {| fd_name := fd_name inputs;
         fd_type := fd_type inputs;
         fd_shortDescription := sequence_message seq_length proto_shape |}
  | None => inputs
  end.

Definition describe_sequences (sequence_inputs : gmap string Z)
    (spec : Model_spec) : Model_spec :=
  {| description_input :=
       describe_sequence sequence_inputs <$> description_input spec;
     description_output := description_output spec;
     layers := layers spec;
     spec_rest := spec_rest spec |}.

(** *** Names of the interface blobs *)

(** [name.replace(':', '__').replace('/', '__')] *)
Definition canonical_name (name : string) : string :=
  str_replace "/" "__" (str_replace ":" "__" name).

(** What one character of a name becomes. *)
Definition canonical_char (c : ascii) : string :=
  if (Ascii.eqb c ":" || Ascii.eqb c "/")%bool
  then "__"
  else String c EmptyString.

Definition rename_feature (f : FeatureDescription) : FeatureDescription :=
  {| fd_name := canonical_name (fd_name f);
     fd_type := fd_type f;
     fd_shortDescription := fd_shortDescription f |}.

(** [if name in interface_blob_names: ... = name.replace(...)] *)
Definition rename_blob (interface_blob_names : list string)
    (name : string) : string :=
  if bool_decide (name ∈ interface_blob_names)
  then canonical_name name
  else name.

Definition rename_layer (interface_blob_names : list string)
    (spec_layer : NeuralNetworkLayer) : NeuralNetworkLayer :=
  {| layer_input := rename_blob interface_blob_names <$> layer_input spec_layer;
     layer_output :=
       rename_blob interface_blob_names <$> layer_output spec_layer;
     layer_params := layer_params spec_layer |}.

(** The names collected by the two loops over the description. *)
Definition interface_blob_names_of (spec : Model_spec) : list string :=
  (fd_name <$> description_input spec)
  ++ (fd_name <$> description_output spec).

(** From "Replace all input/output blob names" to the end of the loop
    over the layers. *)
Definition canonicalize_names (spec : Model_spec) : Model_spec :=
  let interface_blob_names := interface_blob_names_of spec in
  {| description_input := rename_feature <$> description_input spec;
     description_output := rename_feature <$> description_output spec;
     layers := rename_layer interface_blob_names <$> layers spec;
     spec_rest := spec_rest spec |}.

(** *** The driver *)

(** The arguments of [_convert_pb_to_mlmodel]; the colour biases,
    [is_bgr] and [image_scale] travel together as [preprocessing]. *)
Record ConvertArgs : Type := mkConvertArgs {
  tf_model_path : string;
  mlmodel_path : option string;
  output_feature_names : list string;
  input_name_shape_dict : gmap string (list Z);
  image_input_names : option (string + list string);
  preprocessing : PreprocArgs;
  class_labels : option ClassLabels;
  predicted_feature_name : option string;
  predicted_probabilities_output : string;
  arg_add_custom_layers : bool;
  arg_custom_conversion_functions : gmap string ConversionFn
}.

(** The local variables alive after "Fill in output information". *)
Record Analysis : Type := mkAnalysis {
  an_OPS : list Operation;
  an_BLOB_GRAPH : gmap string (list Operation);
  an_input_feed_dict : FeedDict;
  an_unused_ops : list string;
  an_effectively_constant_ops : list string;
  an_SHAPE_DICT : gmap string (list Z);
  an_CONSTS : gmap string ndarray;
  an_output_features : list Feature
}.

(** The analysis is the first half of [_convert_pb_to_mlmodel], up to
    the end of the loop that fills [output_features]; it is cut here
    into what follows the sorting, what follows the placeholder pass and
    what follows the probing. *)

(** From "Populate SHAPE_DICT" to the end of the loop that fills
    [output_features]. *)
Definition analyse_probed (args : ConvertArgs) (OPS : list Operation)
    (ps : PState) (found : list string * list string) : M Analysis :=
  let (unused_ops, effectively_constant_ops) := found in
  shapes <~ populate_shape_dict effectively_constant_ops OPS
              (ps_SHAPE_DICT ps) (ps_input_feed_dict ps) ;;
  let (SHAPE_DICT, CONSTS) :=
    shapes : gmap string (list Z) * gmap string ndarray in
  output_features <~
    lift (collect_output_features (output_feature_names args)
            SHAPE_DICT OPS) ;;
  mret {| an_OPS := OPS;
          an_BLOB_GRAPH := make_blob_graph OPS;
          an_input_feed_dict := ps_input_feed_dict ps;
          an_unused_ops := unused_ops;
          an_effectively_constant_ops := effectively_constant_ops;
          an_SHAPE_DICT := SHAPE_DICT;
          an_CONSTS := CONSTS;
          an_output_features := output_features |}.

Definition analyse_fed (args : ConvertArgs) (OPS : list Operation)
    (ps : PState) : M Analysis :=
  found <~ probe OPS (output_feature_names args)
             (ps_input_feed_dict ps) (ps_input_feed_dict2 ps) ;;
  analyse_probed args OPS ps found.

Definition analyse_sorted (args : ConvertArgs) (rng : RandomState)
    (OPS : list Operation) : M Analysis :=
  ps <~ lift (placeholder_pass (output_feature_names args)
                (input_name_shape_dict args) OPS (placeholder_start rng)) ;;
  analyse_fed args OPS ps.

Definition analyse (args : ConvertArgs) (rng : RandomState) : M Analysis :=
  OPS <~ load_and_sort (tf_model_path args) ;;
  analyse_sorted args rng OPS.

(** The assignments to the context between the construction of the
    builder and the call of [convert_ops_to_layers]. *)
Definition Context_prepare (context : Context_) (builder_ : Model_spec)
    (args : ConvertArgs) (a : Analysis) : Context_ :=
  {| builder := Some builder_;
     consts := consts context;
     shape_dict := shape_dict context;
     translated := translated context;
     out_name_to_in_name := out_name_to_in_name context;
     all_ops := all_ops context;
     output_names := output_names context;
     skip_map_names := skip_map_names context;
     load_constants_mlmodel := load_constants_mlmodel context;
     blob_graph := blob_graph context;
     shape_dict_rank_4 := shape_dict_rank_4 context;
     dim_labels := dim_labels context;
     use_dfs_shape_infer := use_dfs_shape_infer context;
     session := true;
     input_feed_dict := Some (an_input_feed_dict a);
     unused_ops := an_unused_ops a;
     effectively_constant_ops := an_effectively_constant_ops a;
     skip_ops := skip_ops context;
     add_custom_layers := arg_add_custom_layers args;
     custom_conversion_functions := arg_custom_conversion_functions args;
     ops_converted_to_custom_layers :=
       ops_converted_to_custom_layers context |}.

(** From the construction of the context to the descriptions of the
    sequence inputs. The builder is read back through the context
    after the lowering, which is taken to leave [context.builder]
    bound to the object it was given. *)
Definition translate (args : ConvertArgs) (a : Analysis) : M Model_spec :=
  let context :=
    Context_init (an_CONSTS a) (an_SHAPE_DICT a) (an_OPS a)
      (an_BLOB_GRAPH a) (an_output_features a) in
  ins <~ collect_input_features context (an_input_feed_dict a) ;;
  let mode :=
    match class_labels args with
    | Some _ => Some "classifier"
    | None => None
    end in
  builder_ <~ call call_NeuralNetworkBuilder
                (NeuralNetworkBuilder E (in_input_features ins)
                   (an_output_features a) mode) ;;
  let context := Context_prepare (in_context ins) builder_ args a in
  context <~ call call_convert_ops_to_layers
               (convert_ops_to_layers E context) ;;
  spec <~ call call_optimize_nn_spec
            (optimize_nn_spec E (default builder_ (builder context))) ;;
  mret (describe_sequences (in_sequence_inputs ins) spec).

Definition class_path_message (classes_in : string) : string :=
  "Path to class labels (" +:+ classes_in +:+ ") does not exist.".

(** The classes of a classifier: the lines of a file, or the list. *)
Definition read_classes (classes_in : ClassLabels) : M (list PyItem) :=
  match classes_in with
  | labels_path path =>
      if os_path_isfile E path
      then
        classes <~ call call_read_class_labels (read_lines E path) ;;
        mret (PyStr <$> classes)
      else lift (raise (ValueError (class_path_message path)))
  | labels_list classes => mret classes
  | labels_other =>
      lift (raise (ValueError
        "Class labels must be a list of integers / strings, or a file path"))
  end.

(** From "Add image input identifier" to the return. *)
Definition finish (args : ConvertArgs) (spec : Model_spec) : M MLModel :=
  let image_input_names_ :=
    match image_input_names args with
    | Some (inl name) => Some [name]
    | Some (inr names) => Some names
    | None => None
    end in
  let spec := canonicalize_names spec in
  let image_input_names_ :=
    (fun names : list string => canonical_name <$> names)
      <$> image_input_names_ in
  spec <~
    match class_labels args with
    | Some classes_in =>
        classes <~ read_classes classes_in ;;
        call call_set_class_labels
          (set_class_labels E classes
             ((fun name : string =>
                 (name, predicted_probabilities_output args))
                <$> predicted_feature_name args)
             spec)
    | None => mret spec
    end ;;
  spec <~ call call_set_pre_processing_parameters
            (set_pre_processing_parameters E image_input_names_
               (preprocessing args) spec) ;;
  except_RuntimeError
    (_ <~ match mlmodel_path args with
          | Some path => call call_save_spec (save_spec E spec path)
          | None => mret tt
          end ;;
     call call_MLModel (MLModel_of_spec E spec))
    (fun msg => ValueError ("Compilation failed: " +:+ msg)).

(** The check made when custom layers are not permitted. *)
Definition unsupported_check (args : ConvertArgs) (a : Analysis)
  : Result unit :=
  if arg_add_custom_layers args
  then ok tt
  else _check_unsupported_ops (_OP_REGISTRY E) (an_OPS a)
         (output_feature_names args)
         (an_effectively_constant_ops a ++ an_unused_ops a).

(** The second half: the two checks, the lowering and the finish. *)
Definition after_analysis (args : ConvertArgs) (a : Analysis) : M MLModel :=
  _ <~ lift (check_output_names (an_output_features a)
               (output_feature_names args)) ;;
  _ <~ lift (unsupported_check args a) ;;
  spec <~ translate args a ;;
  finish args spec.

Definition _convert_pb_to_mlmodel (args : ConvertArgs) (rng : RandomState)
  : M MLModel :=
  a <~ analyse args rng ;;
  after_analysis args a.

(** The backend [E] with another prober. *)
Definition with_prober
    (prober : list Operation -> list string -> FeedDict -> FeedDict
              -> Result (list string * list string)) : Externals :=
  {| load_graph := load_graph E;
     _topological_sort_ops := _topological_sort_ops E;
     _find_unused_ops := prober;
     _OP_REGISTRY := _OP_REGISTRY E;
     np_random_rand := np_random_rand E;
     nd_scale := nd_scale E;
     nd_shape := nd_shape E;
     session_run := session_run E;
     consumers := consumers E;
     TensorShape_str := TensorShape_str E;
     int_str := int_str E;
     list_str := list_str E;
     interpret_shape := interpret_shape E;
     NeuralNetworkBuilder := NeuralNetworkBuilder E;
     convert_ops_to_layers := convert_ops_to_layers E;
     optimize_nn_spec := optimize_nn_spec E;
     os_path_isfile := os_path_isfile E;
     read_lines := read_lines E;
     set_class_labels := set_class_labels E;
     set_pre_processing_parameters := set_pre_processing_parameters E;
     save_spec := save_spec E;
     MLModel_of_spec := MLModel_of_spec E |}.

(** A prober that finds nothing to prune and nothing to fold. *)
Definition nothing_found (OPS : list Operation) (outs : list string)
    (feed feed2 : FeedDict) : Result (list string * list string) :=
  ok ([], []).

End Driver.

(** ** The supported targets *)

(** [xs.index(x)], for a string whose [repr] is the string between
    single quotes. *)
Fixpoint list_index (xs : list string) (x : string) : Result nat :=
  match xs with
  | [] => raise (ValueError ("'" +:+ x +:+ "' is not in list"))
  | y :: rest =>
      if String.eqb y x then ok 0%nat
      else i <- list_index rest x ;; ok (S i)
  end.

(** [class SupportedVersion]. The attributes of the class are computed
    once, when its body runs. *)
Module SupportedVersion.

Definition supported_ios_version : list string := ["11.2"; "12"; "13"].

Definition IOS_13_VERSION : Result nat :=
  list_index supported_ios_version "13".

Definition ND_ARRARY_SUPPORT : Result nat := IOS_13_VERSION.

Definition ios_support_check (target_ios : string) : bool :=
  bool_decide (target_ios ∈ supported_ios_version).

Definition get_supported_ios : list string := supported_ios_version.

Definition not_supported_template : string :=
  "{} not supported. Please provide one of target iOS: {}".

Section Methods.

(** [str(e)] of an exception constructed from three arguments: the
    template, which is never formatted, the target and the list of the
    supported targets. *)
Variable args_str : string -> string -> list string -> string.

Definition is_nd_array_supported (target_ios : string) : Result bool :=
  if negb (ios_support_check target_ios)
  then raise (TypeError (args_str not_supported_template target_ios
                           supported_ios_version))
  else
    target_ios_index <- list_index supported_ios_version target_ios ;;
    nd_array_support <- ND_ARRARY_SUPPORT ;;
    ok (nd_array_support <=? target_ios_index)%nat.

(** The three names returned are bound nowhere in the module, so that
    reading one of them raises [NameError]. *)
Definition get_specification_version (target_ios : string) : Result Z :=
  if negb (ios_support_check target_ios)
  then raise (TypeError (args_str not_supported_template target_ios
                           supported_ios_version))
  else if String.eqb target_ios "11.2"
  then raise (OtherError "NameError: name 'IOS_11_2_SPEC_VERSION' is not defined")
  else if String.eqb target_ios "12"
  then raise (OtherError "NameError: name 'IOS_12_SPEC_VERSION' is not defined")
  else raise (OtherError "NameError: name 'IOS_13_SPEC_VERSION' is not defined").

End Methods.

End SupportedVersion.

(** ** The entry point *)

(** The line feed, as a string. *)
Definition nl : string := String (ascii_of_nat 10) EmptyString.

(** [s.split(':')[0]]: what stands before the first colon of [s]. *)
Fixpoint before_colon (s : string) : string :=
  match s with
  | EmptyString => EmptyString
  | String c rest =>
      if Ascii.eqb c ":" then EmptyString else String c (before_colon rest)
  end.

(** [for x in xs] when [xs] may be [None]. *)
Definition iterate {A} (xs : option (list A)) : Result (list A) :=
  match xs with
  | Some l => ok l
  | None => raise (TypeError "'NoneType' object is not iterable")
  end.

(** The body of the two loops of [check_input_output_names]; the state
    is [(new, old)]. *)
Definition note_colon (st : list string * list string) (name : string)
  : list string * list string :=
  if contains_char ":" name
  then (fst st ++ [before_colon name], snd st ++ [name])
  else st.

Definition colon_message (input_string output_string : string) : string :=
  "with target deployment > '12', the converter drops ':' convention for "
  +:+ "input and output. Please provide input and output without ':' e.g. "
  +:+ "`input` instead of `input:0`" +:+ nl
  +:+ "Recommendation: " +:+ nl
  +:+ " " +:+ input_string +:+ " " +:+ output_string.

(** Calls of the entry point that leave the module, beside those of
    the driver. *)
Inductive EntryCall : Type :=
| call_coremltools_convert
| call_MLModel_save (path : string)
| call_driver (c : Call).

Record EntryEvent : Type := mkEntryEvent {
  ee_call : EntryCall;
  ee_raised : option exn
}.

Definition driver_event (ev : Event) : EntryEvent :=
  {| ee_call := call_driver (ev_call ev); ee_raised := ev_raised ev |}.

Section Entry.

Context {ndarray RandomState LayerParams SpecRest MLModel
         PreprocArgs ConversionFn ShapeFn : Type}.

Variable E : @Externals ndarray RandomState LayerParams SpecRest MLModel
               PreprocArgs ConversionFn.

(** A dictionary argument is the list of its items in the order of
    insertion, its keys being distinct. *)
Definition check_input_output_names
    (input_name_shape_dict : option (list (string * list Z)))
    (output_feature_names : option (list string)) : Result unit :=
  keys <- iterate ((fun items : list (string * list Z) => fst <$> items)
                     <$> input_name_shape_dict) ;;
  let (new_input, old_input) := foldl note_colon ([], []) keys in
  outputs <- iterate output_feature_names ;;
  let (new_output, old_output) := foldl note_colon ([], []) outputs in
  if decide (0 < length new_input ∨ 0 < length new_output)%nat
  then
    let input_string :=
      if decide (0 < length new_input)%nat
      then "Input: " +:+ list_str E (PyStr <$> new_input)
           +:+ " instead of " +:+ list_str E (PyStr <$> old_input) +:+ nl
      else "" in
    let output_string :=
      if decide (0 < length new_output)%nat
      then "Output: " +:+ list_str E (PyStr <$> new_output)
           +:+ " instead of " +:+ list_str E (PyStr <$> old_output)
      else "" in
    raise (ValueError (colon_message input_string output_string))
  else ok tt.

(** The arguments of [convert]. *)
Record ConvertKwargs : Type := mkConvertKwargs {
  kw_tf_model_path : string;
  kw_mlmodel_path : option string;
  kw_output_feature_names : option (list string);
  kw_input_name_shape_dict : option (list (string * list Z));
  kw_image_input_names : option (string + list string);
  kw_preprocessing : PreprocArgs;
  kw_class_labels : option ClassLabels;
  kw_predicted_feature_name : option string;
  kw_predicted_probabilities_output : string;
  kw_add_custom_layers : bool;
  kw_custom_conversion_functions : gmap string ConversionFn;
  kw_custom_shape_functions : gmap string ShapeFn;
  kw_target_ios : string
}.

(** What [convert] calls outside the module, beside the driver. *)
Record EntryExternals : Type := mkEntryExternals {
  (** [str(e)] of the [TypeError] of three arguments *)
  args_str : string -> string -> list string -> string;
  (** [coremltools.converters.tensorflow.convert], with the arguments
      in the order in which [convert] passes them *)
  coremltools_convert :
    string -> option (list (string * list Z)) -> option (list string)
    -> option (string + list string) -> PreprocArgs -> option ClassLabels
    -> option string -> string -> bool -> gmap string ConversionFn
    -> gmap string ShapeFn -> Result MLModel;
  (** [mlmodel.save(path)] *)
  MLModel_save : MLModel -> string -> Result unit
}.

Variable X : EntryExternals.

(** The arguments with which [convert] calls the driver. *)
Definition driver_args (kw : ConvertKwargs)
    (output_feature_names : list string)
    (input_name_shape_dict : list (string * list Z))
  : @ConvertArgs PreprocArgs ConversionFn :=
  {| tf_model_path := kw_tf_model_path kw;
     mlmodel_path := kw_mlmodel_path kw;
     output_feature_names := output_feature_names;
     input_name_shape_dict := list_to_map input_name_shape_dict;
     image_input_names := kw_image_input_names kw;
     preprocessing := kw_preprocessing kw;
     class_labels := kw_class_labels kw;
     predicted_feature_name := kw_predicted_feature_name kw;
     predicted_probabilities_output := kw_predicted_probabilities_output kw;
     arg_add_custom_layers := kw_add_custom_layers kw;
     arg_custom_conversion_functions := kw_custom_conversion_functions kw |}.

(** The branch of [convert] taken when n-dimensional arrays are
    supported, after the check of the names. *)
Definition convert_nd (kw : ConvertKwargs)
  : Result MLModel * list EntryEvent :=
  let r :=
    coremltools_convert X (kw_tf_model_path kw)
      (kw_input_name_shape_dict kw) (kw_output_feature_names kw)
      (kw_image_input_names kw) (kw_preprocessing kw) (kw_class_labels kw)
      (kw_predicted_feature_name kw) (kw_predicted_probabilities_output kw)
      (kw_add_custom_layers kw) (kw_custom_conversion_functions kw)
      (kw_custom_shape_functions kw) in
  match r with
  | inl e => (inl e, [mkEntryEvent call_coremltools_convert (Some e)])
  | inr mlmodel =>
      match kw_mlmodel_path kw with
      | Some path =>
          let saved := MLModel_save X mlmodel path in
          (_ <- saved ;; ok mlmodel,
           [mkEntryEvent call_coremltools_convert None;
            mkEntryEvent (call_MLModel_save path) (raised saved)])
      | None => (inr mlmodel, [mkEntryEvent call_coremltools_convert None])
      end
  end.

Definition convert (kw : ConvertKwargs) (rng : RandomState)
  : Result MLModel * list EntryEvent :=
  if negb (SupportedVersion.ios_support_check (kw_target_ios kw))
  then (raise (TypeError
                 (args_str X SupportedVersion.not_supported_template
                    (kw_target_ios kw) SupportedVersion.get_supported_ios)),
        [])
  else
    match SupportedVersion.is_nd_array_supported (args_str X)
            (kw_target_ios kw) with
    | inl e => (inl e, [])
    | inr true =>
        match check_input_output_names (kw_input_name_shape_dict kw)
                (kw_output_feature_names kw) with
        | inl e => (inl e, [])
        | inr _ => convert_nd kw
        end
    | inr false =>
        let input_name_shape_dict :=
          default [] (kw_input_name_shape_dict kw) in
        match kw_output_feature_names kw with
        | None =>
            (raise (ValueError "Output feature names must be provided."), [])
        | Some output_feature_names =>
            let (r, tr) :=
              _convert_pb_to_mlmodel E
                (driver_args kw output_feature_names input_name_shape_dict)
                rng in
            (r, driver_event <$> tr)
        end
    end.

End Entry.

(** ** Ordering the operations *)

(** [_topological_sort_ops] is imported from [_tf_graph_transform], which
    is not among the files of the driver; the driver only calls it. *)

(** [p] produces the tensor [t]. *)
Definition produces (p : Operation) (t : Tensor) : bool :=
  bool_decide (t_name t ∈ output_names_of p).

(** [o] consumes a tensor that [p] produces. *)
Definition depends_on (o p : Operation) : bool :=
  existsb (produces p) (op_inputs o).

(** No operation still pending produces an input of [o]: its count of
    unprocessed producers has come down to zero. *)
Definition ready (pending : list Operation) (o : Operation) : bool :=
  forallb (fun p => negb (depends_on o p)) pending.

(** [l] without the first occurrence of [x]. *)
Fixpoint remove_first (x : Operation) (l : list Operation) : list Operation :=
  match l with
  | [] => []
  | y :: rest => if decide (x = y) then rest else y :: remove_first x rest
  end.

(** At most [rounds] times, move the first ready operation, in the order
    of declaration, from [pending] to the end of [sorted]. *)
Fixpoint sort_rounds (rounds : nat) (pending sorted : list Operation)
  : list Operation * list Operation :=
  match rounds with
  | O => (sorted, pending)
  | S rounds =>
      match List.find (ready pending) pending with
      | Some o => sort_rounds rounds (remove_first o pending) (sorted ++ [o])
      | None => (sorted, pending)
      end
  end.

(** Modelled from the spec: [_topological_sort_ops], the function of
    [_tf_graph_transform.py] that the driver calls first. It produces a
    linear order in which the producers of the inputs of an operation
    precede it, by reduction of the count of pending producers with ties
    broken by the order of declaration, and fails with
    [CyclicGraphError] when fewer operations were output than the graph
    has. *)
Definition topological_sort_ops_model (ops : list Operation)
  : Result (list Operation) :=
  let sorted := fst (sort_rounds (length ops) ops []) in
  if decide (length sorted < length ops)%nat
  then raise CyclicGraphError
  else ok sorted.

(** The order is topological: a producer of an input of an operation
    stands at a smaller index than the operation. *)
Definition topologically_ordered (order : list Operation) : Prop :=
  forall i j o p,
    order !! i = Some o -> order !! j = Some p ->
    depends_on o p = true -> (j < i)%nat.

(** One step of dependency inside the graph, and a cycle of such steps. *)
Definition dependency (ops : list Operation) (o p : Operation) : Prop :=
  o ∈ ops ∧ p ∈ ops ∧ depends_on o p = true.

Definition has_cycle (ops : list Operation) : Prop :=
  exists o, tc (dependency ops) o o.

(** ** A small backend to run the driver on *)

(** Arrays carry their shape and one number standing for their
    contents; the generator is a counter of draws. The lowering emits
    one layer per operation, the model is its specification. *)
Module Demo.

Record Array : Type := mkArray {
  arr_shape : list Z;
  arr_value : Z
}.

Definition Spec : Type := @Model_spec string (option string).
Definition Ctx : Type := @Context_ Array string (option string) unit.
Definition Backend : Type :=
  @Externals Array Z string (option string) Spec unit unit.
Definition Args : Type := @ConvertArgs unit unit.

Definition rand (shape : list Z) (rng : Z) : Result Array * Z :=
  if forallb (fun d => (0 <=? d)%Z) shape
  then (ok {| arr_shape := shape; arr_value := rng |}, (rng + 1)%Z)
  else (raise (ValueError "negative dimensions are not allowed"), rng).

(** A session in which every tensor has its declared extents, an
    unknown extent being 1. *)
Definition static_value (t : Tensor) : Array :=
  {| arr_shape := (fun d => default 1%Z d) <$> default [] (t_shape t);
     arr_value := 0 |}.

Definition static_run (tensors : list Tensor)
    (feed : list (Tensor * @FeedValue Array)) : Result (list Array) :=
  ok (static_value <$> tensors).

Definition description (f : Feature) : FeatureDescription :=
  {| fd_name := fst f;
     fd_type := MultiArrayType (default [] (snd f));
     fd_shortDescription := "" |}.

Definition build (input_features output_features : list Feature)
    (mode : option string) : Result Spec :=
  ok {| description_input := description <$> input_features;
        description_output := description <$> output_features;
        layers := [];
        spec_rest := mode |}.

Definition layer_of (op : Operation) : @NeuralNetworkLayer string :=
  {| layer_input := t_name <$> op_inputs op;
     layer_output := t_name <$> op_outputs op;
     layer_params := op_type op |}.

Definition lower_spec (context : Ctx) (spec : Spec) : Spec :=
  {| description_input := description_input spec;
     description_output := description_output spec;
     layers :=
       layer_of <$>
         List.filter
           (fun op => negb (String.eqb (op_type op) "Placeholder")
                      && negb (String.eqb (op_type op) "Const")
                      && bool_decide (op_name op ∉ unused_ops context))
           (all_ops context);
     spec_rest := spec_rest spec |}.

Definition lower (context : Ctx) : Result Ctx :=
  ok {| builder := lower_spec context <$> builder context;
        consts := consts context;
        shape_dict := shape_dict context;
        translated := translated context;
        out_name_to_in_name := out_name_to_in_name context;
        all_ops := all_ops context;
        output_names := output_names context;
        skip_map_names := skip_map_names context;
        load_constants_mlmodel := load_constants_mlmodel context;
        blob_graph := blob_graph context;
        shape_dict_rank_4 := shape_dict_rank_4 context;
        dim_labels := dim_labels context;
        use_dfs_shape_infer := use_dfs_shape_infer context;
        session := session context;
        input_feed_dict := input_feed_dict context;
        unused_ops := unused_ops context;
        effectively_constant_ops := effectively_constant_ops context;
        skip_ops := skip_ops context;
        add_custom_layers := add_custom_layers context;
        custom_conversion_functions := custom_conversion_functions context;
        ops_converted_to_custom_layers :=
          ops_converted_to_custom_layers context |}.

(** A session in which an unknown extent depends on the value fed to
    the first placeholder, as the extent of the result of a selection
    by value does. *)
Definition first_fed_value (feed : list (Tensor * @FeedValue Array)) : Z :=
  match feed with
  | (_, feed_array a) :: _ => arr_value a
  | _ => 0%Z
  end.

Definition dynamic_value (feed : list (Tensor * @FeedValue Array))
    (t : Tensor) : Array :=
  {| arr_shape :=
       (fun d => default (1 + first_fed_value feed)%Z d)
         <$> default [] (t_shape t);
     arr_value := 0 |}.

Definition dynamic_run (tensors : list Tensor)
    (feed : list (Tensor * @FeedValue Array)) : Result (list Array) :=
  ok (dynamic_value feed <$> tensors).

Definition consumers_in (graph : list Operation) (t : Tensor)
  : list Operation :=
  List.filter (fun op => bool_decide (t ∈ op_inputs op)) graph.

(** The backend for a graph, given its prober, its session and the
    compiler of the finished model. *)
Definition backend (graph : list Operation)
    (prober : list Operation -> list string
              -> list (Tensor * @FeedValue Array)
              -> list (Tensor * @FeedValue Array)
              -> Result (list string * list string))
    (run : list Tensor -> list (Tensor * @FeedValue Array)
           -> Result (list Array))
    (compile : Spec -> Result Spec) : Backend :=
  {| load_graph := fun _ => ok graph;
     _topological_sort_ops := topological_sort_ops_model;
     _find_unused_ops := prober;
     _OP_REGISTRY := {[ "Placeholder"; "Const"; "Identity"; "Add" ]};
     np_random_rand := rand;
     nd_scale := fun k a =>
       {| arr_shape := arr_shape a; arr_value := (k * arr_value a)%Z |};
     nd_shape := arr_shape;
     session_run := run;
     consumers := consumers_in graph;
     TensorShape_str := fun _ => "<shape>";
     int_str := fun _ => "<int>";
     list_str := fun _ => "<list>";
     interpret_shape := fun _ context => ok (false, context);
     NeuralNetworkBuilder := build;
     convert_ops_to_layers := lower;
     optimize_nn_spec := fun spec => ok spec;
     os_path_isfile := fun _ => false;
     read_lines := fun _ => ok [];
     set_class_labels := fun _ _ spec => ok spec;
     set_pre_processing_parameters := fun _ _ spec => ok spec;
     save_spec := fun _ _ => ok tt;
     MLModel_of_spec := compile |}.

Definition no_findings (ops : list Operation) (outs : list string)
    (feed feed2 : list (Tensor * @FeedValue Array))
  : Result (list string * list string) :=
  ok ([], []).

Definition failing_prober (ops : list Operation) (outs : list string)
    (feed feed2 : list (Tensor * @FeedValue Array))
  : Result (list string * list string) :=
  raise (OtherError "InvalidArgumentError").

Definition compile_ok (spec : Spec) : Result Spec := ok spec.

Definition compile_fails (spec : Spec) : Result Spec :=
  raise (RuntimeError "Error compiling model").

(** The arguments of a conversion of [output_feature_names] with the
    overrides [input_name_shape_dict] and every other argument at its
    default. *)
Definition args_for (output_feature_names : list string)
    (input_name_shape_dict : gmap string (list Z)) : Args :=
  {| tf_model_path := "model.pb";
     mlmodel_path := None;
     output_feature_names := output_feature_names;
     input_name_shape_dict := input_name_shape_dict;
     image_input_names := None;
     preprocessing := tt;
     class_labels := None;
     predicted_feature_name := None;
     predicted_probabilities_output := "";
     arg_add_custom_layers := false;
     arg_custom_conversion_functions := ∅ |}.

(** A placeholder [x], an identity on it and an operation of a type
    without converter behind the identity. *)
Definition x0 (shape : TensorShape) : Tensor :=
  {| t_name := "x:0"; t_shape := shape |}.
Definition y0 (shape : TensorShape) : Tensor :=
  {| t_name := "y:0"; t_shape := shape |}.
Definition z0 (shape : TensorShape) : Tensor :=
  {| t_name := "z:0"; t_shape := shape |}.

Definition op_x (shape : TensorShape) : Operation :=
  {| op_name := "x"; op_type := "Placeholder";
     op_inputs := []; op_outputs := [x0 shape] |}.
Definition op_y (shape : TensorShape) : Operation :=
  {| op_name := "y"; op_type := "Identity";
     op_inputs := [x0 shape]; op_outputs := [y0 shape] |}.
Definition op_z (type : string) (shape : TensorShape) : Operation :=
  {| op_name := "z"; op_type := type;
     op_inputs := [y0 shape]; op_outputs := [z0 shape] |}.

Definition chain (type : string) (shape : TensorShape) : list Operation :=
  [op_z type shape; op_x shape; op_y shape].

Definition batch_of_ten : TensorShape := Some [Some 1%Z; Some 10%Z].
Definition two_of_ten : TensorShape := Some [Some 2%Z; Some 10%Z].

(** A prober that reports the given operations. *)
Definition findings (unused eff : list string)
    (ops : list Operation) (outs : list string)
    (feed feed2 : list (Tensor * @FeedValue Array))
  : Result (list string * list string) :=
  ok (unused, eff).

(** A constant, its dequantization with a shape left open, and the sum
    of the placeholder [x] with it. *)
Definition c0 : Tensor := {| t_name := "c:0"; t_shape := Some [Some 10%Z] |}.
Definition q0 : Tensor := {| t_name := "q:0"; t_shape := Some [None] |}.
Definition s0 : Tensor := {| t_name := "s:0"; t_shape := batch_of_ten |}.

Definition op_c : Operation :=
  {| op_name := "c"; op_type := "Const";
     op_inputs := []; op_outputs := [c0] |}.
Definition op_q : Operation :=
  {| op_name := "q"; op_type := "Dequantize";
     op_inputs := [c0]; op_outputs := [q0] |}.
Definition op_s : Operation :=
  {| op_name := "s"; op_type := "Add";
     op_inputs := [x0 batch_of_ten; q0]; op_outputs := [s0] |}.

Definition quantized_graph : list Operation :=
  [op_x batch_of_ten; op_c; op_q; op_s].

(** Two operations, each consuming the output of the other. *)
Definition loop_graph : list Operation :=
  [ {| op_name := "y"; op_type := "Identity";
       op_inputs := [z0 batch_of_ten]; op_outputs := [y0 batch_of_ten] |};
    {| op_name := "z"; op_type := "Identity";
       op_inputs := [y0 batch_of_ten]; op_outputs := [z0 batch_of_ten] |} ].

(** A scalar placeholder, which is fed the integer 1, and an identity
    on it. *)
Definition scalar_graph : list Operation :=
  [op_x (Some []); op_y (Some [])].

(** The placeholder [x] and an operation on it whose output has an
    extent known only when the graph runs. *)
Definition selected : Tensor := {| t_name := "y:0"; t_shape := Some [None] |}.

Definition selection_graph : list Operation :=
  [ op_x batch_of_ten;
    {| op_name := "y"; op_type := "Identity";
       op_inputs := [x0 batch_of_ten]; op_outputs := [selected] |} ].

(** Two placeholders, in the scope [a] and at the top level, whose
    names differ only by the separator, and their sum. *)
Definition scoped_input : Tensor :=
  {| t_name := "a/b:0"; t_shape := batch_of_ten |}.
Definition flat_input : Tensor :=
  {| t_name := "a__b:0"; t_shape := batch_of_ten |}.
Definition sum_output : Tensor :=
  {| t_name := "s:0"; t_shape := batch_of_ten |}.

Definition sum_graph : list Operation :=
  [ {| op_name := "a/b"; op_type := "Placeholder";
       op_inputs := []; op_outputs := [scoped_input] |};
    {| op_name := "a__b"; op_type := "Placeholder";
       op_inputs := []; op_outputs := [flat_input] |};
    {| op_name := "s"; op_type := "Add";
       op_inputs := [scoped_input; flat_input];
       op_outputs := [sum_output] |} ].

End Demo.

(** ** Shapes and constants, as the passes leave them *)

(** The outputs whose declared shape is fully defined, in the order
    in which the static pass meets them. *)
Definition static_outputs (OPS : list Operation) : list Tensor :=
  List.filter (fun out => is_fully_defined (t_shape out))
    (mjoin (op_outputs <$> OPS)).

(** The assignment of the declared shape of [out]. *)
Definition declare (d : gmap string (list Z)) (out : Tensor)
  : gmap string (list Z) :=
  <[t_name out := known_dims (default [] (t_shape out))]> d.

(** The entry of [consts_wanted] that an operation gives rise to. *)
Definition const_entry (eff : list string) (op : Operation)
  : option (string * Tensor) :=
  if is_const eff op
  then (fun c => (t_name c, c)) <$> head (op_outputs op)
  else None.

(** [i] is the first index of [name] in [names]. *)
Definition first_at (names : list string) (name : string) (i : nat) : Prop :=
  names !! i = Some name ∧ forall j, (j < i)%nat -> names !! j ≠ Some name.

(** The names of all the tensors of the graph, in order. *)
Definition tensor_names (OPS : list Operation) : list string :=
  t_name <$> mjoin (op_outputs <$> OPS).

(** ** The rounds of the sorting *)

(** What the rounds keep true: [sorted] is in topological order and
    waits for nothing that is still pending. *)
Definition closed_order (sorted pending : list Operation) : Prop :=
  topologically_ordered sorted
  ∧ forall o p, o ∈ sorted -> p ∈ pending -> depends_on o p = false.

(** A pending operation that [o] waits for, and the walk that follows
    such operations from [start]. *)
Definition next_in (pending : list Operation) (o : Operation) : Operation :=
  default o (List.find (depends_on o) pending).

Definition walk (pending : list Operation) (start : Operation) (n : nat)
  : Operation :=
  Nat.iter n (next_in pending) start.

(** ** Traces *)

(** Every call a computation made satisfies [P]. *)
Definition calls_only (P : Call -> Prop) {A} (m : M A) : Prop :=
  Forall (fun ev => P (ev_call ev)) (snd m).

(** What the caller of the conversion sees of the exception [e] raised
    by the call [c]: an instance of [RuntimeError] raised by the saving
    or the compiling of the model comes out as a [ValueError], any other
    exception as it is. *)
Definition surfaced (c : Call) (e : exn) : exn :=
  match c with
  | call_save_spec | call_MLModel =>
      match as_RuntimeError e with
      | Some msg => ValueError ("Compilation failed: " +:+ msg)
      | None => e
      end
  | _ => e
  end.

Definition compile_call (c : Call) : Prop :=
  match c with
  | call_save_spec | call_MLModel => True
  | _ => False
  end.

Definition not_probe (c : Call) : Prop := c ≠ call_find_unused_ops.

(** A call that raised, the probing apart, is the last call made, and
    the computation fails with what it raised. *)
Definition propagates {A} (m : M A) : Prop :=
  forall tr1 c e tr2,
    snd m = tr1 ++ mkEvent c (Some e) :: tr2 ->
    c ≠ call_find_unused_ops ->
    tr2 = [] ∧ fst m = inl (surfaced c e).

(** ** What the passes and the entry point are measured against *)

(** The number of elements of an array of the given shape. *)
Definition numel (shape : list Z) : Z := foldr Z.mul 1%Z shape.

(** The dimensions of one example: a shape of two dimensions or more
    without its first, the batch. *)
Definition per_example (tf_shape : list Z) : list Z :=
  if decide (length tf_shape ≤ 1)%nat then tf_shape else drop 1 tf_shape.

(** The entries that [op] adds to the consumers of [name]: one for
    each of its inputs of that name. *)
Definition feeds (name : string) (op : Operation) : list Operation :=
  (fun _ => op)
    <$> List.filter (fun inp => bool_decide (t_name inp = name)) (op_inputs op).

(** The first output of one of the placeholders among [OPS]. *)
Definition fed_by (OPS : list Operation) (t : Tensor) : Prop :=
  exists op, op ∈ OPS ∧ op_type op = "Placeholder"
             ∧ head (op_outputs op) = Some t.

(** The shape of [out] is known or asked for. *)
Definition accounted (st : Wanted) (out : Tensor) : Prop :=
  is_Some (w_SHAPE_DICT st !! t_name out)
  ∨ (t_name out, out) ∈ w_shapes_wanted st.

(** From [st] to [st'] no shape and no request is lost. *)
Definition grows (st st' : Wanted) : Prop :=
  (forall n, is_Some (w_SHAPE_DICT st !! n) -> is_Some (w_SHAPE_DICT st' !! n))
  ∧ (forall x, x ∈ w_shapes_wanted st -> x ∈ w_shapes_wanted st').

(** The feature has a shape, of one or of three dimensions. *)
Definition ranked (f : Feature) : Prop :=
  exists shape, snd f = Some shape
                ∧ (length shape = 1%nat ∨ length shape = 3%nat).

(** The calls of the last stage, for a model saved at [path]. *)
Definition saved_last (path : option string) (tr : list Event) : Prop :=
  match path with
  | None => tr = [] ∨ exists r, tr = [mkEvent call_MLModel r]
  | Some _ =>
      tr = []
      ∨ (exists e, tr = [mkEvent call_save_spec (Some e)])
      ∨ exists r, tr = [mkEvent call_save_spec None; mkEvent call_MLModel r]
  end.

(** The calls of [m] are calls made before the last stage, followed by
    those of the last stage. *)
Definition ends_compiling (path : option string) {A} (m : M A) : Prop :=
  exists tr1 tr2,
    snd m = tr1 ++ tr2
    ∧ Forall (fun ev => ¬ compile_call (ev_call ev)) tr1
    ∧ saved_last path tr2.

Section Retarget.
Context {PreprocArgs ConversionFn ShapeFn : Type}.

(** The arguments [kw] with another target and other shape functions. *)
Definition retarget (target_ios : string) (fns : gmap string ShapeFn)
    (kw : @ConvertKwargs PreprocArgs ConversionFn ShapeFn)
  : @ConvertKwargs PreprocArgs ConversionFn ShapeFn :=
  {| kw_tf_model_path := kw_tf_model_path kw;
     kw_mlmodel_path := kw_mlmodel_path kw;
     kw_output_feature_names := kw_output_feature_names kw;
     kw_input_name_shape_dict := kw_input_name_shape_dict kw;
     kw_image_input_names := kw_image_input_names kw;
     kw_preprocessing := kw_preprocessing kw;
     kw_class_labels := kw_class_labels kw;
     kw_predicted_feature_name := kw_predicted_feature_name kw;
     kw_predicted_probabilities_output :=
       kw_predicted_probabilities_output kw;
     kw_add_custom_layers := kw_add_custom_layers kw;
     kw_custom_conversion_functions := kw_custom_conversion_functions kw;
     kw_custom_shape_functions := fns;
     kw_target_ios := target_ios |}.
End Retarget.

(** ** Externals that do not look at the values fed *)

(** Two outcomes that fail alike, or succeed with results related by [R]. *)
Definition alike_outcome {A} (R : A -> A -> Prop) (r1 r2 : Result A) : Prop :=
  match r1, r2 with
  | inl e1, inl e2 => e1 = e2
  | inr a1, inr a2 => R a1 a2
  | _, _ => False
  end.

Section Blind.
Context {ndarray RandomState LayerParams SpecRest MLModel
         PreprocArgs ConversionFn : Type}.
Variable E : @Externals ndarray RandomState LayerParams SpecRest MLModel
               PreprocArgs ConversionFn.

(** Arrays that the code outside the driver does not tell apart: two
    arrays of the same extents, whatever they hold. *)
Variable alike : ndarray -> ndarray -> Prop.

(** A tensor whose value is the same whatever is fed. *)
Variable fixed : Tensor -> Prop.

Definition alike_value (v1 v2 : @FeedValue ndarray) : Prop :=
  match v1, v2 with
  | feed_int a, feed_int b => a = b
  | feed_array a, feed_array b => alike a b
  | _, _ => False
  end.

(** The same tensors are fed, in the same order, with values alike. *)
Definition alike_feeds (f1 f2 : @FeedDict ndarray) : Prop :=
  Forall2 (fun x y => fst x = fst y ∧ alike_value (snd x) (snd y)) f1 f2.

(** The context with [input_feed_dict] bound to [feed]. *)
Definition with_feeds (feed : @FeedDict ndarray)
    (c : @Context_ ndarray LayerParams SpecRest ConversionFn)
  : @Context_ ndarray LayerParams SpecRest ConversionFn :=
  {| builder := builder c;
     consts := consts c;
     shape_dict := shape_dict c;
     translated := translated c;
     out_name_to_in_name := out_name_to_in_name c;
     all_ops := all_ops c;
     output_names := output_names c;
     skip_map_names := skip_map_names c;
     load_constants_mlmodel := load_constants_mlmodel c;
     blob_graph := blob_graph c;
     shape_dict_rank_4 := shape_dict_rank_4 c;
     dim_labels := dim_labels c;
     use_dfs_shape_infer := use_dfs_shape_infer c;
     session := session c;
     input_feed_dict := Some feed;
     unused_ops := unused_ops c;
     effectively_constant_ops := effectively_constant_ops c;
     skip_ops := skip_ops c;
     add_custom_layers := add_custom_layers c;
     custom_conversion_functions := custom_conversion_functions c;
     ops_converted_to_custom_layers := ops_converted_to_custom_layers c |}.

(** What is drawn depends on the state of the generator by its
    contents only: two draws at one shape fail alike or give arrays
    alike, and multiplying keeps arrays alike. *)
Definition blind_generator : Prop :=
  (forall shape s1 s2,
     alike_outcome alike (fst (np_random_rand E shape s1))
       (fst (np_random_rand E shape s2)))
  ∧ (forall k a1 a2, alike a1 a2 -> alike (nd_scale E k a1) (nd_scale E k a2)).

(** The prober answers the same for feeds alike. *)
Definition blind_prober : Prop :=
  forall OPS outs f1 f2 g1 g2,
    alike_feeds f1 f2 -> alike_feeds g1 g2 ->
    _find_unused_ops E OPS outs f1 g1 = _find_unused_ops E OPS outs f2 g2.

(** For feeds alike the session fails alike, or returns as many
    arrays, of the same extents, and the same array for a fixed
    tensor. *)
Definition blind_session : Prop :=
  forall tensors f1 f2,
    alike_feeds f1 f2 ->
    alike_outcome
      (fun v1 v2 : list ndarray =>
         length v1 = length v2
         ∧ forall i t a1 a2,
             tensors !! i = Some t ->
             v1 !! i = Some a1 -> v2 !! i = Some a2 ->
             nd_shape E a1 = nd_shape E a2 ∧ (fixed t -> a1 = a2))
      (session_run E tensors f1) (session_run E tensors f2).

(** For feeds alike the lowering fails alike, or leaves the builder in
    the same state. *)
Definition blind_lowering : Prop :=
  forall c f1 f2,
    alike_feeds f1 f2 ->
    alike_outcome (fun c1 c2 => builder c1 = builder c2)
      (convert_ops_to_layers E (with_feeds f1 c))
      (convert_ops_to_layers E (with_feeds f2 c)).

(** The tensors that carry the name of the first output of a constant,
    or of a dequantization, are fixed. *)
Definition constants_fixed (OPS : list Operation) : Prop :=
  forall op t c t0,
    op ∈ OPS -> t ∈ op_outputs op ->
    c ∈ OPS ->
    op_type c = "Const" ∨ op_type c = "Dequantize" ->
    head (op_outputs c) = Some t0 ->
    t_name t = t_name t0 ->
    fixed t.

(** The states of two placeholder passes that differ by the values
    fed and by the generator. *)
Definition alike_state (st1 st2 : @PState ndarray RandomState) : Prop :=
  ps_SHAPE_DICT st1 = ps_SHAPE_DICT st2
  ∧ alike_feeds (ps_input_feed_dict st1) (ps_input_feed_dict st2)
  ∧ alike_feeds (ps_input_feed_dict2 st1) (ps_input_feed_dict2 st2).

(** Two analyses that differ by the values fed. *)
Definition alike_analysis (a1 a2 : @Analysis ndarray) : Prop :=
  an_OPS a1 = an_OPS a2
  ∧ an_BLOB_GRAPH a1 = an_BLOB_GRAPH a2
  ∧ alike_feeds (an_input_feed_dict a1) (an_input_feed_dict a2)
  ∧ an_unused_ops a1 = an_unused_ops a2
  ∧ an_effectively_constant_ops a1 = an_effectively_constant_ops a2
  ∧ an_SHAPE_DICT a1 = an_SHAPE_DICT a2
  ∧ an_CONSTS a1 = an_CONSTS a2
  ∧ an_output_features a1 = an_output_features a2.

End Blind.

(** The wanted tensors are tensors of the graph, under their names. *)
Definition of_graph (OPS : list Operation) (wanted : list (string * Tensor))
  : Prop :=
  forall n t, (n, t) ∈ wanted ->
    n = t_name t ∧ exists op, op ∈ OPS ∧ t ∈ op_outputs op.

(** Two computations that make the same calls, with the same
    failures, and come to outcomes alike. *)
Definition alike_run {A} (R : A -> A -> Prop) (m1 m2 : M A) : Prop :=
  snd m1 = snd m2 ∧ alike_outcome R (fst m1) (fst m2).

Section Commit.
Context {ndarray RandomState LayerParams SpecRest MLModel
         PreprocArgs ConversionFn : Type}.
Variable E : @Externals ndarray RandomState LayerParams SpecRest MLModel
               PreprocArgs ConversionFn.

(** The state of the placeholder pass once the placeholder [out0] has
    been given [shape] and is fed [v1] and [v2]. *)
Definition fed_with (st : @PState ndarray RandomState) (out0 : Tensor)
    (shape : list Z) (v1 v2 : @FeedValue ndarray) (rng' : RandomState)
  : @PState ndarray RandomState :=
  {| ps_SHAPE_DICT := <[t_name out0 := shape]> (ps_SHAPE_DICT st);
     ps_input_feed_dict := dict_set out0 v1 (ps_input_feed_dict st);
     ps_input_feed_dict2 := dict_set out0 v2 (ps_input_feed_dict2 st);
     ps_rng := rng' |}.

(** [r] is what the pass makes of [st] at the placeholder [out0] once
    its shape is settled as [shape]: a scalar is fed the integer 1
    twice and nothing is drawn; any other shape is fed two arrays drawn
    one after the other at that shape, the second multiplied by 255,
    and a draw that raises ends the pass. *)
Definition commits (st : @PState ndarray RandomState) (out0 : Tensor)
    (shape : list Z) (r : Result (@PState ndarray RandomState)) : Prop :=
  match shape with
  | [] => r = inr (fed_with st out0 [] (feed_int 1) (feed_int 1) (ps_rng st))
  | _ :: _ =>
      match np_random_rand E shape (ps_rng st) with
      | (inl e, _) => r = inl e
      | (inr a1, rng1) =>
          match np_random_rand E shape rng1 with
          | (inl e, _) => r = inl e
          | (inr a2, rng2) =>
              r = inr (fed_with st out0 shape (feed_array a1)
                         (feed_array (nd_scale E 255 a2)) rng2)
          end
      end
  end.

End Commit.

(** ** An entry point to run, and a few more graphs *)

Module DemoEntry.

Definition Kwargs : Type := @ConvertKwargs unit unit unit.

Definition entry : @EntryExternals Demo.Spec unit unit unit :=
  {| args_str := fun _ _ _ => "<arguments>";
     coremltools_convert := fun _ _ outputs _ _ _ _ _ _ _ _ =>
       ok {| description_input := [];
             description_output :=
               (fun name => Demo.description (name, None))
                 <$> default [] outputs;
             layers := [];
             spec_rest := None |};
     MLModel_save := fun _ _ => ok tt |}.

Definition kwargs_for (output_feature_names : option (list string))
    (input_name_shape_dict : option (list (string * list Z)))
    (target_ios : string) : Kwargs :=
  {| kw_tf_model_path := "model.pb";
     kw_mlmodel_path := None;
     kw_output_feature_names := output_feature_names;
     kw_input_name_shape_dict := input_name_shape_dict;
     kw_image_input_names := None;
     kw_preprocessing := tt;
     kw_class_labels := None;
     kw_predicted_feature_name := None;
     kw_predicted_probabilities_output := "";
     kw_add_custom_layers := false;
     kw_custom_conversion_functions := ∅;
     kw_custom_shape_functions := ∅;
     kw_target_ios := target_ios |}.

End DemoEntry.

Module Cases.

(** A graph that decodes its input from an image file. *)
Definition jpeg_graph : list Operation :=
  [ {| op_name := "contents"; op_type := "Placeholder";
       op_inputs := []; op_outputs := [Demo.x0 (Some [])] |};
    {| op_name := "decode"; op_type := "DecodeJpeg";
       op_inputs := [Demo.x0 (Some [])];
       op_outputs := [Demo.y0 None] |} ].

(** A placeholder that nothing consumes, beside a constant. *)
Definition idle_graph : list Operation :=
  [Demo.op_x Demo.batch_of_ten; Demo.op_c].

(** The arguments of a conversion of a classifier. *)
Definition classifier_args (output_feature_names : list string)
    (classes_in : ClassLabels) : Demo.Args :=
  {| tf_model_path := "model.pb";
     mlmodel_path := None;
     output_feature_names := output_feature_names;
     input_name_shape_dict := ∅;
     image_input_names := None;
     preprocessing := tt;
     class_labels := Some classes_in;
     predicted_feature_name := None;
     predicted_probabilities_output := "";
     arg_add_custom_layers := false;
     arg_custom_conversion_functions := ∅ |}.

Definition sorted_chain : list Operation :=
  [Demo.op_x Demo.batch_of_ten; Demo.op_y Demo.batch_of_ten;
   Demo.op_z "Identity" Demo.batch_of_ten].

Definition chain_backend : Demo.Backend :=
  Demo.backend (Demo.chain "Identity" Demo.batch_of_ten)
    Demo.no_findings Demo.static_run Demo.compile_ok.

(** Two placeholders, the first without a known dimension. *)
Definition two_inputs : list Operation :=
  [ {| op_name := "w"; op_type := "Placeholder"; op_inputs := [];
       op_outputs := [ {| t_name := "w:0";
                          t_shape := Some [None; None] |} ] |};
    Demo.op_x Demo.batch_of_ten ].

(** A compiler that is not available on the platform. *)
Definition compile_unavailable (spec : Demo.Spec) : Result Demo.Spec :=
  raise (NotImplementedError "Model prediction is only supported on macOS").

End Cases.

(** * Properties *)

(** ** Strings *)

Lemma string_app_cons c (s t : string) :
  String c s +:+ t = String c (s +:+ t).
Proof. reflexivity. Qed.

Lemma string_app_assoc (a b c : string) :
  (a +:+ b) +:+ c = a +:+ (b +:+ c).
Proof.
  induction a as [|x a IH]; [done|].
  by rewrite !string_app_cons, IH.
Qed.

Lemma str_replace_app old new s1 s2 :
  str_replace old new (s1 +:+ s2)
  = str_replace old new s1 +:+ str_replace old new s2.
Proof.
  induction s1 as [|c s1 IH]; [done|].
  rewrite string_app_cons. simpl.
  destruct (Ascii.eqb c old); rewrite IH; [|done].
  by rewrite string_app_assoc.
Qed.

Lemma contains_char_app c s1 s2 :
  contains_char c (s1 +:+ s2)
  = (contains_char c s1 || contains_char c s2)%bool.
Proof.
  induction s1 as [|x s1 IH]; [done|].
  rewrite string_app_cons. simpl. rewrite IH. by rewrite orb_assoc.
Qed.

Lemma occurs_in_self_prefix (name rest : string) :
  occurs_in name (name +:+ rest).
Proof. by exists EmptyString, rest. Qed.

Lemma occurs_in_after (pre name rest : string) :
  occurs_in name (pre +:+ name +:+ rest).
Proof. by exists pre, rest. Qed.

(** ** Names of the interface blobs *)

Lemma canonical_name_cons c s :
  canonical_name (String c s) = canonical_char c +:+ canonical_name s.
Proof.
  unfold canonical_name, canonical_char. simpl.
  destruct (Ascii.eqb c ":") eqn:Hc; simpl; [reflexivity|].
  destruct (Ascii.eqb c "/"); done.
Qed.

Lemma canonical_name_no_separator s :
  contains_char ":" (canonical_name s) = false
  ∧ contains_char "/" (canonical_name s) = false.
Proof.
  induction s as [|c s [IH1 IH2]]; [done|].
  rewrite canonical_name_cons, !contains_char_app, IH1, IH2, !orb_false_r.
  unfold canonical_char.
  destruct (Ascii.eqb c ":") eqn:H1; [done|].
  destruct (Ascii.eqb c "/") eqn:H2; [done|]. simpl.
  by rewrite H1, H2.
Qed.

Lemma canonical_name_id s :
  contains_char ":" s = false -> contains_char "/" s = false ->
  canonical_name s = s.
Proof.
  induction s as [|c s IH]; [done|]. simpl.
  intros [H1 H1']%orb_false_elim [H2 H2']%orb_false_elim.
  rewrite canonical_name_cons, IH by done.
  unfold canonical_char. by rewrite H1, H2.
Qed.

(** C5, as the driver has it. The rewriting maps every character of a
    name on its own, the two separators to a double underscore and any
    other character to itself, so the rewritten name holds no separator;
    every input and every output of the description is renamed by it,
    position by position, and every input or output reference of a layer
    that equals an interface name (as it was before the renaming) is
    replaced by the same rewritten string, any other reference being
    kept. The driver has no check for two names that are rewritten to
    the same string. *)
Theorem canonicalize_names_consistent {LayerParams SpecRest : Type}
    (spec : @Model_spec LayerParams SpecRest) :
  let spec' := canonicalize_names spec in
  let names := interface_blob_names_of spec in
  fd_name <$> description_input spec'
    = canonical_name <$> (fd_name <$> description_input spec)
  ∧ fd_name <$> description_output spec'
    = canonical_name <$> (fd_name <$> description_output spec)
  ∧ length (layers spec') = length (layers spec)
  ∧ (∀ i l l',
       layers spec !! i = Some l -> layers spec' !! i = Some l' ->
       length (layer_input l') = length (layer_input l)
       ∧ length (layer_output l') = length (layer_output l)
       ∧ ∀ j name,
           (layer_input l !! j = Some name ->
            layer_input l' !! j
            = Some (if bool_decide (name ∈ names)
                    then canonical_name name else name))
           ∧ (layer_output l !! j = Some name ->
              layer_output l' !! j
              = Some (if bool_decide (name ∈ names)
                      then canonical_name name else name)))
  ∧ (∀ name,
       contains_char ":" (canonical_name name) = false
       ∧ contains_char "/" (canonical_name name) = false)
  ∧ canonical_name EmptyString = EmptyString
  ∧ (∀ c rest,
       canonical_name (String c rest)
       = canonical_char c +:+ canonical_name rest).
Proof.
  simpl. repeat split.
  - rewrite <- !list_fmap_compose. by apply list_fmap_ext.
  - rewrite <- !list_fmap_compose. by apply list_fmap_ext.
  - by rewrite length_fmap.
  - rewrite list_lookup_fmap, H in H0. simplify_eq/=. by rewrite length_fmap.
  - rewrite list_lookup_fmap, H in H0. simplify_eq/=. by rewrite length_fmap.
  - intros Hj. rewrite list_lookup_fmap, H in H0. simplify_eq/=.
    by rewrite list_lookup_fmap, Hj.
  - intros Hj. rewrite list_lookup_fmap, H in H0. simplify_eq/=.
    by rewrite list_lookup_fmap, Hj.
  - apply canonical_name_no_separator.
  - apply canonical_name_no_separator.
  - apply canonical_name_cons.
Qed.

(** C5 as claimed fails: the tensors of the operations [a/b] and
    [a__b] have distinct names, the conversion of a graph with both as
    inputs succeeds, and the two inputs of the model it returns have one
    and the same name. *)
Lemma canonical_names_collide :
  t_name Demo.scoped_input ≠ t_name Demo.flat_input
  ∧ canonical_name (t_name Demo.scoped_input)
    = canonical_name (t_name Demo.flat_input)
  ∧ exists model,
      fst (_convert_pb_to_mlmodel
             (Demo.backend Demo.sum_graph Demo.no_findings Demo.static_run
                Demo.compile_ok)
             (Demo.args_for ["s:0"] ∅) 0%Z) = inr model
      ∧ fd_name <$> description_input model = ["a__b__0"; "a__b__0"].
Proof.
  split; [done|]. split; [reflexivity|].
  eexists. split; [vm_compute; reflexivity | reflexivity].
Qed.

(** ** The unsupported-operation check *)

Section Scan.
Variable registry : gset string.
Variables outs skip : list string.

Lemma mark_outputs_spec op enc x :
  x ∈ mark_outputs op enc ↔ x ∈ enc ∨ ∃ t, t ∈ op_outputs op ∧ t_name t = x.
Proof.
  unfold mark_outputs. revert enc.
  induction (op_outputs op) as [|t l IH]; intros enc; simpl.
  - split; [auto|]. intros [?|(t & Ht & _)]; [done|]. by apply elem_of_nil in Ht.
  - rewrite IH. rewrite elem_of_union, elem_of_singleton. split.
    + intros [[->|?]|(t' & ? & ?)]; [right; exists t; split; [left|done] | by left |].
      right. exists t'. split; [by right | done].
    + intros [?|(t' & [->|?]%elem_of_cons & ?)]; [left; by right | left; by left |].
      right. by exists t'.
Qed.

Lemma fold_mark_spec ops enc x :
  x ∈ foldl (fun enc op => mark_outputs op enc) enc ops
  ↔ x ∈ enc ∨ ∃ op t, op ∈ ops ∧ t ∈ op_outputs op ∧ t_name t = x.
Proof.
  revert enc. induction ops as [|op ops IH]; intros enc; simpl.
  - split; [auto|]. intros [?|(op & t & Hop & _)]; [done|]. by apply elem_of_nil in Hop.
  - rewrite IH, mark_outputs_spec. split.
    + intros [[?|(t & ? & ?)]|(op' & t & ? & ? & ?)]; [by left| |].
      * right. exists op, t. split; [left|done].
      * right. exists op', t. split; [by right|done].
    + intros [?|(op' & t & [->|?]%elem_of_cons & ? & ?)]; [left; by left| |].
      * left. right. by exists t.
      * right. by exists op', t.
Qed.

Lemma all_outputs_reached_covers ops :
  all_outputs_reached outs (foldl (fun enc op => mark_outputs op enc) ∅ ops) = true
  ↔ covers outs ops.
Proof.
  unfold all_outputs_reached, covers. rewrite forallb_forall.
  split.
  - intros H out Hout. specialize (H out). rewrite <- list_elem_of_In in H.
    apply H in Hout. apply bool_decide_eq_true in Hout.
    apply fold_mark_spec in Hout as [Hout|Hout]; [set_solver | done].
  - intros H out Hout%list_elem_of_In. apply bool_decide_eq_true.
    apply fold_mark_spec. right. by apply H.
Qed.

Lemma scan_ops_prefix ops u enc :
  ∃ k, (k ≤ length ops)%nat
    ∧ (∀ j, (j < k)%nat →
         all_outputs_reached outs
           (foldl (fun enc op => mark_outputs op enc) enc (take j ops)) = false)
    ∧ ((k < length ops)%nat →
         all_outputs_reached outs
           (foldl (fun enc op => mark_outputs op enc) enc (take k ops)) = true)
    ∧ scan_ops registry outs skip ops u enc
      = foldl (note_unsupported registry skip) u (take k ops).
Proof.
  revert u enc. induction ops as [|op ops IH]; intros u enc.
  - exists 0%nat. simpl. repeat split; [lia | lia | lia].
  - simpl. destruct (all_outputs_reached outs enc) eqn:Hall.
    + exists 0%nat. simpl. repeat split; [lia | lia | done].
    + destruct (IH (note_unsupported registry skip u op) (mark_outputs op enc))
        as (k & Hk & Hlt & Hreach & Hscan).
      exists (S k). simpl. repeat split.
      * lia.
      * intros [|j] Hj; [done|]. simpl. apply Hlt. lia.
      * intros Hk'. apply Hreach. lia.
      * done.
Qed.

Lemma note_unsupported_spec u op type :
  type ∈ note_unsupported registry skip u op
  ↔ type ∈ u ∨ (op_type op = type ∧ (type ∉ registry) ∧ (op_name op ∉ skip)).
Proof.
  unfold note_unsupported.
  repeat case_bool_decide; simpl;
    rewrite ?elem_of_app, ?list_elem_of_singleton;
    try match goal with H : ¬ (_ ∉ _) |- _ => apply dec_stable in H end;
    split; intros; destruct_or?; destruct_and?; subst; auto; try done.
Qed.

Lemma note_unsupported_NoDup u op :
  NoDup u → NoDup (note_unsupported registry skip u op).
Proof.
  intros Hu. unfold note_unsupported. case_match; [|done].
  apply andb_prop in H as [[_ H2]%andb_prop _].
  apply bool_decide_eq_true in H2.
  apply NoDup_app. split; [done|]. split; [|apply NoDup_singleton].
  intros x Hx Hx'%list_elem_of_singleton. by subst.
Qed.

Lemma fold_note_unsupported_spec ops u :
  NoDup u →
  NoDup (foldl (note_unsupported registry skip) u ops)
  ∧ ∀ type, type ∈ foldl (note_unsupported registry skip) u ops
      ↔ type ∈ u ∨ ∃ op, op ∈ ops ∧ op_type op = type
                          ∧ (type ∉ registry) ∧ (op_name op ∉ skip).
Proof.
  revert u. induction ops as [|op ops IH]; intros u Hu; simpl.
  - split; [done|]. intros type. split; [auto|].
    intros [?|(op & Hop & _)]; [done|]. by apply elem_of_nil in Hop.
  - destruct (IH _ (note_unsupported_NoDup u op Hu)) as [Hnd Hmem].
    split; [done|]. intros type.
    rewrite Hmem, note_unsupported_spec. setoid_rewrite elem_of_cons.
    naive_solver.
Qed.
End Scan.


(** ** The driver's monad and its traces *)

Lemma mbind_inr {A B} (m : M A) (k : A -> M B) a tr :
  m = (inr a, tr) -> mbind m k = (fst (k a), tr ++ snd (k a)).
Proof. by intros ->. Qed.

Lemma mbind_inl {A B} (m : M A) (k : A -> M B) e tr :
  m = (inl e, tr) -> mbind m k = (inl e, tr).
Proof. by intros ->. Qed.

Lemma mbind_lift_inr {A B} (a : A) (k : A -> M B) :
  mbind (lift (inr a)) k = k a.
Proof. unfold lift, mbind. simpl. by destruct (k a). Qed.

Lemma mbind_lift_inl {A B} (e : exn) (k : A -> M B) :
  mbind (lift (inl e)) k = (inl e, []).
Proof. done. Qed.

Lemma calls_only_mret P {A} (a : A) : calls_only P (mret a).
Proof. by apply Forall_nil. Qed.

Lemma calls_only_lift P {A} (r : Result A) : calls_only P (lift r).
Proof. by apply Forall_nil. Qed.

Lemma calls_only_call (P : Call -> Prop) {A} c (r : Result A) :
  P c -> calls_only P (call c r).
Proof. intros Hc. by apply Forall_singleton. Qed.

Lemma calls_only_mbind P {A B} (m : M A) (k : A -> M B) :
  calls_only P m -> (forall a, calls_only P (k a)) ->
  calls_only P (mbind m k).
Proof.
  unfold calls_only. destruct m as [[e|a] tr]; simpl; [done|].
  intros Hm Hk. apply Forall_app. split; [done | apply Hk].
Qed.

Lemma calls_only_except_all P {A} (m : M A) dflt :
  calls_only P m -> calls_only P (except_all m dflt).
Proof. by destruct m as [[e|a] tr]. Qed.

Lemma calls_only_except_RuntimeError P {A} (m : M A) handler :
  calls_only P m -> calls_only P (except_RuntimeError m handler).
Proof. destruct m as [[e|a] tr]; [by destruct e | done]. Qed.

Lemma calls_only_mfor_each P {S A} (body : S -> A -> M S) xs st :
  (forall st x, calls_only P (body st x)) ->
  calls_only P (mfor_each body xs st).
Proof.
  intros Hbody. revert st. induction xs as [|x xs IH]; intros st; simpl.
  - apply calls_only_mret.
  - apply calls_only_mbind; [apply Hbody | intros; apply IH].
Qed.

Ltac calls_only_step :=
  first
    [ apply calls_only_mret
    | apply calls_only_lift
    | apply calls_only_call; first [exact I | discriminate]
    | apply calls_only_except_all
    | apply calls_only_except_RuntimeError
    | apply calls_only_mbind; [|intros ?]
    | apply calls_only_mfor_each; intros ? ?
    | match goal with
      | |- calls_only _ (let (_, _) := ?x in _) => destruct x
      | |- calls_only _ (if ?b then _ else _) => destruct b
      | |- calls_only _ (match ?x with _ => _ end) => destruct x
      end ].

Section Traces.
Context {ndarray RandomState LayerParams SpecRest MLModel
         PreprocArgs ConversionFn : Type}.
Abbreviation Ext := (@Externals ndarray RandomState LayerParams SpecRest MLModel
                  PreprocArgs ConversionFn).
Variable E : Ext.

Lemma analyse_calls args rng : calls_only analysis_call (analyse E args rng).
Proof.
  unfold analyse, analyse_sorted, analyse_fed, analyse_probed, load_and_sort,
    probe, populate_shape_dict, run_and_commit.
  repeat calls_only_step.
Qed.


Lemma convert_after_analysis args rng a tr :
  analyse E args rng = (inr a, tr) ->
  _convert_pb_to_mlmodel E args rng
  = (fst (after_analysis E args a), tr ++ snd (after_analysis E args a)).
Proof. intros Ha. unfold _convert_pb_to_mlmodel. by rewrite Ha. Qed.

(** C1, as the driver has it. With custom layers not permitted, and
    once the analysis and the check of the output names have passed,
    the driver examines the sorted operations in order up to the first
    position [k] at which every requested output has been produced
    (all of them when there is none) and no further; [blockers] are the
    distinct types, absent from the registry, of the examined operations
    whose name is not skipped. When there is one, the conversion fails
    with a single [NotImplementedError] that names them all, and the
    calls made up to then are those of the analysis: the lowering has
    not begun. When there is none, the check passes. *)
Theorem unsupported_check_scans_until_outputs args rng a tr :
  analyse E args rng = (inr a, tr) ->
  check_output_names (an_output_features a) (output_feature_names args)
    = inr tt ->
  arg_add_custom_layers args = false ->
  let ops := an_OPS a in
  let outs := output_feature_names args in
  let skip := an_effectively_constant_ops a ++ an_unused_ops a in
  Forall (fun ev => analysis_call (ev_call ev)) tr
  ∧ ∃ k blockers,
      (k ≤ length ops)%nat
      ∧ (∀ j, (j < k)%nat -> ¬ covers outs (take j ops))
      ∧ ((k < length ops)%nat -> covers outs (take k ops))
      ∧ NoDup blockers
      ∧ (∀ type, type ∈ blockers
           ↔ ∃ op, op ∈ take k ops ∧ op_type op = type
                   ∧ (type ∉ _OP_REGISTRY E) ∧ (op_name op ∉ skip))
      ∧ (blockers ≠ [] ->
           _convert_pb_to_mlmodel E args rng
           = (inl (NotImplementedError
                     ("Unsupported Ops of type: " +:+ str_join "," blockers)),
              tr))
      ∧ (blockers = [] -> unsupported_check E args a = inr tt).
Proof.
  intros Ha Hnames Hflag ops outs skip. split.
  { pose proof (analyse_calls args rng) as H. unfold calls_only in H.
    by rewrite Ha in H. }
  destruct (scan_ops_prefix (_OP_REGISTRY E) outs skip ops [] ∅)
    as (k & Hk & Hlt & Hreach & Hscan).
  destruct (fold_note_unsupported_spec (_OP_REGISTRY E) skip (take k ops) [])
    as [Hnd Hmem]; [constructor|].
  set (blockers := foldl (note_unsupported (_OP_REGISTRY E) skip) []
                     (take k ops)) in *.
  exists k, blockers.
  assert (Hcheck : unsupported_check E args a
    = if decide (0 < length blockers)%nat
      then inl (NotImplementedError
                  ("Unsupported Ops of type: " +:+ str_join "," blockers))
      else inr tt).
  { unfold unsupported_check, _check_unsupported_ops. rewrite Hflag.
    fold ops outs skip. by rewrite Hscan. }
  repeat split.
  - done.
  - intros j Hj Hc. apply all_outputs_reached_covers in Hc.
    by rewrite (Hlt j Hj) in Hc.
  - intros Hk'. apply all_outputs_reached_covers. by apply Hreach.
  - done.
  - intros Ht. apply Hmem in Ht as [Ht|Ht]; [by apply elem_of_nil in Ht | done].
  - intros Ht. apply Hmem. by right.
  - intros Hne. rewrite (convert_after_analysis _ _ _ _ Ha).
    unfold after_analysis. rewrite Hnames, Hcheck.
    destruct blockers; [done|]. simpl. by rewrite app_nil_r.
  - intros Hb. by rewrite Hcheck, Hb.
Qed.


End Traces.

(** C1 at a graph: the chain [x], [y], [z] with [z] of a type without
    converter and [z:0] requested. *)
Lemma unsupported_check_scans_until_outputs_witness :
  let E := Demo.backend (Demo.chain "Weird" Demo.batch_of_ten)
             Demo.failing_prober Demo.static_run Demo.compile_ok in
  let args := Demo.args_for ["z:0"] ∅ in
  exists a tr,
    analyse E args 0%Z = (inr a, tr)
    ∧ check_output_names (an_output_features a) (output_feature_names args)
      = inr tt
    ∧ arg_add_custom_layers args = false
    ∧ Forall (fun ev => analysis_call (ev_call ev)) tr
    ∧ ∃ k blockers,
        (k ≤ length (an_OPS a))%nat
        ∧ (∀ j, (j < k)%nat ->
             ¬ covers (output_feature_names args) (take j (an_OPS a)))
        ∧ ((k < length (an_OPS a))%nat ->
             covers (output_feature_names args) (take k (an_OPS a)))
        ∧ NoDup blockers
        ∧ (∀ type, type ∈ blockers
             ↔ ∃ op, op ∈ take k (an_OPS a) ∧ op_type op = type
                     ∧ (type ∉ _OP_REGISTRY E)
                     ∧ (op_name op
                          ∉ an_effectively_constant_ops a ++ an_unused_ops a))
        ∧ (blockers ≠ [] ->
             _convert_pb_to_mlmodel E args 0%Z
             = (inl (NotImplementedError
                       ("Unsupported Ops of type: " +:+ str_join "," blockers)),
                tr))
        ∧ (blockers = [] -> unsupported_check E args a = inr tt).
Proof.
  intros E args. eexists _, _.
  split; [vm_compute; reflexivity|].
  split; [vm_compute; reflexivity|].
  split; [reflexivity|].
  apply (unsupported_check_scans_until_outputs E args 0%Z);
    [vm_compute; reflexivity | vm_compute; reflexivity | reflexivity].
Defined.

(** C1 as claimed fails: custom layers are not permitted, the operation
    [z] is of a type absent from the registry and its name is not in the
    skip set (the probing raised, so the set is empty), and the
    conversion that requests [y:0] succeeds, because the scan stopped at
    [y]. *)
Lemma unsupported_operation_after_outputs_passes :
  let E := Demo.backend (Demo.chain "Weird" Demo.batch_of_ten)
             Demo.failing_prober Demo.static_run Demo.compile_ok in
  let args := Demo.args_for ["y:0"] ∅ in
  let z := Demo.op_z "Weird" Demo.batch_of_ten in
  arg_add_custom_layers args = false
  ∧ (exists a tr,
       analyse E args 0%Z = (inr a, tr)
       ∧ z ∈ an_OPS a
       ∧ (op_name z ∉ an_effectively_constant_ops a ++ an_unused_ops a)
       ∧ (op_type z ∉ _OP_REGISTRY E))
  ∧ exists model, fst (_convert_pb_to_mlmodel E args 0%Z) = inr model.
Proof.
  intros E args z. split; [reflexivity|]. split.
  - eexists _, _. split; [vm_compute; reflexivity|].
    split; [|split].
    + apply list_elem_of_In. vm_compute. tauto.
    + simpl. apply not_elem_of_nil.
    + apply (bool_decide_unpack _). by vm_compute.
  - eexists. vm_compute. reflexivity.
Qed.

(** ** Results and loops *)

Lemma bind_inr_inv {A B} (m : Result A) (k : A -> Result B) b :
  bind m k = inr b -> exists a, m = inr a ∧ k a = inr b.
Proof. destruct m as [e|a]; simpl; [done | eauto]. Qed.

Lemma for_each_app {S A} (body : S -> A -> Result S) xs ys st :
  for_each body (xs ++ ys) st
  = bind (for_each body xs st) (for_each body ys).
Proof.
  revert st. induction xs as [|x xs IH]; intros st; simpl; [done|].
  destruct (body st x) as [e|st']; simpl; [done | apply IH].
Qed.

Lemma for_each_invariant {S A} (P : S -> Prop) (body : S -> A -> Result S)
    xs st st' :
  (forall st x st', P st -> body st x = inr st' -> P st') ->
  P st -> for_each body xs st = inr st' -> P st'.
Proof.
  intros Hbody. revert st. induction xs as [|x xs IH]; intros st Hst; simpl.
  - by intros [= <-].
  - intros (st1 & H1 & H2)%bind_inr_inv. eauto.
Qed.

(** ** The shape dictionary and the constant table *)

Section Shapes.
Context {ndarray RandomState LayerParams SpecRest MLModel
         PreprocArgs ConversionFn : Type}.
Variable E : @Externals ndarray RandomState LayerParams SpecRest MLModel
               PreprocArgs ConversionFn.

Lemma commit_step_keeps_shape names cnames vals sd cs i sd' cs' name shape :
  commit_step E names cnames vals (sd, cs) i = inr (sd', cs') ->
  sd !! name = Some shape -> sd' !! name = Some shape.
Proof.
  unfold commit_step, ok. intros H Hname.
  apply bind_inr_inv in H as (n & _ & H).
  apply bind_inr_inv in H as (sd1 & Hsd & H).
  apply bind_inr_inv in H as (cs1 & _ & H). simplify_eq.
  destruct (sd !! n) eqn:Hn; [by simplify_eq|].
  apply bind_inr_inv in Hsd as (v & _ & Hsd). simplify_eq.
  rewrite lookup_insert_ne; [done|]. intros ->. congruence.
Qed.

Lemma run_and_commit_keeps_shape w feed sd cs tr name shape :
  run_and_commit E w feed = (inr (sd, cs), tr) ->
  w_SHAPE_DICT w !! name = Some shape -> sd !! name = Some shape.
Proof.
  unfold run_and_commit. intros H Hname. case_decide as Hw.
  - destruct (session_run E _ feed) as [e|vals]; [done|].
    unfold call, mbind, lift in H. simpl in H. injection H as H _.
    revert H. apply (for_each_invariant (fun st => fst st !! name = Some shape) _ _ _ (sd, cs)); [|done].
    intros [sd1 cs1] i [sd2 cs2] Hst Hstep. simpl in *.
    by eapply commit_step_keeps_shape.
  - unfold mret in H. by simplify_eq.
Qed.

Lemma fold_note_output_dict outs st :
  w_SHAPE_DICT (foldl note_output st outs)
  = foldl declare (w_SHAPE_DICT st)
      (List.filter (fun out => is_fully_defined (t_shape out)) outs).
Proof.
  revert st. induction outs as [|out outs IH]; intros st; simpl; [done|].
  rewrite IH. unfold note_output.
  destruct (is_fully_defined (t_shape out)); done.
Qed.

Lemma collect_step_dict eff st op st' :
  collect_step eff st op = inr st' ->
  w_SHAPE_DICT st'
  = foldl declare (w_SHAPE_DICT st)
      (List.filter (fun out => is_fully_defined (t_shape out)) (op_outputs op)).
Proof.
  unfold collect_step, ok. intros H. rewrite <- fold_note_output_dict.
  destruct (is_const eff op); [|by simplify_eq].
  apply bind_inr_inv in H as (c & _ & H). by simplify_eq.
Qed.

Lemma for_each_collect_dict eff OPS st w :
  for_each (collect_step eff) OPS st = inr w ->
  w_SHAPE_DICT w = foldl declare (w_SHAPE_DICT st) (static_outputs OPS).
Proof.
  unfold static_outputs. revert st.
  induction OPS as [|op OPS IH]; intros st; simpl.
  - by intros [= <-].
  - intros (st1 & H1 & H2)%bind_inr_inv.
    rewrite (IH _ H2), (collect_step_dict _ _ _ _ H1).
    by rewrite List.filter_app, foldl_app.
Qed.

Lemma collect_wanted_dict eff OPS sd w :
  collect_wanted eff OPS sd = inr w ->
  w_SHAPE_DICT w = foldl declare sd (static_outputs OPS).
Proof. apply for_each_collect_dict. Qed.

Lemma fold_declare_other outs sd name :
  (forall out, out ∈ outs -> t_name out ≠ name) ->
  foldl declare sd outs !! name = sd !! name.
Proof.
  revert sd. induction outs as [|out outs IH]; intros sd Hn; simpl; [done|].
  rewrite IH.
  - unfold declare. apply lookup_insert_ne. apply Hn. by left.
  - intros o Ho. apply Hn. by right.
Qed.

Lemma fold_declare_last l1 out l2 sd :
  (forall o, o ∈ l2 -> t_name o ≠ t_name out) ->
  foldl declare sd (l1 ++ out :: l2) !! t_name out
  = Some (known_dims (default [] (t_shape out))).
Proof.
  intros Hl2. rewrite foldl_app. simpl.
  rewrite fold_declare_other by done.
  unfold declare at 1. by rewrite lookup_insert_eq.
Qed.

Lemma static_outputs_elem OPS out :
  out ∈ static_outputs OPS
  ↔ is_fully_defined (t_shape out) = true
    ∧ ∃ op, op ∈ OPS ∧ out ∈ op_outputs op.
Proof.
  unfold static_outputs.
  rewrite list_elem_of_In, List.filter_In, <- list_elem_of_In.
  rewrite list_elem_of_join. setoid_rewrite list_elem_of_fmap.
  naive_solver.
Qed.

Lemma filter_split_last {A} (f : A -> bool) l1 x l2 :
  f x = true ->
  List.filter f (l1 ++ x :: l2) = List.filter f l1 ++ x :: List.filter f l2.
Proof. intros Hx. rewrite List.filter_app. simpl. by rewrite Hx. Qed.

(** C6, as the driver has it. The batched-execution pass inserts a
    shape only for a name that is not yet in the dictionary, so it keeps
    every shape committed before it. The static-metadata pass assigns
    without looking: it leaves alone the names of which no output has a
    fully defined declared shape, and under any other name it leaves the
    declared shape of the last such output, whatever the placeholder pass
    had committed there. The placeholder pass assigns the shape it
    resolved without looking either. *)
Theorem shape_dict_commits :
  (forall w feed sd cs tr name shape,
     run_and_commit E w feed = (inr (sd, cs), tr) ->
     w_SHAPE_DICT w !! name = Some shape -> sd !! name = Some shape)
  ∧ (forall eff OPS sd w,
       collect_wanted eff OPS sd = inr w ->
       (forall name,
          (forall op out, op ∈ OPS -> out ∈ op_outputs op -> t_name out = name ->
             is_fully_defined (t_shape out) = false) ->
          w_SHAPE_DICT w !! name = sd !! name)
       ∧ (forall l1 out l2,
            mjoin (op_outputs <$> OPS) = l1 ++ out :: l2 ->
            is_fully_defined (t_shape out) = true ->
            (forall o, o ∈ l2 -> t_name o = t_name out ->
               is_fully_defined (t_shape o) = false) ->
            w_SHAPE_DICT w !! t_name out
            = Some (known_dims (default [] (t_shape out)))))
  ∧ (forall outs dict st op st',
       placeholder_step E outs dict st op = inr st' ->
       op_type op = "Placeholder" ->
       exists out0 shape,
         op_outputs op !! 0%nat = Some out0
         ∧ placeholder_shape E dict (t_name out0) (t_shape out0) = inr shape
         ∧ ps_SHAPE_DICT st' = <[t_name out0 := shape]> (ps_SHAPE_DICT st)).
Proof.
  split; [|split].
  - intros. by eapply run_and_commit_keeps_shape.
  - intros eff OPS sd w Hw. rewrite (collect_wanted_dict _ _ _ _ Hw). split.
    + intros name Hname. apply fold_declare_other.
      intros out [Hfd (op & Hop & Hout)]%static_outputs_elem Hn.
      by rewrite (Hname op out Hop Hout Hn) in Hfd.
    + intros l1 out l2 Hsplit Hfd Hl2. unfold static_outputs.
      rewrite Hsplit, filter_split_last by done.
      apply fold_declare_last.
      intros o [Ho Hfo]%list_elem_of_In%List.filter_In Hn.
      apply list_elem_of_In in Ho. by rewrite (Hl2 o Ho Hn) in Hfo.
  - intros outs dict st op st' Hstep Htype.
    unfold placeholder_step in Hstep. rewrite Htype in Hstep. simpl in Hstep.
    destruct (any_requested _ _); [done|].
    apply bind_inr_inv in Hstep as (out0 & Hout0 & Hstep).
    apply bind_inr_inv in Hstep as (shape & Hshape & Hstep).
    unfold placeholder_commit in Hstep.
    apply bind_inr_inv in Hstep as ([[v1 v2] rng'] & Hfeeds & Hstep).
    exists out0, shape. unfold index in Hout0.
    destruct (op_outputs op !! 0%nat); [|done]. unfold ok in *.
    by simplify_eq.
Qed.

Lemma fold_note_output_consts outs st :
  w_consts_wanted (foldl note_output st outs) = w_consts_wanted st.
Proof.
  revert st. induction outs as [|out outs IH]; intros st; simpl; [done|].
  rewrite IH. unfold note_output. by destruct (is_fully_defined _).
Qed.

Lemma collect_step_consts eff st op st' :
  collect_step eff st op = inr st' ->
  w_consts_wanted st'
  = w_consts_wanted st ++ option_list (const_entry eff op).
Proof.
  unfold collect_step, const_entry, ok, index. intros H.
  destruct (is_const eff op).
  - rewrite <- head_lookup in H. destruct (head (op_outputs op)); [|done].
    simpl in H. simplify_eq. simpl. by rewrite fold_note_output_consts.
  - simplify_eq. by rewrite fold_note_output_consts, app_nil_r.
Qed.

Lemma for_each_collect_consts eff OPS st w :
  for_each (collect_step eff) OPS st = inr w ->
  w_consts_wanted w = w_consts_wanted st ++ omap (const_entry eff) OPS.
Proof.
  revert st. induction OPS as [|op OPS IH]; intros st; simpl.
  - intros [= <-]. by rewrite app_nil_r.
  - intros (st1 & H1 & H2)%bind_inr_inv.
    rewrite (IH _ H2), (collect_step_consts _ _ _ _ H1), <- app_assoc.
    f_equal. by destruct (const_entry eff op).
Qed.

Lemma first_at_exists names name :
  name ∈ names -> exists i, first_at names name i.
Proof.
  intros (l1 & l2 & -> & Hl1)%list_elem_of_split_l.
  exists (length l1). split.
  - by rewrite list_lookup_middle.
  - intros j Hj Hlk. rewrite lookup_app_l in Hlk by done.
    apply Hl1. by eapply list_elem_of_lookup_2.
Qed.

Lemma commit_loop names cn vals k sd0 sd cs :
  for_each (commit_step E names cn vals) (seq 0 k) (sd0, ∅) = inr (sd, cs) ->
  (forall name i, name ∈ cn -> first_at names name i -> (i < k)%nat ->
     exists v, vals !! i = Some v ∧ cs !! name = Some v)
  ∧ (forall name v, cs !! name = Some v ->
       name ∈ cn ∧ exists i, (i < k)%nat ∧ names !! i = Some name).
Proof.
  revert sd cs. induction k as [|k IH]; intros sd cs.
  - simpl. intros [= <- <-]. split; [intros; lia|].
    intros name v Hv. by rewrite lookup_empty in Hv.
  - rewrite seq_S, for_each_app. simpl.
    intros ([sd1 cs1] & Hk & Hstep)%bind_inr_inv.
    destruct (IH _ _ Hk) as [IH1 IH2]. clear IH.
    apply bind_inr_inv in Hstep as (st' & Hstep & Hok).
    unfold ok in Hok. simplify_eq.
    unfold commit_step, index, ok in Hstep.
    destruct (names !! k) as [name_k|] eqn:Hname_k; [|done]. simpl in Hstep.
    apply bind_inr_inv in Hstep as (sd2 & _ & Hstep).
    apply bind_inr_inv in Hstep as (cs2 & Hcs & Hstep). simplify_eq.
    destruct (bool_decide (name_k ∈ cn)) eqn:Hcn; simpl in Hcs.
    + apply bool_decide_eq_true in Hcn.
      destruct (bool_decide (cs1 !! name_k = None)) eqn:Hnone; simpl in Hcs.
      * apply bool_decide_eq_true in Hnone.
        destruct (vals !! k) as [v_k|] eqn:Hv_k; [|done]. simpl in Hcs.
        simplify_eq. split.
        -- intros name i Hin Hfirst Hi.
           destruct (decide (i = k)) as [->|Hne].
           ++ destruct Hfirst as [Hfirst _].
              assert (name = name_k) as -> by congruence.
              exists v_k. by rewrite lookup_insert_eq.
           ++ destruct (IH1 name i Hin Hfirst) as (v & Hv & Hcs1); [lia|].
              exists v. split; [done|].
              rewrite lookup_insert_ne; [done|]. intros ->. congruence.
        -- intros name v Hv.
           destruct (decide (name_k = name)) as [->|Hne].
           ++ split; [done|]. exists k. split; [lia|done].
           ++ rewrite lookup_insert_ne in Hv by done.
              destruct (IH2 _ _ Hv) as (? & i & ? & ?).
              split; [done|]. exists i. split; [lia|done].
      * apply bool_decide_eq_false in Hnone. simplify_eq. split.
        -- intros name i Hin Hfirst Hi.
           destruct (decide (i = k)) as [->|Hne]; [|apply IH1; [done..|lia]].
           destruct (Hfirst) as [Hfirst1 Hfirst2].
           assert (name = name_k) as -> by congruence.
           destruct (cs !! name_k) as [v|] eqn:Hv; [|done].
           destruct (IH2 _ _ Hv) as (_ & j & Hj & Hnj).
           by destruct (Hfirst2 j Hj).
        -- intros name v Hv. destruct (IH2 _ _ Hv) as (? & i & ? & ?).
           split; [done|]. exists i. split; [lia|done].
    + apply bool_decide_eq_false in Hcn. simplify_eq. split.
      * intros name i Hin Hfirst Hi.
        destruct (decide (i = k)) as [->|Hne]; [|apply IH1; [done..|lia]].
        destruct Hfirst as [Hfirst _].
        assert (name = name_k) as -> by congruence. done.
      * intros name v Hv. destruct (IH2 _ _ Hv) as (? & i & ? & ?).
        split; [done|]. exists i. split; [lia|done].
Qed.

Lemma const_entry_elem eff (OPS : list Operation) name c :
  (name, c) ∈ omap (const_entry eff) OPS
  ↔ exists op, op ∈ OPS ∧ is_const eff op = true
               ∧ head (op_outputs op) = Some c ∧ name = t_name c.
Proof.
  rewrite list_elem_of_omap. unfold const_entry. split.
  - intros (op & Hop & H). exists op. destruct (is_const eff op); [|done].
    destruct (head (op_outputs op)); [|done]. simpl in H. by simplify_eq.
  - intros (op & Hop & Hc & Hhead & ->). exists op. by rewrite Hc, Hhead.
Qed.

Lemma is_const_spec eff op :
  is_const eff op = true
  ↔ op_type op = "Const"
    ∨ (op_type op = "Dequantize" ∧ op_name op ∈ eff).
Proof.
  unfold is_const.
  rewrite orb_true_iff, andb_true_iff, !String.eqb_eq, bool_decide_eq_true.
  done.
Qed.

(** C4, as the driver has it. When the shape-and-constant stage
    succeeds there is at most one run of the session, none when nothing
    is wanted and otherwise exactly one, fetching every wanted shape and
    every wanted constant together. Every operation of type [Const], and
    every operation of type [Dequantize] that the prober marked
    effectively constant, has the value of its first output stored in
    the constant table under the name of that output: the value the run
    returned at the first position of that name. Nothing else is stored:
    an effectively constant operation of another type owns no entry. *)
Theorem constants_captured_in_one_run eff OPS sd0 feed sd cs tr :
  populate_shape_dict E eff OPS sd0 feed = (inr (sd, cs), tr) ->
  exists w,
    collect_wanted eff OPS sd0 = inr w
    ∧ let wanted := w_shapes_wanted w ++ w_consts_wanted w in
      let names := fst <$> wanted in
      (wanted = [] -> tr = [] ∧ cs = ∅)
      ∧ (wanted ≠ [] ->
         exists values,
           session_run E (snd <$> wanted) feed = inr values
           ∧ tr = [mkEvent (call_session_run (snd <$> wanted)) None]
           ∧ (forall op const rest,
                op ∈ OPS ->
                op_type op = "Const"
                ∨ (op_type op = "Dequantize" ∧ op_name op ∈ eff) ->
                op_outputs op = const :: rest ->
                (t_name const, const) ∈ w_consts_wanted w
                ∧ exists i v,
                    names !! i = Some (t_name const)
                    ∧ (forall j, (j < i)%nat ->
                         names !! j ≠ Some (t_name const))
                    ∧ values !! i = Some v
                    ∧ cs !! t_name const = Some v)
           ∧ (forall name v,
                cs !! name = Some v ->
                exists op const,
                  op ∈ OPS
                  ∧ (op_type op = "Const"
                     ∨ (op_type op = "Dequantize" ∧ op_name op ∈ eff))
                  ∧ head (op_outputs op) = Some const
                  ∧ t_name const = name)).
Proof.
  unfold populate_shape_dict. intros H.
  destruct (collect_wanted eff OPS sd0) as [e|w] eqn:Hw; [done|].
  rewrite mbind_lift_inr in H. exists w. split; [done|].
  pose proof (for_each_collect_consts _ _ _ _ Hw) as Hconsts.
  simpl in Hconsts.
  unfold run_and_commit in H. simpl. split.
  - intros Hnil. apply app_eq_nil in Hnil as [H1 H2].
    rewrite H1, H2 in H. simpl in H.
    unfold mret in H. by simplify_eq.
  - intros Hne. case_decide as Hlen.
    2:{ exfalso. apply Hlen.
        destruct (w_shapes_wanted w); [|simpl; lia].
        destruct (w_consts_wanted w); [done | simpl; lia]. }
    destruct (session_run E _ feed) as [e|values] eqn:Hrun; [done|].
    unfold call, mbind, lift in H. simpl in H.
    injection H as H <-. exists values. split; [done|]. split; [done|].
    rewrite length_fmap in H.
    rewrite <- (length_fmap fst) in H.
    destruct (commit_loop _ _ _ _ _ _ _ H) as [Hcap Honly]. split.
    + intros op const rest Hop Hkind Hout.
      assert (Hentry : (t_name const, const) ∈ w_consts_wanted w).
      { rewrite Hconsts. apply const_entry_elem. exists op.
        rewrite is_const_spec, Hout. done. }
      split; [done|].
      assert (Hcn : t_name const ∈ fst <$> w_consts_wanted w).
      { apply list_elem_of_fmap. by exists (t_name const, const). }
      destruct (first_at_exists
                  (fst <$> w_shapes_wanted w ++ w_consts_wanted w)
                  (t_name const)) as (i & Hi).
      { rewrite fmap_app. apply elem_of_app. by right. }
      destruct (Hcap _ i Hcn Hi) as (v & Hv & Hcs).
      { destruct Hi as [Hi _]. by apply lookup_lt_Some in Hi. }
      exists i, v. by destruct Hi.
    + intros name v Hv. destruct (Honly _ _ Hv) as [Hcn _].
      apply list_elem_of_fmap in Hcn as ([n c] & -> & Hin).
      rewrite Hconsts in Hin. apply const_entry_elem in Hin
        as (op & Hop & Hc & Hhead & ->).
      exists op, c. by rewrite <- is_const_spec.
Qed.
End Shapes.

(** C6 as claimed fails: the placeholder pass commits the override
    [[1; 10]] for [x:0], and the static-metadata pass that follows
    replaces it by the declared [[2; 10]]. *)
Lemma committed_shape_is_overwritten :
  let E := Demo.backend [Demo.op_x Demo.two_of_ten; Demo.op_y Demo.two_of_ten]
             Demo.no_findings Demo.static_run Demo.compile_ok in
  let OPS := [Demo.op_x Demo.two_of_ten; Demo.op_y Demo.two_of_ten] in
  exists ps w,
    placeholder_pass E ["y:0"] {[ "x:0" := [1; 10]%Z ]} OPS
      (placeholder_start 0%Z) = inr ps
    ∧ ps_SHAPE_DICT ps !! "x:0" = Some [1; 10]%Z
    ∧ collect_wanted [] OPS (ps_SHAPE_DICT ps) = inr w
    ∧ w_SHAPE_DICT w !! "x:0" = Some [2; 10]%Z.
Proof.
  intros E OPS. eexists _, _.
  split; [vm_compute; reflexivity|].
  split; [vm_compute; reflexivity|].
  split; [vm_compute; reflexivity|].
  vm_compute; reflexivity.
Qed.

(** C4 at a graph: a constant [c], its dequantization [q] marked
    effectively constant, and their use in a sum. *)
Lemma constants_captured_in_one_run_witness :
  let E := Demo.backend Demo.quantized_graph (Demo.findings [] ["q"])
             Demo.static_run Demo.compile_ok in
  let eff := ["q"] in
  let OPS := Demo.quantized_graph in
  exists sd cs tr,
    populate_shape_dict E eff OPS ∅ [] = (inr (sd, cs), tr)
    ∧ exists w,
        collect_wanted eff OPS ∅ = inr w
        ∧ let wanted := w_shapes_wanted w ++ w_consts_wanted w in
          let names := fst <$> wanted in
          (wanted = [] -> tr = [] ∧ cs = ∅)
          ∧ (wanted ≠ [] ->
             exists values,
               session_run E (snd <$> wanted) [] = inr values
               ∧ tr = [mkEvent (call_session_run (snd <$> wanted)) None]
               ∧ (forall op const rest,
                    op ∈ OPS ->
                    op_type op = "Const"
                    ∨ (op_type op = "Dequantize" ∧ op_name op ∈ eff) ->
                    op_outputs op = const :: rest ->
                    (t_name const, const) ∈ w_consts_wanted w
                    ∧ exists i v,
                        names !! i = Some (t_name const)
                        ∧ (forall j, (j < i)%nat ->
                             names !! j ≠ Some (t_name const))
                        ∧ values !! i = Some v
                        ∧ cs !! t_name const = Some v)
               ∧ (forall name v,
                    cs !! name = Some v ->
                    exists op const,
                      op ∈ OPS
                      ∧ (op_type op = "Const"
                         ∨ (op_type op = "Dequantize" ∧ op_name op ∈ eff))
                      ∧ head (op_outputs op) = Some const
                      ∧ t_name const = name)).
Proof.
  intros E eff OPS. eexists _, _, _.
  split; [vm_compute; reflexivity|].
  eapply (constants_captured_in_one_run E eff OPS ∅ []).
  vm_compute; reflexivity.
Defined.

(** C4 as claimed fails: the prober marks the sum [s] effectively
    constant, the analysis succeeds, and the constant table holds
    nothing for its output. *)
Lemma effectively_constant_sum_is_not_captured :
  let E := Demo.backend Demo.quantized_graph (Demo.findings [] ["q"; "s"])
             Demo.static_run Demo.compile_ok in
  exists a tr,
    analyse E (Demo.args_for ["s:0"] ∅) 0%Z = (inr a, tr)
    ∧ Demo.op_s ∈ an_OPS a
    ∧ op_name Demo.op_s ∈ an_effectively_constant_ops a
    ∧ an_CONSTS a !! "s:0" = None
    ∧ is_Some (an_CONSTS a !! "q:0").
Proof.
  intros E. eexists _, _.
  split; [vm_compute; reflexivity|].
  split; [apply list_elem_of_In; vm_compute; tauto|].
  split; [apply list_elem_of_In; vm_compute; tauto|].
  split; [vm_compute; reflexivity|].
  eexists. vm_compute. reflexivity.
Qed.

(** ** The placeholder pass *)

Lemma any_requested_true ons outs x :
  x ∈ outs -> x ∈ ons -> x ≠ EmptyString -> any_requested ons outs = true.
Proof.
  intros Hout Hon Hne. unfold any_requested. apply existsb_exists.
  exists x. split.
  - apply List.filter_In. split; [by apply list_elem_of_In|].
    by apply bool_decide_eq_true.
  - apply negb_true_iff. by apply String.eqb_neq.
Qed.

Lemma for_each_middle {S A} (body : S -> A -> Result S) pre x post st0 st :
  for_each body pre st0 = inr st ->
  for_each body (pre ++ x :: post) st0
  = bind (body st x) (for_each body post).
Proof. intros Hpre. by rewrite for_each_app, Hpre. Qed.

Lemma for_each_fails {S A} (body : S -> A -> Result S) xs x st0 :
  x ∈ xs -> (forall st, exists e, body st x = inl e) ->
  exists e, for_each body xs st0 = inl e.
Proof.
  intros (pre & post & ->)%list_elem_of_split Hx.
  rewrite for_each_app.
  destruct (for_each body pre st0) as [e|st]; [by exists e|]. simpl.
  destruct (Hx st) as (e & ->). by exists e.
Qed.

Section Placeholders.
Context {ndarray RandomState LayerParams SpecRest MLModel
         PreprocArgs ConversionFn : Type}.
Variable E : @Externals ndarray RandomState LayerParams SpecRest MLModel
               PreprocArgs ConversionFn.

Lemma load_and_sort_calls path : calls_only ordering_call (load_and_sort E path).
Proof. unfold load_and_sort. repeat calls_only_step. Qed.

Lemma convert_placeholder_failure args rng OPS tr e :
  load_and_sort E (tf_model_path args) = (inr OPS, tr) ->
  placeholder_pass E (output_feature_names args) (input_name_shape_dict args)
    OPS (placeholder_start rng) = inl e ->
  _convert_pb_to_mlmodel E args rng = (inl e, tr).
Proof.
  intros Hsort Hpass.
  unfold _convert_pb_to_mlmodel, analyse.
  rewrite Hsort. cbn [mbind]. unfold analyse_sorted.
  rewrite Hpass. cbn. by rewrite app_nil_r.
Qed.

Lemma placeholder_step_refuses outs dict st op name :
  op_type op = "Placeholder" ->
  name ∈ output_names_of op -> name ∈ outs -> name ≠ EmptyString ->
  placeholder_step E outs dict st op
  = inl (AssertionError "Output feature cannot be a placeholder").
Proof.
  intros Htype Hon Hout Hne. unfold placeholder_step.
  by rewrite Htype, (any_requested_true _ _ name).
Qed.

(** C9, as the driver has it. Let the graph load and sort, and let a
    [Placeholder] have an output, of a name that is not empty, among the
    requested output names. Then the calls made are those of the loading
    and the sorting only, and the conversion fails there, in the
    placeholder pass: nothing of the probing, the shape inference or the
    lowering runs. The failure is the assertion error when the pass
    reaches that placeholder; when the pass fails on an operation before
    it, the conversion fails with that earlier failure instead. *)
Theorem placeholder_output_is_refused args rng OPS tr op name :
  load_and_sort E (tf_model_path args) = (inr OPS, tr) ->
  op ∈ OPS ->
  op_type op = "Placeholder" ->
  name ∈ output_names_of op ->
  name ∈ output_feature_names args ->
  name ≠ EmptyString ->
  Forall (fun ev => ordering_call (ev_call ev)) tr
  ∧ (exists e, _convert_pb_to_mlmodel E args rng = (inl e, tr))
  ∧ (forall pre post,
       OPS = pre ++ op :: post ->
       match placeholder_pass E (output_feature_names args)
               (input_name_shape_dict args) pre (placeholder_start rng) with
       | inr _ =>
           _convert_pb_to_mlmodel E args rng
           = (inl (AssertionError "Output feature cannot be a placeholder"),
              tr)
       | inl e => _convert_pb_to_mlmodel E args rng = (inl e, tr)
       end).
Proof.
  intros Hsort Hop Htype Hon Hout Hne. split; [|split].
  - pose proof (load_and_sort_calls (tf_model_path args)) as H.
    unfold calls_only in H. by rewrite Hsort in H.
  - destruct (for_each_fails
                (placeholder_step E (output_feature_names args)
                   (input_name_shape_dict args))
                OPS op (placeholder_start rng) Hop) as (e & He).
    { intros st. eexists. by eapply placeholder_step_refuses. }
    exists e. by apply (convert_placeholder_failure _ _ OPS).
  - intros pre post ->.
    destruct (placeholder_pass _ _ _ pre _) as [e|st] eqn:Hpre.
    + apply (convert_placeholder_failure _ _ (pre ++ op :: post)); [done|].
      unfold placeholder_pass in *. by rewrite for_each_app, Hpre.
    + apply (convert_placeholder_failure _ _ (pre ++ op :: post)); [done|].
      unfold placeholder_pass in *.
      rewrite (for_each_middle _ _ _ _ _ _ Hpre).
      by rewrite (placeholder_step_refuses _ _ _ _ name).
Qed.

Lemma placeholder_shape_override dict name shape override :
  dict !! name = Some override ->
  placeholder_shape E dict name shape = inr override.
Proof. intros H. unfold placeholder_shape. by rewrite H. Qed.

Lemma placeholder_shape_batch dict name dims :
  dict !! name = None -> None ∉ dims ->
  is_fully_defined (Some (None :: dims)) = false ->
  placeholder_shape E dict name (Some (None :: dims))
  = inr (1%Z :: known_dims dims).
Proof.
  intros Hd Hdims Hfd. unfold placeholder_shape. rewrite Hd, Hfd. simpl.
  by rewrite bool_decide_eq_true_2 by done.
Qed.

Lemma placeholder_shape_unknown dict name shape :
  dict !! name = None ->
  is_fully_defined shape = false ->
  (forall dims, shape = Some (None :: dims) -> None ∈ dims) ->
  exists msg,
    occurs_in name msg
    ∧ placeholder_shape E dict name shape = inl (ValueError msg).
Proof.
  intros Hd Hfd Hnot. unfold placeholder_shape. rewrite Hd, Hfd.
  destruct shape as [[|d0 dims]|].
  - done.
  - simpl. exists (incomplete_shape_message E name (Some (d0 :: dims))).
    split; [apply occurs_in_self_prefix|].
    destruct d0 as [d|].
    + by rewrite bool_decide_eq_false_2 by done.
    + rewrite (bool_decide_eq_false_2 (None ∉ dims)); [by rewrite andb_false_r|].
      intros Hn. apply Hn. by apply Hnot.
  - exists (provide_shape_message name). split; [|done].
    apply occurs_in_after.
Qed.

Lemma placeholder_step_resolved outs dict st op out0 rest shape :
  op_type op = "Placeholder" ->
  op_outputs op = out0 :: rest ->
  any_requested (output_names_of op) outs = false ->
  placeholder_shape E dict (t_name out0) (t_shape out0) = inr shape ->
  placeholder_step E outs dict st op = placeholder_commit E st out0 shape.
Proof.
  intros Htype Hout Hany Hshape. unfold placeholder_step.
  rewrite Htype, Hany, Hout. simpl. by rewrite Hshape.
Qed.

Lemma placeholder_commit_outcome st out0 shape :
  (exists st',
     placeholder_commit E st out0 shape = inr st'
     ∧ ps_SHAPE_DICT st' = <[t_name out0 := shape]> (ps_SHAPE_DICT st))
  ∨ (exists e,
       placeholder_commit E st out0 shape = inl e
       ∧ draw_feeds E shape (ps_rng st) = inl e).
Proof.
  unfold placeholder_commit.
  destruct (draw_feeds E shape (ps_rng st)) as [e|[[v1 v2] rng']]; simpl.
  - right. by exists e.
  - left. by eexists.
Qed.

Lemma all_known (dims : list (option Z)) :
  None ∉ dims -> dims = Some <$> known_dims dims.
Proof.
  induction dims as [|[d|] dims IH]; intros Hn; [done| |].
  - unfold known_dims in *. cbn. f_equal. apply IH.
    intros H. apply Hn. by right.
  - exfalso. apply Hn. by left.
Qed.

Lemma known_dims_known (ds : list Z) :
  known_dims (Some <$> ds) = ds ∧ None ∉ (Some <$> ds : list (option Z)).
Proof.
  induction ds as [|d ds [IH1 IH2]]; [split; [done|by apply not_elem_of_nil]|].
  split.
  - unfold known_dims in *. cbn. by rewrite IH1.
  - rewrite fmap_cons. by intros [?|?]%elem_of_cons.
Qed.

Lemma placeholder_commit_commits st out0 shape :
  commits E st out0 shape (placeholder_commit E st out0 shape).
Proof.
  unfold commits, placeholder_commit, draw_feeds.
  destruct shape as [|d shape]; [done|]. simpl.
  destruct (np_random_rand E (d :: shape) (ps_rng st)) as [[e1|a1] rng1];
    [done|]. simpl.
  by destruct (np_random_rand E (d :: shape) rng1) as [[e2|a2] rng2].
Qed.

(** C2, as the driver has it. Let the placeholder pass reach a
    placeholder (the graph loads and sorts, the pass succeeds on the
    operations before it, and its outputs are not requested), and let
    [reached] be the outcome of the pass at that placeholder. With no
    override under its name and a declared shape that is not fully
    defined: when only the leading dimension is unknown, the placeholder
    is committed with 1 in its place, followed by the known extents;
    otherwise the pass, and the conversion with it, fails with a
    [ValueError] whose message names the input. With an override under
    its name the placeholder is committed with the override, whatever
    its declared shape. Committing a shape stores it in the dictionary
    and feeds the placeholder, by the integer 1 for a scalar and by two
    arrays drawn at that shape otherwise, a draw that raises ending the
    pass; the pass then goes on with the operations behind the
    placeholder, and a failure at the placeholder is the failure of the
    conversion, no call having been made since the sorting. *)
Theorem placeholder_shape_resolution args rng OPS tr pre op post st out0 rest :
  load_and_sort E (tf_model_path args) = (inr OPS, tr) ->
  OPS = pre ++ op :: post ->
  placeholder_pass E (output_feature_names args) (input_name_shape_dict args)
    pre (placeholder_start rng) = inr st ->
  op_type op = "Placeholder" ->
  op_outputs op = out0 :: rest ->
  any_requested (output_names_of op) (output_feature_names args) = false ->
  let name := t_name out0 in
  let reached :=
    placeholder_pass E (output_feature_names args)
      (input_name_shape_dict args) (pre ++ [op]) (placeholder_start rng) in
  (input_name_shape_dict args !! name = None ->
   is_fully_defined (t_shape out0) = false ->
   (forall ds,
      t_shape out0 = Some (None :: (Some <$> ds)) ->
      commits E st out0 (1%Z :: ds) reached)
   ∧ ((forall ds, t_shape out0 ≠ Some (None :: (Some <$> ds))) ->
      exists msg,
        occurs_in name msg
        ∧ reached = inl (ValueError msg)
        ∧ _convert_pb_to_mlmodel E args rng = (inl (ValueError msg), tr)))
  ∧ (forall shape,
       input_name_shape_dict args !! name = Some shape ->
       commits E st out0 shape reached)
  ∧ (forall overrides st1 shape,
       overrides !! name = Some shape ->
       commits E st1 out0 shape
         (placeholder_step E (output_feature_names args) overrides st1 op))
  ∧ placeholder_pass E (output_feature_names args)
      (input_name_shape_dict args) OPS (placeholder_start rng)
    = (st' <- reached ;;
       placeholder_pass E (output_feature_names args)
         (input_name_shape_dict args) post st')
  ∧ (forall e,
       reached = inl e -> _convert_pb_to_mlmodel E args rng = (inl e, tr)).
Proof.
  intros Hsort -> Hpre Htype Hout Hany name reached.
  assert (Hreached : reached
                     = placeholder_step E (output_feature_names args)
                         (input_name_shape_dict args) st op).
  { unfold reached, placeholder_pass.
    rewrite (for_each_middle _ _ _ _ _ _ Hpre). simpl.
    by destruct (placeholder_step _ _ _ _ _). }
  assert (Hwhole : placeholder_pass E (output_feature_names args)
                     (input_name_shape_dict args) (pre ++ op :: post)
                     (placeholder_start rng)
                   = (st' <- reached ;;
                      placeholder_pass E (output_feature_names args)
                        (input_name_shape_dict args) post st')).
  { rewrite Hreached. unfold placeholder_pass.
    by rewrite (for_each_middle _ _ _ _ _ _ Hpre). }
  assert (Hfail : forall e,
            reached = inl e -> _convert_pb_to_mlmodel E args rng = (inl e, tr)).
  { intros e He.
    apply (convert_placeholder_failure _ _ (pre ++ op :: post)); [done|].
    by rewrite Hwhole, He. }
  split; [|split; [|split; [|split]]]; try done.
  - intros Hd Hfd. split.
    + intros ds Hshape. rewrite Hreached.
      destruct (known_dims_known ds) as [Hk Hn].
      rewrite (placeholder_step_resolved _ _ _ _ out0 rest
                 (1%Z :: ds)); try done.
      * apply placeholder_commit_commits.
      * rewrite Hshape.
        pose proof (placeholder_shape_batch (input_name_shape_dict args) name
                      (Some <$> ds) Hd Hn) as Hb.
        rewrite Hk in Hb. apply Hb. by rewrite <- Hshape.
    + intros Hnot.
      destruct (placeholder_shape_unknown (input_name_shape_dict args) name
                  (t_shape out0) Hd Hfd) as (msg & Hocc & Hmsg).
      { intros dims Hshape. destruct (decide (None ∈ dims)) as [|Hn]; [done|].
        exfalso. apply (Hnot (known_dims dims)).
        by rewrite Hshape, <- all_known. }
      exists msg. split; [done|].
      assert (Hr : reached = inl (ValueError msg)).
      { rewrite Hreached. unfold placeholder_step.
        rewrite Htype, Hany, Hout. simpl. fold name. by rewrite Hmsg. }
      split; [done|by apply Hfail].
  - intros shape Hov. rewrite Hreached.
    rewrite (placeholder_step_resolved _ _ _ _ out0 rest shape); try done.
    + apply placeholder_commit_commits.
    + by apply placeholder_shape_override.
  - intros overrides st1 shape Hov.
    rewrite (placeholder_step_resolved _ _ _ _ out0 rest shape); try done.
    + apply placeholder_commit_commits.
    + by apply placeholder_shape_override.
Qed.
End Placeholders.

(** C9 at a graph: the chain [x], [y], [z] with the placeholder's own
    output [x:0] requested. *)
Lemma placeholder_output_is_refused_witness :
  let E := Demo.backend (Demo.chain "Identity" Demo.batch_of_ten)
             Demo.no_findings Demo.static_run Demo.compile_ok in
  let args := Demo.args_for ["x:0"] ∅ in
  let op := Demo.op_x Demo.batch_of_ten in
  exists OPS tr,
    load_and_sort E (tf_model_path args) = (inr OPS, tr)
    ∧ op ∈ OPS
    ∧ Forall (fun ev => ordering_call (ev_call ev)) tr
    ∧ (exists e, _convert_pb_to_mlmodel E args 0%Z = (inl e, tr))
    ∧ (forall pre post,
         OPS = pre ++ op :: post ->
         match placeholder_pass E (output_feature_names args)
                 (input_name_shape_dict args) pre (placeholder_start 0%Z) with
         | inr _ =>
             _convert_pb_to_mlmodel E args 0%Z
             = (inl (AssertionError "Output feature cannot be a placeholder"),
                tr)
         | inl e => _convert_pb_to_mlmodel E args 0%Z = (inl e, tr)
         end).
Proof.
  intros E args op. eexists _, _.
  split; [vm_compute; reflexivity|].
  assert (Hop : op ∈ [op; Demo.op_y Demo.batch_of_ten;
                      Demo.op_z "Identity" Demo.batch_of_ten]) by left.
  split; [exact Hop|].
  apply (placeholder_output_is_refused E args 0%Z _ _ op "x:0");
    [vm_compute; reflexivity | exact Hop | reflexivity | by left | by left
    | done].
Defined.

(** C9 as claimed fails: the placeholder [x] is a requested output,
    and the conversion fails with the [ValueError] for the placeholder
    [w] before it, whose shape is not known, not with the assertion
    error. *)
Lemma unresolved_placeholder_fails_first :
  let E := Demo.backend Cases.two_inputs Demo.no_findings Demo.static_run
             Demo.compile_ok in
  let run := _convert_pb_to_mlmodel E (Demo.args_for ["x:0"] ∅) 0%Z in
  let op := Demo.op_x Demo.batch_of_ten in
  op ∈ Cases.two_inputs
  ∧ op_type op = "Placeholder"
  ∧ "x:0" ∈ output_names_of op
  ∧ (exists msg, fst run = inl (ValueError msg) ∧ occurs_in "w:0" msg)
  ∧ fst run ≠ inl (AssertionError "Output feature cannot be a placeholder").
Proof.
  intros E run op. split; [by right; left|]. split; [reflexivity|].
  split; [by left|]. split.
  - eexists. split; [vm_compute; reflexivity|].
    eexists EmptyString, _. reflexivity.
  - vm_compute. discriminate.
Qed.

(** C2 at two graphs, the chain [x], [y], [z] with [z:0] requested.
    With the placeholder declared as [(None, 10)] the pass commits the
    shape [[1; 10]] and feeds two arrays of that shape; with the
    placeholder declared as [(None, None)] the conversion fails with the
    error that names [x:0]. *)
Lemma placeholder_shape_resolution_witness :
  let batch := Some [None; Some 10%Z] in
  let open := Some [None; None] in
  let E := Demo.backend (Demo.chain "Identity" batch)
             Demo.no_findings Demo.static_run Demo.compile_ok in
  let E' := Demo.backend (Demo.chain "Identity" open)
              Demo.no_findings Demo.static_run Demo.compile_ok in
  let args := Demo.args_for ["z:0"] ∅ in
  let st := placeholder_start 0%Z in
  commits E st (Demo.x0 batch) [1; 10]%Z
    (placeholder_pass E (output_feature_names args)
       (input_name_shape_dict args) ([] ++ [Demo.op_x batch]) st)
  ∧ placeholder_pass E (output_feature_names args)
      (input_name_shape_dict args) ([] ++ [Demo.op_x batch]) st
    = inr (fed_with st (Demo.x0 batch) [1; 10]%Z
             (feed_array {| Demo.arr_shape := [1; 10]%Z;
                            Demo.arr_value := 0 |})
             (feed_array {| Demo.arr_shape := [1; 10]%Z;
                            Demo.arr_value := 255 |})
             2%Z)
  ∧ exists msg tr,
      occurs_in "x:0" msg
      ∧ _convert_pb_to_mlmodel E' args 0%Z = (inl (ValueError msg), tr).
Proof.
  intros batch open E E' args st. split; [|split].
  - pose proof (placeholder_shape_resolution E args 0%Z
                  ([] ++ Demo.op_x batch
                      :: [Demo.op_y batch; Demo.op_z "Identity" batch])
                  _ [] (Demo.op_x batch)
                  [Demo.op_y batch; Demo.op_z "Identity" batch]
                  st (Demo.x0 batch) []
                  ltac:(vm_compute; reflexivity) eq_refl eq_refl eq_refl
                  eq_refl eq_refl) as (Hnone & _).
    exact (proj1 (Hnone eq_refl eq_refl) [10%Z] eq_refl).
  - vm_compute. reflexivity.
  - pose proof (placeholder_shape_resolution E' args 0%Z
                  ([] ++ Demo.op_x open
                      :: [Demo.op_y open; Demo.op_z "Identity" open])
                  _ [] (Demo.op_x open)
                  [Demo.op_y open; Demo.op_z "Identity" open]
                  st (Demo.x0 open) []
                  ltac:(vm_compute; reflexivity) eq_refl eq_refl eq_refl
                  eq_refl eq_refl) as (Hnone & _).
    destruct (proj2 (Hnone eq_refl eq_refl)) as (msg & Hocc & _ & Hrun).
    { intros [|d [|d' ds]]; discriminate. }
    exists msg. eexists. split; [exact Hocc | exact Hrun].
Defined.

(** C2 as claimed fails: an override resolves the placeholder and not
    the conversion. Without an override the conversion of the chain
    with the placeholder declared as [(None, None)] fails with the error
    that names [x:0]; with the fully defined override of five
    dimensions the placeholder pass commits the override, and the
    conversion fails all the same, when the input features are made. *)
Lemma override_does_not_ensure_conversion :
  let open := Some [None; None] in
  let E := Demo.backend (Demo.chain "Identity" open)
             Demo.no_findings Demo.static_run Demo.compile_ok in
  let override : gmap string (list Z) := {[ "x:0" := [1; 2; 3; 4; 5]%Z ]} in
  (exists msg,
     fst (_convert_pb_to_mlmodel E (Demo.args_for ["z:0"] ∅) 0%Z)
     = inl (ValueError msg)
     ∧ occurs_in "x:0" msg)
  ∧ (exists ps,
       placeholder_pass E ["z:0"] override
         [Demo.op_x open; Demo.op_y open; Demo.op_z "Identity" open]
         (placeholder_start 0%Z) = inr ps
       ∧ ps_SHAPE_DICT ps !! "x:0" = Some [1; 2; 3; 4; 5]%Z)
  ∧ exists msg,
      fst (_convert_pb_to_mlmodel E (Demo.args_for ["z:0"] override) 0%Z)
      = inl (ValueError msg).
Proof.
  intros open E override. split; [|split].
  - eexists. split; [vm_compute; reflexivity|].
    eexists EmptyString, _. reflexivity.
  - eexists. split; [vm_compute; reflexivity|]. vm_compute. reflexivity.
  - eexists. vm_compute. reflexivity.
Qed.

(** ** The output features and the check of their names *)

Lemma mbind_inr_inv {A B} (m : M A) (k : A -> M B) b tr :
  mbind m k = (inr b, tr) ->
  exists a tr1, m = (inr a, tr1) ∧ fst (k a) = inr b ∧ tr = tr1 ++ snd (k a).
Proof.
  destruct m as [[e|a] tr1]; simpl; [done|].
  intros [= H1 H2]. by exists a, tr1.
Qed.

Lemma lift_inr_inv {A} (r : Result A) a tr :
  lift r = (inr a, tr) -> r = inr a ∧ tr = [].
Proof. unfold lift. by intros [= -> <-]. Qed.

Lemma filter_fmap_comm {A B} (f : A -> B) (p : B -> bool) (l : list A) :
  f <$> List.filter (fun x => p (f x)) l = List.filter p (f <$> l).
Proof.
  induction l as [|x l IH]; [done|].
  rewrite fmap_cons. simpl.
  destruct (p (f x)); rewrite ?fmap_cons; by f_equal.
Qed.

Lemma any_requested_false ons outs :
  EmptyString ∉ ons ->
  any_requested ons outs = false ->
  List.filter (fun n => bool_decide (n ∈ outs)) ons = [].
Proof.
  intros Hne Hany.
  destruct (List.filter _ ons) as [|n l] eqn:Hf; [done|]. exfalso.
  assert (Hn : List.In n (List.filter (fun n => bool_decide (n ∈ outs)) ons))
    by (rewrite Hf; by left).
  apply List.filter_In in Hn as [Hn1 Hn2].
  apply list_elem_of_In in Hn1. apply bool_decide_eq_true in Hn2.
  rewrite (any_requested_true ons outs n) in Hany; [done..|].
  by intros ->.
Qed.

Lemma NoDup_filter_list {A} (p : A -> bool) (l : list A) :
  NoDup l -> NoDup (List.filter p l).
Proof.
  induction 1 as [|x l Hx Hl IH]; simpl; [constructor|].
  destruct (p x); [|done]. constructor; [|done].
  rewrite list_elem_of_In, List.filter_In, <- list_elem_of_In. tauto.
Qed.

Lemma NoDup_missing_length (l outs : list string) m :
  NoDup l -> (forall x, x ∈ l -> x ∈ outs) -> m ∈ outs -> m ∉ l ->
  (length l < length outs)%nat.
Proof.
  intros Hnd Hsub (l1 & l2 & ->)%list_elem_of_split Hm.
  assert (Hle : (length l ≤ length (l1 ++ l2))%nat).
  { apply submseteq_length, NoDup_submseteq; [done|].
    intros x Hx. specialize (Hsub x Hx).
    rewrite elem_of_app, elem_of_cons in Hsub. rewrite elem_of_app.
    destruct Hsub as [?|[->|?]]; [by left | done | by right]. }
  rewrite !length_app in *. simpl. lia.
Qed.

Lemma check_loop_first (all outs : list string) m :
  m ∈ outs -> m ∉ all ->
  exists first before after,
    outs = before ++ first :: after
    ∧ (forall n, n ∈ before -> n ∈ all)
    ∧ (first ∉ all)
    ∧ for_each
        (fun (_ : unit) given =>
           if bool_decide (given ∉ all)
           then raise (ValueError (missing_output_message given))
           else ok tt) outs tt
      = inl (ValueError (missing_output_message first)).
Proof.
  induction outs as [|x outs IH]; intros Hm Hall.
  - by apply elem_of_nil in Hm.
  - destruct (decide (x ∈ all)) as [Hx|Hx].
    + apply elem_of_cons in Hm as [->|Hm]; [done|].
      destruct (IH Hm Hall) as (first & before & after & -> & Hb & Hf & Hloop).
      exists first, (x :: before), after. split; [done|]. split.
      * intros n [->|?]%elem_of_cons; [done | by apply Hb].
      * split; [done|]. simpl.
        rewrite bool_decide_eq_false_2 by (by intros ?). done.
    + exists x, [], outs. split; [done|]. split.
      * intros n Hn. by apply elem_of_nil in Hn.
      * split; [done|]. simpl. by rewrite bool_decide_eq_true_2.
Qed.

Section Outputs.
Context {ndarray RandomState LayerParams SpecRest MLModel
         PreprocArgs ConversionFn : Type}.
Variable E : @Externals ndarray RandomState LayerParams SpecRest MLModel
               PreprocArgs ConversionFn.

Lemma inner_output_names (sd : gmap string (list Z)) xs ofs ofs' :
  for_each
    (fun output_features output =>
       tf_shape <- getitem sd (t_name output) ;;
       shape <- _infer_coreml_output_shape E tf_shape ;;
       ok (output_features ++ [(t_name output, shape)])) xs ofs = inr ofs' ->
  fst <$> ofs' = (fst <$> ofs) ++ (t_name <$> xs).
Proof.
  revert ofs. induction xs as [|x xs IH]; intros ofs; simpl.
  - intros [= <-]. by rewrite app_nil_r.
  - intros (ofs1 & H1 & H2)%bind_inr_inv.
    apply bind_inr_inv in H1 as (tf & _ & H1).
    apply bind_inr_inv in H1 as (sh & _ & H1). unfold ok in H1. simplify_eq.
    rewrite (IH _ H2), fmap_app, <- app_assoc. done.
Qed.

Lemma output_step_names outs sd ofs op ofs' :
  EmptyString ∉ output_names_of op ->
  output_step E outs sd ofs op = inr ofs' ->
  fst <$> ofs'
  = (fst <$> ofs)
    ++ List.filter (fun n => bool_decide (n ∈ outs)) (output_names_of op).
Proof.
  intros Hne. unfold output_step.
  destruct (any_requested (output_names_of op) outs) eqn:Hany.
  - intros H%inner_output_names. rewrite H. f_equal.
    unfold output_names_of.
    exact (filter_fmap_comm t_name
             (fun n : string => bool_decide (n ∈ outs)) (op_outputs op)).
  - unfold ok. intros [= <-].
    by rewrite (any_requested_false _ _ Hne Hany), app_nil_r.
Qed.

Lemma collect_output_names outs sd OPS ofs0 ofs :
  EmptyString ∉ tensor_names OPS ->
  for_each (output_step E outs sd) OPS ofs0 = inr ofs ->
  fst <$> ofs
  = (fst <$> ofs0)
    ++ List.filter (fun n => bool_decide (n ∈ outs)) (tensor_names OPS).
Proof.
  unfold tensor_names. revert ofs0.
  induction OPS as [|op OPS IH]; intros ofs0 Hne; simpl.
  - intros [= <-]. by rewrite app_nil_r.
  - intros (ofs1 & H1 & H2)%bind_inr_inv.
    rewrite fmap_cons in Hne. simpl in Hne.
    rewrite fmap_app in Hne. apply not_elem_of_app in Hne as [Hne1 Hne2].
    rewrite (IH _ Hne2 H2), (output_step_names _ _ _ _ _ Hne1 H1).
    by rewrite fmap_app, List.filter_app, app_assoc.
Qed.

Lemma analyse_output_features args rng a tr :
  analyse E args rng = (inr a, tr) ->
  collect_output_features E (output_feature_names args)
    (an_SHAPE_DICT a) (an_OPS a) = inr (an_output_features a).
Proof.
  unfold analyse, analyse_sorted, analyse_fed.
  intros (OPS & tr1 & _ & H & _)%mbind_inr_inv.
  destruct (mbind _ _) as [r tr2] eqn:H2 in H. simpl in H. subst r.
  apply mbind_inr_inv in H2 as (ps & tr3 & _ & H & _).
  destruct (mbind _ _) as [r tr4] eqn:H4 in H. simpl in H. subst r.
  apply mbind_inr_inv in H4 as ([unused eff] & tr5 & _ & H & _).
  unfold analyse_probed in H.
  destruct (mbind _ _) as [r tr6] eqn:H6 in H. simpl in H. subst r.
  apply mbind_inr_inv in H6 as ([sd cs] & tr7 & _ & H & _).
  destruct (mbind _ _) as [r tr8] eqn:H8 in H. simpl in H. subst r.
  apply mbind_inr_inv in H8 as (ofs & tr9 & Hofs & H & _).
  apply lift_inr_inv in Hofs as [Hofs _]. simpl in H. by simplify_eq.
Qed.


(** C10. Let the analysis succeed on a graph whose tensors have
    distinct names, none of them empty, and let a requested output name
    be the name of no tensor of the graph. Then the conversion fails with
    the [ValueError] that names the first requested name absent from the
    graph. The calls made are those of the analysis only: the check
    comes once the output features are collected, and before the
    unsupported-operation check and the lowering, neither of which
    runs. *)
Theorem missing_output_name_is_reported args rng a tr missing :
  analyse E args rng = (inr a, tr) ->
  NoDup (tensor_names (an_OPS a)) ->
  EmptyString ∉ tensor_names (an_OPS a) ->
  missing ∈ output_feature_names args ->
  missing ∉ tensor_names (an_OPS a) ->
  Forall (fun ev => analysis_call (ev_call ev)) tr
  ∧ exists first before after,
      output_feature_names args = before ++ first :: after
      ∧ (forall n, n ∈ before -> n ∈ tensor_names (an_OPS a))
      ∧ (first ∉ tensor_names (an_OPS a))
      ∧ occurs_in first (missing_output_message first)
      ∧ _convert_pb_to_mlmodel E args rng
        = (inl (ValueError (missing_output_message first)), tr).
Proof.
  intros Ha Hnd Hne Hin Hmiss. split.
  { pose proof (analyse_calls E args rng) as H. unfold calls_only in H.
    by rewrite Ha in H. }
  pose proof (analyse_output_features _ _ _ _ Ha) as Hofs.
  apply collect_output_names in Hofs; [|done]. simpl in Hofs.
  set (outs := output_feature_names args) in *.
  set (all := fst <$> an_output_features a) in *.
  assert (Hall : forall n, n ∈ all ↔ n ∈ outs ∧ n ∈ tensor_names (an_OPS a)).
  { intros n. rewrite Hofs, list_elem_of_In, List.filter_In,
      <- list_elem_of_In, bool_decide_eq_true. tauto. }
  assert (Hlen : length (an_output_features a) ≠ length outs).
  { assert (Hl : length all = length (an_output_features a))
      by apply length_fmap.
    assert (length all < length outs)%nat; [|lia].
    apply (NoDup_missing_length _ _ missing); [|naive_solver|done|naive_solver].
    rewrite Hofs. by apply NoDup_filter_list. }
  destruct (check_loop_first all outs missing Hin) as
    (first & before & after & Houts & Hbefore & Hfirst & Hloop);
    [naive_solver|].
  exists first, before, after. split; [done|]. split.
  { intros n Hn. by apply Hall, Hbefore. }
  split.
  { intros Hg. apply Hfirst, Hall. split; [|done].
    rewrite Houts. apply elem_of_app. right. by left. }
  split; [apply occurs_in_after|].
  rewrite (convert_after_analysis _ _ _ _ _ Ha).
  unfold after_analysis, check_output_names. fold outs all.
  rewrite decide_True by done. rewrite Hloop. simpl. by rewrite app_nil_r.
Qed.
End Outputs.

(** C10 at a graph: the chain [x], [y], [z] with [w:0] requested. *)
Lemma missing_output_name_is_reported_witness :
  let E := Demo.backend (Demo.chain "Weird" Demo.batch_of_ten)
             Demo.no_findings Demo.static_run Demo.compile_ok in
  let args := Demo.args_for ["z:0"; "w:0"] ∅ in
  exists a tr,
    analyse E args 0%Z = (inr a, tr)
    ∧ NoDup (tensor_names (an_OPS a))
    ∧ (EmptyString ∉ tensor_names (an_OPS a))
    ∧ Forall (fun ev => analysis_call (ev_call ev)) tr
    ∧ exists first before after,
        output_feature_names args = before ++ first :: after
        ∧ (forall n, n ∈ before -> n ∈ tensor_names (an_OPS a))
        ∧ (first ∉ tensor_names (an_OPS a))
        ∧ occurs_in first (missing_output_message first)
        ∧ _convert_pb_to_mlmodel E args 0%Z
          = (inl (ValueError (missing_output_message first)), tr).
Proof.
  intros E args. eexists _, _.
  split; [vm_compute; reflexivity|].
  assert (Hnd : NoDup ["x:0"; "y:0"; "z:0"])
    by (apply (bool_decide_unpack _); by vm_compute).
  assert (Hne : EmptyString ∉ ["x:0"; "y:0"; "z:0"])
    by (apply (bool_decide_unpack _); by vm_compute).
  split; [exact Hnd|]. split; [exact Hne|].
  apply (missing_output_name_is_reported E args 0%Z _ _ "w:0");
    [vm_compute; reflexivity | exact Hnd | exact Hne | by right; left |].
  apply (bool_decide_unpack _). by vm_compute.
Defined.

(** ** Repeated conversions *)

Section Determinism.
Context {ndarray RandomState LayerParams SpecRest MLModel
         PreprocArgs ConversionFn : Type}.
Variable E : @Externals ndarray RandomState LayerParams SpecRest MLModel
               PreprocArgs ConversionFn.

Lemma analyse_fed_feeds args OPS (ps1 ps2 : @PState ndarray RandomState) :
  ps_SHAPE_DICT ps1 = ps_SHAPE_DICT ps2 ->
  ps_input_feed_dict ps1 = ps_input_feed_dict ps2 ->
  ps_input_feed_dict2 ps1 = ps_input_feed_dict2 ps2 ->
  analyse_fed E args OPS ps1 = analyse_fed E args OPS ps2.
Proof.
  intros H1 H2 H3. unfold analyse_fed, analyse_probed.
  by rewrite H1, H2, H3.
Qed.

End Determinism.

(** C8 as claimed fails: the generator is never seeded, so a second
    conversion starts from the state the first one left. On a graph with
    an extent that depends on the value fed, the two conversions of the
    same graph with the same arguments return models whose outputs
    differ. *)
Lemma repeated_conversions_differ :
  let E := Demo.backend Demo.selection_graph Demo.no_findings
             Demo.dynamic_run Demo.compile_ok in
  let args := Demo.args_for ["y:0"] ∅ in
  exists ps model1 model2,
    placeholder_pass E (output_feature_names args)
      (input_name_shape_dict args) Demo.selection_graph
      (placeholder_start 0%Z) = inr ps
    ∧ fst (_convert_pb_to_mlmodel E args 0%Z) = inr model1
    ∧ fst (_convert_pb_to_mlmodel E args (ps_rng ps)) = inr model2
    ∧ description_output model1 ≠ description_output model2.
Proof.
  intros E args. eexists _, _, _.
  split; [vm_compute; reflexivity|].
  split; [vm_compute; reflexivity|].
  split; [vm_compute; reflexivity|].
  vm_compute. discriminate.
Qed.

(** ** Failures of the calls *)

Lemma fst_mbind {A B} (m : M A) (k : A -> M B) :
  fst (mbind m k)
  = match fst m with inl e => inl e | inr a => fst (k a) end.
Proof. by destruct m as [[e|a] tr]. Qed.

Lemma snd_mbind {A B} (m : M A) (k : A -> M B) :
  snd (mbind m k)
  = match fst m with inl e => snd m | inr a => snd m ++ snd (k a) end.
Proof. by destruct m as [[e|a] tr]. Qed.

Lemma propagates_nil {A} (m : M A) : snd m = [] -> propagates m.
Proof.
  intros Hm tr1 c e tr2 H. rewrite Hm in H. by destruct tr1.
Qed.

Lemma propagates_mret {A} (a : A) : propagates (mret a).
Proof. by apply propagates_nil. Qed.

Lemma propagates_lift {A} (r : Result A) : propagates (lift r).
Proof. by apply propagates_nil. Qed.

Lemma singleton_split {A} (x y : A) l1 l2 :
  [x] = l1 ++ y :: l2 -> l1 = [] ∧ l2 = [] ∧ x = y.
Proof.
  destruct l1 as [|z l1]; simpl.
  - by intros [= -> <-].
  - intros [= _ H]. by destruct l1.
Qed.

Lemma propagates_call {A} c (r : Result A) :
  ¬ compile_call c -> propagates (call c r).
Proof.
  intros Hc tr1 c' e tr2 H _. simpl in H.
  apply singleton_split in H as (-> & -> & [= <- Hr]).
  split; [done|]. destruct r as [e'|a]; simpl in *; [|done].
  simplify_eq. by destruct c, e.
Qed.

Lemma propagates_only_probe {A} (m : M A) :
  calls_only (fun c => c = call_find_unused_ops) m -> propagates m.
Proof.
  intros Hm tr1 c e tr2 H Hc. unfold calls_only in Hm. rewrite H in Hm.
  apply Forall_app in Hm as [_ Hm]. apply Forall_cons in Hm as [Hm _].
  done.
Qed.

Lemma propagates_mbind {A B} (m : M A) (k : A -> M B) :
  propagates m -> (forall a, propagates (k a)) -> propagates (mbind m k).
Proof.
  intros Hm Hk tr1 c e tr2 H Hc.
  rewrite snd_mbind in H. rewrite fst_mbind.
  destruct (fst m) as [e0|a] eqn:Hfst.
  - destruct (Hm _ _ _ _ H Hc) as [-> Hr]. split; [done|]. congruence.
  - apply List.app_eq_app in H as (l & [[H1 H2]|[H1 H2]]).
    + destruct l as [|ev l].
      * rewrite app_nil_r in H1. simpl in H2. symmetry in H2.
        by apply (Hk a [] c e tr2).
      * simpl in H2. injection H2 as <- H2.
        destruct (Hm _ _ _ _ H1 Hc) as [_ Hr]. congruence.
    + symmetry in H2. by apply (Hk a l c e tr2).
Qed.

Lemma propagates_mfor_each {S A} (body : S -> A -> M S) xs st :
  (forall st x, propagates (body st x)) ->
  propagates (mfor_each body xs st).
Proof.
  intros Hbody. revert st. induction xs as [|x xs IH]; intros st; simpl.
  - apply propagates_mret.
  - apply propagates_mbind; [apply Hbody | intros; apply IH].
Qed.

Ltac propagates_step :=
  first
    [ apply propagates_mret
    | apply propagates_lift
    | apply propagates_call; exact (fun H => H)
    | apply propagates_mbind; [|intros ?]
    | apply propagates_mfor_each; intros ? ?
    | match goal with
      | |- propagates (let (_, _) := ?x in _) => destruct x
      | |- propagates (if ?b then _ else _) => destruct b
      | |- propagates (match ?x with _ => _ end) => destruct x
      end ].

Section Failures.
Context {ndarray RandomState LayerParams SpecRest MLModel
         PreprocArgs ConversionFn : Type}.
Variable E : @Externals ndarray RandomState LayerParams SpecRest MLModel
               PreprocArgs ConversionFn.

Lemma propagates_probe OPS outs feed feed2 :
  propagates (probe E OPS outs feed feed2).
Proof.
  apply propagates_only_probe. unfold probe.
  apply calls_only_except_all. by apply calls_only_call.
Qed.

Lemma propagates_analyse args rng : propagates (analyse E args rng).
Proof.
  unfold analyse, analyse_sorted, analyse_fed, analyse_probed, load_and_sort,
    populate_shape_dict, run_and_commit.
  repeat first [apply propagates_probe | propagates_step].
Qed.

Lemma propagates_translate args a : propagates (translate E args a).
Proof.
  unfold translate, collect_input_features, input_step.
  repeat propagates_step.
Qed.

Lemma propagates_compile (spec : @Model_spec LayerParams SpecRest)
    (path : option string) :
  propagates
    (except_RuntimeError
       (_ <~ match path with
             | Some path => call call_save_spec (save_spec E spec path)
             | None => mret tt
             end ;;
        call call_MLModel (MLModel_of_spec E spec))
       (fun msg => ValueError ("Compilation failed: " +:+ msg))).
Proof.
  intros tr1 c e tr2 H _.
  destruct path as [path|]; simpl in H.
  - destruct (save_spec E spec path) as [e1|[]]; simpl in *.
    + assert (Htr : [mkEvent call_save_spec (Some e1)]
                    = tr1 ++ mkEvent c (Some e) :: tr2)
        by (by destruct e1).
      apply singleton_split in Htr as (-> & -> & [= <- <-]).
      split; [done|]. by destruct e1.
    + destruct (MLModel_of_spec E spec) as [e2|m]; simpl in *.
      * assert (Htr : [mkEvent call_save_spec None;
                       mkEvent call_MLModel (Some e2)]
                      = tr1 ++ mkEvent c (Some e) :: tr2)
          by (by destruct e2).
        destruct tr1 as [|? [|? ?]]; simplify_eq/=.
        -- split; [done|]. by destruct e.
        -- by destruct l.
      * destruct tr1 as [|? [|? ?]]; simplify_eq/=. by destruct l.
  - destruct (MLModel_of_spec E spec) as [e2|m]; simpl in *.
    + assert (Htr : [mkEvent call_MLModel (Some e2)]
                    = tr1 ++ mkEvent c (Some e) :: tr2)
        by (by destruct e2).
      apply singleton_split in Htr as (-> & -> & [= <- <-]).
      split; [done|]. by destruct e2.
    + apply singleton_split in H as (-> & -> & [=]).
Qed.

Lemma propagates_finish args spec : propagates (finish E args spec).
Proof.
  unfold finish, read_classes.
  repeat first [apply propagates_compile | propagates_step].
Qed.

Lemma propagates_convert args rng :
  propagates (_convert_pb_to_mlmodel E args rng).
Proof.
  unfold _convert_pb_to_mlmodel, after_analysis.
  repeat first [ apply propagates_analyse | apply propagates_translate
               | apply propagates_finish | propagates_step ].
Qed.

Lemma analyse_probed_no_probe args OPS ps found :
  calls_only not_probe (analyse_probed E args OPS ps found).
Proof.
  unfold analyse_probed, populate_shape_dict, run_and_commit, not_probe.
  repeat calls_only_step.
Qed.

Lemma after_analysis_no_probe args a :
  calls_only not_probe (after_analysis E args a).
Proof.
  unfold after_analysis, translate, collect_input_features, input_step,
    finish, read_classes, not_probe.
  repeat calls_only_step.
Qed.

Lemma load_and_sort_no_probe path :
  calls_only not_probe (load_and_sort E path).
Proof. unfold load_and_sort, not_probe. repeat calls_only_step. Qed.

Lemma calls_only_absent {A} (P : Call -> Prop) (m : M A) ev :
  calls_only P m -> ev ∈ snd m -> P (ev_call ev).
Proof. unfold calls_only. rewrite Forall_forall. auto. Qed.

Lemma mbind_assoc {A B C} (m : M A) (k : A -> M B) (h : B -> M C) :
  mbind (mbind m k) h = mbind m (fun a => mbind (k a) h).
Proof.
  destruct m as [[e|a] tr]; [done|]. simpl.
  destruct (k a) as [[e|b] tr']; simpl; [done|].
  by rewrite app_assoc.
Qed.

Lemma mbind_ext {A B} (m : M A) (k k' : A -> M B) :
  (forall a, k a = k' a) -> mbind m k = mbind m k'.
Proof. intros H. destruct m as [[e|a] tr]; [done|]. simpl. by rewrite H. Qed.

Lemma convert_nested
    (E' : @Externals ndarray RandomState LayerParams SpecRest MLModel
            PreprocArgs ConversionFn) args rng :
  _convert_pb_to_mlmodel E' args rng
  = mbind (load_and_sort E' (tf_model_path args)) (fun OPS =>
      mbind (lift (placeholder_pass E' (output_feature_names args)
                     (input_name_shape_dict args) OPS (placeholder_start rng)))
        (fun ps =>
           mbind (probe E' OPS (output_feature_names args)
                    (ps_input_feed_dict ps) (ps_input_feed_dict2 ps))
             (fun found =>
                mbind (analyse_probed E' args OPS ps found)
                  (after_analysis E' args)))).
Proof.
  unfold _convert_pb_to_mlmodel, analyse, analyse_sorted, analyse_fed.
  rewrite mbind_assoc. apply mbind_ext. intros OPS.
  rewrite mbind_assoc. apply mbind_ext. intros ps.
  by rewrite mbind_assoc.
Qed.

Lemma probe_failure_same_result args rng e :
  mkEvent call_find_unused_ops (Some e)
    ∈ snd (_convert_pb_to_mlmodel E args rng) ->
  fst (_convert_pb_to_mlmodel E args rng)
  = fst (_convert_pb_to_mlmodel (with_prober E nothing_found) args rng).
Proof.
  rewrite !convert_nested.
  change (load_and_sort (with_prober E nothing_found) (tf_model_path args))
    with (load_and_sort E (tf_model_path args)).
  pose proof (load_and_sort_no_probe (tf_model_path args)) as Hsort.
  destruct (load_and_sort E (tf_model_path args)) as [[e0|OPS] tr0];
    [intros _; reflexivity|].
  rewrite !(mbind_inr _ _ OPS tr0) by done. cbn [fst snd].
  change (placeholder_pass (with_prober E nothing_found))
    with (placeholder_pass E).
  destruct (placeholder_pass E _ _ OPS _) as [e1|ps];
    [intros _; reflexivity|].
  rewrite !mbind_lift_inr.
  pose proof (analyse_probed_no_probe args OPS ps) as Hprobed.
  pose proof (after_analysis_no_probe args) as Hafter.
  change (analyse_probed (with_prober E nothing_found))
    with (analyse_probed E).
  change (after_analysis (with_prober E nothing_found))
    with (after_analysis E).
  set (k1 := analyse_probed E args OPS ps) in *.
  set (k2 := after_analysis E args) in *.
  unfold probe.
  change (_find_unused_ops (with_prober E nothing_found))
    with (@nothing_found ndarray).
  destruct (_find_unused_ops E OPS _ _ _) as [e2|found].
  - intros _. unfold nothing_found, ok, call, except_all. cbn [raised].
    by rewrite !(mbind_inr _ _ ([], []) _) by done.
  - intros Hin. exfalso. unfold call, except_all in Hin. cbn [raised] in Hin.
    rewrite (mbind_inr _ _ found _) in Hin by done. cbn [snd] in Hin.
    rewrite snd_mbind in Hin. specialize (Hprobed found).
    rewrite !elem_of_app, list_elem_of_singleton in Hin.
    destruct Hin as [Hin|[Hin|Hin]]; [|done|].
    + by apply (calls_only_absent _ _ _ Hsort) in Hin.
    + destruct (k1 found) as [[e3|a] tr3]; cbn [fst snd] in Hin.
      * by apply (calls_only_absent _ _ _ Hprobed) in Hin.
      * apply elem_of_app in Hin as [Hin|Hin].
        -- by apply (calls_only_absent _ _ _ Hprobed) in Hin.
        -- by apply (calls_only_absent _ _ _ (Hafter a)) in Hin.
Qed.

(** C3, as the driver has it. If the probing raises, whatever it
    raises, the conversion goes on and its result is the one it has with
    a prober that finds nothing to prune and nothing to fold. Any other
    call that raises is the last call the conversion makes, and the
    conversion fails with what it raised, unchanged, except for an
    instance of [RuntimeError] (of the class itself or of one of its
    subclasses, [NotImplementedError] and [RecursionError]) raised while
    the model is saved or compiled, which the caller receives as a
    [ValueError] carrying its message. *)
Theorem probe_failure_is_not_fatal args rng :
  (forall e,
     mkEvent call_find_unused_ops (Some e)
       ∈ snd (_convert_pb_to_mlmodel E args rng) ->
     fst (_convert_pb_to_mlmodel E args rng)
     = fst (_convert_pb_to_mlmodel (with_prober E nothing_found) args rng))
  ∧ (forall before c e after,
       snd (_convert_pb_to_mlmodel E args rng)
       = before ++ mkEvent c (Some e) :: after ->
       c ≠ call_find_unused_ops ->
       after = []
       ∧ fst (_convert_pb_to_mlmodel E args rng) = inl (surfaced c e)).
Proof.
  split.
  - intros e. apply probe_failure_same_result.
  - apply propagates_convert.
Qed.
End Failures.

(** C3 as claimed fails: the compiling of the finished model raises a
    [RuntimeError], and what the caller of the conversion receives is a
    [ValueError]; it is the same when the compiling raises a
    [NotImplementedError], which is a [RuntimeError] too. *)
Lemma compile_failure_is_rewritten :
  let E := Demo.backend (Demo.chain "Identity" Demo.batch_of_ten)
             Demo.no_findings Demo.static_run Demo.compile_fails in
  let run := _convert_pb_to_mlmodel E (Demo.args_for ["z:0"] ∅) 0%Z in
  let E' := Demo.backend (Demo.chain "Identity" Demo.batch_of_ten)
              Demo.no_findings Demo.static_run Cases.compile_unavailable in
  let run' := _convert_pb_to_mlmodel E' (Demo.args_for ["z:0"] ∅) 0%Z in
  mkEvent call_MLModel (Some (RuntimeError "Error compiling model")) ∈ snd run
  ∧ fst run = inl (ValueError "Compilation failed: Error compiling model")
  ∧ fst run ≠ inl (RuntimeError "Error compiling model")
  ∧ mkEvent call_MLModel
      (Some (NotImplementedError
               "Model prediction is only supported on macOS")) ∈ snd run'
  ∧ fst run'
    = inl (ValueError
             "Compilation failed: Model prediction is only supported on macOS").
Proof.
  intros E run E' run'. split; [|split; [|split; [|split]]].
  - apply list_elem_of_In. vm_compute. tauto.
  - vm_compute. reflexivity.
  - vm_compute. discriminate.
  - apply list_elem_of_In. vm_compute. tauto.
  - vm_compute. reflexivity.
Qed.

(** ** The fed values reach the externals only *)

Lemma alike_outcome_refl {A} (R : A -> A -> Prop) (r : Result A) :
  (forall a, R a a) -> alike_outcome R r r.
Proof. intros H. destruct r; simpl; auto. Qed.

Section Blindness.
Context {ndarray RandomState LayerParams SpecRest MLModel
         PreprocArgs ConversionFn : Type}.
Variable E : @Externals ndarray RandomState LayerParams SpecRest MLModel
               PreprocArgs ConversionFn.
Variable alike : ndarray -> ndarray -> Prop.
Variable fixed : Tensor -> Prop.

Lemma dict_set_alike (k : Tensor) v1 v2 (f1 f2 : @FeedDict ndarray) :
  alike_feeds alike f1 f2 -> alike_value alike v1 v2 ->
  alike_feeds alike (dict_set k v1 f1) (dict_set k v2 f2).
Proof.
  intros Hf Hv. induction Hf as [|[k1 w1] [k2 w2] f1 f2 [Hk Hw] Hf IH]; simpl.
  - by repeat constructor.
  - simpl in Hk. subst k2. destruct (decide (k = k1)) as [->|Hne].
    + by constructor.
    + by constructor.
Qed.

Lemma placeholder_commit_alike st1 st2 out0 shape :
  blind_generator E alike -> (alike_state alike) st1 st2 ->
  alike_outcome (alike_state alike) (placeholder_commit E st1 out0 shape)
    (placeholder_commit E st2 out0 shape).
Proof.
  intros [Hrand Hscale] (Hsd & Hf1 & Hf2).
  unfold placeholder_commit, draw_feeds.
  destruct (decide (length shape = 0%nat)); simpl.
  - split_and!; simpl; [by rewrite Hsd| |]; by apply dict_set_alike.
  - pose proof (Hrand shape (ps_rng st1) (ps_rng st2)) as H1.
    destruct (np_random_rand E shape (ps_rng st1)) as [[e1|a1] r1];
      destruct (np_random_rand E shape (ps_rng st2)) as [[e2|a2] r2];
      simpl in H1; try done.
    simpl. pose proof (Hrand shape r1 r2) as H2.
    destruct (np_random_rand E shape r1) as [[e1'|a1'] r1'];
      destruct (np_random_rand E shape r2) as [[e2'|a2'] r2'];
      simpl in H2; try done.
    simpl. split_and!; simpl; [by rewrite Hsd| |]; apply dict_set_alike;
      try done; simpl; auto.
Qed.

Lemma placeholder_step_alike outs dict st1 st2 op :
  blind_generator E alike -> (alike_state alike) st1 st2 ->
  alike_outcome (alike_state alike) (placeholder_step E outs dict st1 op)
    (placeholder_step E outs dict st2 op).
Proof.
  intros Hgen Hst. unfold placeholder_step.
  destruct (String.eqb _ _); [|done].
  destruct (any_requested _ _); [done|].
  destruct (index (op_outputs op) 0) as [e|out0]; [done|]. simpl.
  destruct (placeholder_shape E dict (t_name out0) (t_shape out0))
    as [e|shape]; [done|]. simpl.
  by apply placeholder_commit_alike.
Qed.

Lemma placeholder_pass_alike outs dict OPS st1 st2 :
  blind_generator E alike -> (alike_state alike) st1 st2 ->
  alike_outcome (alike_state alike) (placeholder_pass E outs dict OPS st1)
    (placeholder_pass E outs dict OPS st2).
Proof.
  intros Hgen. unfold placeholder_pass. revert st1 st2.
  induction OPS as [|op OPS IH]; intros st1 st2 Hst; simpl; [done|].
  pose proof (placeholder_step_alike outs dict st1 st2 op Hgen Hst) as Hstep.
  destruct (placeholder_step E outs dict st1 op) as [e1|st1'];
    destruct (placeholder_step E outs dict st2 op) as [e2|st2'];
    simpl in *; try done.
  by apply IH.
Qed.

(** *** The run of the session *)

Lemma fold_note_output_of_graph OPS op outs st :
  op ∈ OPS -> outs ⊆ op_outputs op ->
  of_graph OPS (w_shapes_wanted st) ->
  of_graph OPS (w_shapes_wanted (foldl note_output st outs)).
Proof.
  intros Hop. revert st. induction outs as [|o outs IH]; intros st Hsub Hst;
    simpl; [done|].
  apply IH; [set_solver|]. unfold note_output.
  destruct (is_fully_defined (t_shape o)); simpl; [done|].
  intros n t [Hin|Hin]%elem_of_app; [by apply Hst|].
  apply list_elem_of_singleton in Hin. simplify_eq. split; [done|].
  exists op. split; [done|]. apply Hsub. by left.
Qed.

Lemma collect_step_of_graph OPS eff st op st' :
  op ∈ OPS ->
  collect_step eff st op = inr st' ->
  of_graph OPS (w_shapes_wanted st) ->
  of_graph OPS (w_shapes_wanted st').
Proof.
  intros Hop Hstep Hst. unfold collect_step in Hstep.
  pose proof (fold_note_output_of_graph OPS op (op_outputs op) st Hop
                (reflexivity _) Hst) as H.
  destruct (is_const eff op).
  - apply bind_inr_inv in Hstep as (c & _ & Hstep). unfold ok in Hstep.
    by simplify_eq.
  - unfold ok in Hstep. by simplify_eq.
Qed.

Lemma for_each_collect_of_graph OPS eff ops st w :
  ops ⊆ OPS ->
  for_each (collect_step eff) ops st = inr w ->
  of_graph OPS (w_shapes_wanted st) ->
  of_graph OPS (w_shapes_wanted w).
Proof.
  revert st. induction ops as [|op ops IH]; intros st Hsub; simpl.
  - by intros [= <-].
  - intros (st1 & Hstep & Hrest)%bind_inr_inv Hst.
    apply (IH st1); [set_solver|done|].
    eapply collect_step_of_graph; [|done|done]. apply Hsub. by left.
Qed.

Lemma commit_step_alike names cn (v1 v2 : list ndarray) st i :
  length v1 = length v2 ->
  (forall a1 a2, v1 !! i = Some a1 -> v2 !! i = Some a2 ->
     nd_shape E a1 = nd_shape E a2
     ∧ (forall name, names !! i = Some name -> name ∈ cn -> a1 = a2)) ->
  commit_step E names cn v1 st i = commit_step E names cn v2 st i.
Proof.
  intros Hlen Hi. destruct st as [sd cs]. unfold commit_step, index.
  destruct (names !! i) as [name|] eqn:Hname; [|done]. simpl.
  destruct (v1 !! i) as [a1|] eqn:H1; destruct (v2 !! i) as [a2|] eqn:H2.
  - destruct (Hi a1 a2 eq_refl eq_refl) as [Hshape Hconst].
    destruct (sd !! name); simpl.
    + case_bool_decide as Hc; simpl; [|done].
      destruct (bool_decide (cs !! name = None)); simpl; [|done].
      by rewrite (Hconst name eq_refl Hc).
    + rewrite Hshape. case_bool_decide as Hc; simpl; [|done].
      destruct (bool_decide (cs !! name = None)); simpl; [|done].
      by rewrite (Hconst name eq_refl Hc).
  - apply lookup_lt_Some in H1. apply lookup_ge_None in H2. lia.
  - apply lookup_lt_Some in H2. apply lookup_ge_None in H1. lia.
  - done.
Qed.

Lemma commit_loop_alike names cn (v1 v2 : list ndarray) (l : list nat) st :
  length v1 = length v2 ->
  (forall i a1 a2, i ∈ l -> v1 !! i = Some a1 -> v2 !! i = Some a2 ->
     nd_shape E a1 = nd_shape E a2
     ∧ (forall name, names !! i = Some name -> name ∈ cn -> a1 = a2)) ->
  for_each (commit_step E names cn v1) l st
  = for_each (commit_step E names cn v2) l st.
Proof.
  intros Hlen. revert st. induction l as [|i l IH]; intros st Hi; simpl;
    [done|].
  rewrite (commit_step_alike names cn v1 v2 st i Hlen).
  - destruct (commit_step E names cn v2 st i); simpl; [done|].
    apply IH. intros j a1 a2 Hj. apply Hi. by right.
  - intros a1 a2. apply Hi. by left.
Qed.

Lemma const_entry_named eff op n t :
  const_entry eff op = Some (n, t) ->
  n = t_name t
  ∧ (op_type op = "Const" ∨ op_type op = "Dequantize")
  ∧ head (op_outputs op) = Some t.
Proof.
  unfold const_entry. destruct (is_const eff op) eqn:Hc; [|done].
  destruct (head (op_outputs op)) as [c|]; [|done]. simpl.
  intros [= <- <-]. split; [done|]. split; [|done].
  apply is_const_spec in Hc as [?|[? _]]; auto.
Qed.

Lemma run_and_commit_alike OPS eff w f1 f2 :
  blind_session E alike fixed -> constants_fixed fixed OPS ->
  of_graph OPS (w_shapes_wanted w) ->
  w_consts_wanted w = omap (const_entry eff) OPS ->
  alike_feeds alike f1 f2 ->
  run_and_commit E w f1 = run_and_commit E w f2.
Proof.
  intros Hsess Hfixed Hgraph Hconsts Hf. unfold run_and_commit.
  destruct (decide _); [|done].
  set (wanted := w_shapes_wanted w ++ w_consts_wanted w).
  assert (Hwanted : of_graph OPS wanted).
  { intros n t [Hin|Hin]%elem_of_app; [by apply Hgraph|].
    rewrite Hconsts in Hin. apply list_elem_of_omap in Hin as (op & Hop & Hin).
    apply const_entry_named in Hin as (-> & _ & Hhead). split; [done|].
    exists op. split; [done|]. by apply head_Some_elem_of. }
  pose proof (Hsess (snd <$> wanted) f1 f2 Hf) as Hrun. unfold call.
  destruct (session_run E (snd <$> wanted) f1) as [e1|v1];
    destruct (session_run E (snd <$> wanted) f2) as [e2|v2];
    simpl in Hrun; try done.
  { by subst. }
  destruct Hrun as [Hlen Hrun]. cbn [mbind fst snd raised]. unfold lift.
  rewrite (commit_loop_alike (fst <$> wanted) (fst <$> w_consts_wanted w)
             v1 v2); [done|done|].
  intros i a1 a2 Hi H1 H2.
  apply elem_of_seq in Hi as [_ Hi]. rewrite length_fmap in Hi. simpl in Hi.
  destruct (lookup_lt_is_Some_2 wanted i Hi) as [[n t] Hw].
  destruct (Hrun i t a1 a2) as [Hshape Hfix]; [|done|done|].
  { by rewrite list_lookup_fmap, Hw. }
  split; [done|]. intros name Hname Hcn. apply Hfix.
  rewrite list_lookup_fmap, Hw in Hname. simpl in Hname. simplify_eq.
  destruct (Hwanted name t) as (-> & op & Hop & Ht).
  { by eapply list_elem_of_lookup_2. }
  apply list_elem_of_fmap in Hcn as ([n0 t0] & Hn0 & Hcn). simpl in Hn0.
  rewrite Hconsts in Hcn. apply list_elem_of_omap in Hcn as (c & Hc & Hcn).
  apply const_entry_named in Hcn as (-> & Htype & Hhead).
  by apply (Hfixed op t c t0).
Qed.

Lemma populate_alike OPS eff sd f1 f2 :
  blind_session E alike fixed -> constants_fixed fixed OPS ->
  alike_feeds alike f1 f2 ->
  populate_shape_dict E eff OPS sd f1 = populate_shape_dict E eff OPS sd f2.
Proof.
  intros Hsess Hfixed Hf. unfold populate_shape_dict.
  destruct (collect_wanted eff OPS sd) as [e|w] eqn:Hw; [done|].
  rewrite !mbind_lift_inr. unfold collect_wanted in Hw.
  apply (run_and_commit_alike OPS eff); try done.
  - eapply for_each_collect_of_graph; [|exact Hw|]; [done|].
    intros n t Hin. by apply elem_of_nil in Hin.
  - by rewrite (for_each_collect_consts _ _ _ _ Hw).
Qed.

Lemma alike_run_mbind {A B} (R : B -> B -> Prop) (m : M A) (k1 k2 : A -> M B) :
  (forall a, alike_run R (k1 a) (k2 a)) ->
  alike_run R (mbind m k1) (mbind m k2).
Proof.
  intros Hk. destruct m as [[e|a] tr]; simpl; [done|].
  destruct (Hk a) as [Htr Hr]. split; simpl; [by rewrite Htr|done].
Qed.

Lemma analyse_probed_alike args OPS ps1 ps2 found :
  blind_session E alike fixed -> constants_fixed fixed OPS ->
  (alike_state alike) ps1 ps2 ->
  alike_run (alike_analysis alike) (analyse_probed E args OPS ps1 found)
    (analyse_probed E args OPS ps2 found).
Proof.
  intros Hsess Hfixed (Hsd & Hf1 & Hf2). unfold analyse_probed.
  destruct found as [unused eff].
  rewrite Hsd, (populate_alike OPS eff _ _ _ Hsess Hfixed Hf1).
  apply alike_run_mbind. intros [sd cs].
  apply alike_run_mbind. intros ofs.
  split; [done|]. simpl. by split_and!.
Qed.

Lemma analyse_fed_alike args OPS ps1 ps2 :
  blind_prober E alike -> blind_session E alike fixed ->
  constants_fixed fixed OPS ->
  (alike_state alike) ps1 ps2 ->
  alike_run (alike_analysis alike) (analyse_fed E args OPS ps1)
    (analyse_fed E args OPS ps2).
Proof.
  intros Hprobe Hsess Hfixed Hst. unfold analyse_fed, probe.
  destruct Hst as (Hsd & Hf1 & Hf2).
  rewrite (Hprobe OPS (output_feature_names args) _ _ _ _ Hf1 Hf2).
  apply alike_run_mbind. intros found.
  by apply analyse_probed_alike.
Qed.

Lemma analyse_alike args rng1 rng2 :
  blind_generator E alike -> blind_prober E alike ->
  blind_session E alike fixed ->
  (forall OPS tr,
     load_and_sort E (tf_model_path args) = (inr OPS, tr) ->
     constants_fixed fixed OPS) ->
  alike_run (alike_analysis alike) (analyse E args rng1) (analyse E args rng2).
Proof.
  intros Hgen Hprobe Hsess Hfixed. unfold analyse.
  destruct (load_and_sort E (tf_model_path args)) as [[e|OPS] tr] eqn:Hsort;
    [done|].
  specialize (Hfixed OPS tr eq_refl).
  assert (H : alike_run (alike_analysis alike) (analyse_sorted E args rng1 OPS)
                (analyse_sorted E args rng2 OPS)).
  { unfold analyse_sorted.
    pose proof (placeholder_pass_alike (output_feature_names args)
                  (input_name_shape_dict args) OPS
                  (placeholder_start rng1) (placeholder_start rng2) Hgen) as Hp.
    destruct (placeholder_pass _ _ _ _ (placeholder_start rng1)) as [e1|ps1];
      destruct (placeholder_pass _ _ _ _ (placeholder_start rng2)) as [e2|ps2];
      simpl in Hp.
    - split; [done|]. simpl. apply Hp. by repeat split; constructor.
    - exfalso. apply Hp. by repeat split; constructor.
    - exfalso. apply Hp. by repeat split; constructor.
    - rewrite !mbind_lift_inr. apply analyse_fed_alike; try done.
      apply Hp. by repeat split; constructor. }
  destruct H as [Htr Hr]. split; cbn [mbind fst snd]; [by rewrite Htr|done].
Qed.

(** *** After the analysis *)

Lemma input_step_fst st (e1 e2 : Tensor * @FeedValue ndarray) :
  fst e1 = fst e2 -> input_step E st e1 = input_step E st e2.
Proof. intros H. unfold input_step. by rewrite H. Qed.

Lemma collect_inputs_alike f1 f2 st :
  alike_feeds alike f1 f2 ->
  mfor_each (input_step E) f1 st = mfor_each (input_step E) f2 st.
Proof.
  intros Hf. revert st. induction Hf as [|e1 e2 f1 f2 [Hk _] Hf IH];
    intros st; simpl; [done|].
  rewrite (input_step_fst st e1 e2 Hk).
  destruct (input_step E st e2) as [[e|st'] tr]; simpl; [done|].
  by rewrite IH.
Qed.

Lemma translate_alike args a1 a2 :
  blind_lowering E alike -> (alike_analysis alike) a1 a2 ->
  translate E args a1 = translate E args a2.
Proof.
  intros Hlow (H1 & H2 & Hf & H4 & H5 & H6 & H7 & H8). unfold translate.
  rewrite H1, H2, H6, H7, H8.
  unfold collect_input_features.
  rewrite (collect_inputs_alike _ _ _ Hf).
  apply mbind_ext. intros ins. apply mbind_ext. intros b.
  set (c := Context_prepare (in_context ins) b args a1).
  assert (Hc2 : Context_prepare (in_context ins) b args a2
                = with_feeds (an_input_feed_dict a2) c).
  { unfold with_feeds, c, Context_prepare. simpl. by rewrite H4, H5. }
  rewrite Hc2.
  change (convert_ops_to_layers E c)
    with (convert_ops_to_layers E (with_feeds (an_input_feed_dict a1) c)).
  pose proof (Hlow c _ _ Hf) as Hl. unfold call.
  destruct (convert_ops_to_layers E (with_feeds (an_input_feed_dict a1) c))
    as [e1|c1];
    destruct (convert_ops_to_layers E (with_feeds (an_input_feed_dict a2) c))
      as [e2|c2]; simpl in Hl; try done.
  - by subst.
  - cbn [mbind fst snd raised]. by rewrite Hl.
Qed.

Lemma after_analysis_alike args a1 a2 :
  blind_lowering E alike -> (alike_analysis alike) a1 a2 ->
  after_analysis E args a1 = after_analysis E args a2.
Proof.
  intros Hlow Ha. unfold after_analysis, unsupported_check.
  rewrite (translate_alike args a1 a2 Hlow Ha).
  destruct Ha as (H1 & H2 & Hf & H4 & H5 & H6 & H7 & H8).
  by rewrite H1, H4, H5, H8.
Qed.

(** C8, as the driver has it. Let the code outside the driver not look
    at the values that are fed, which holds of two arrays drawn at one
    shape whatever the state of the generator: the prober answers the
    same, the session fails alike or returns arrays of the same extents
    and the same array for a tensor whose value is fixed, and the
    lowering fails alike or leaves the same builder; and let the tensors
    under the name of the first output of a constant or of a
    dequantization be fixed. Then two conversions of one graph with the
    same arguments make the same calls and come to the same result,
    whatever the states of the generator they start from, although the
    values they feed differ: the driver itself reads of the fed arrays
    nothing, and of the arrays the session returns the extents and the
    constants only. *)
Theorem conversion_ignores_fed_values args rng1 rng2 :
  blind_generator E alike ->
  blind_prober E alike ->
  blind_session E alike fixed ->
  blind_lowering E alike ->
  (forall OPS tr,
     load_and_sort E (tf_model_path args) = (inr OPS, tr) ->
     constants_fixed fixed OPS) ->
  _convert_pb_to_mlmodel E args rng1 = _convert_pb_to_mlmodel E args rng2.
Proof.
  intros Hgen Hprobe Hsess Hlow Hfixed. unfold _convert_pb_to_mlmodel.
  destruct (analyse_alike args rng1 rng2 Hgen Hprobe Hsess Hfixed)
    as [Htr Hr].
  destruct (analyse E args rng1) as [[e1|a1] tr1];
    destruct (analyse E args rng2) as [[e2|a2] tr2];
    simpl in Htr, Hr; try done; subst.
  - done.
  - cbn [mbind]. by rewrite (after_analysis_alike args a1 a2 Hlow Hr).
Qed.

End Blindness.

(** C8 at a graph: the chain [x], [y], [z] with the placeholder
    declared as [(None, 10)], in a session that returns the declared
    extents. Started from two states of the generator, the two
    conversions feed arrays that differ and return the same model. *)
Lemma conversion_ignores_fed_values_witness :
  let shape := Some [None; Some 10%Z] in
  let E := Demo.backend (Demo.chain "Identity" shape)
             Demo.no_findings Demo.static_run Demo.compile_ok in
  let args := Demo.args_for ["z:0"] ∅ in
  _convert_pb_to_mlmodel E args 0%Z = _convert_pb_to_mlmodel E args 7%Z
  ∧ (exists model tr, _convert_pb_to_mlmodel E args 0%Z = (inr model, tr))
  ∧ exists a1 a2 tr1 tr2,
      analyse E args 0%Z = (inr a1, tr1)
      ∧ analyse E args 7%Z = (inr a2, tr2)
      ∧ an_input_feed_dict a1 ≠ an_input_feed_dict a2.
Proof.
  intros shape E args. split; [|split].
  - apply (conversion_ignores_fed_values E
             (fun a b => Demo.arr_shape a = Demo.arr_shape b)
             (fun _ => True) args 0%Z 7%Z).
    + split.
      * intros s s1 s2. simpl. unfold Demo.rand.
        by destruct (forallb _ s).
      * by intros k a1 a2 H.
    + by intros OPS outs f1 f2 g1 g2 _ _.
    + intros tensors f1 f2 _. simpl. split; [done|].
      intros i t a1 a2 _ H1 H2. rewrite H1 in H2. by simplify_eq.
    + by intros c f1 f2 _.
    + by intros OPS tr _ op t c t0 _ _ _ _ _ _.
  - eexists _, _. vm_compute. reflexivity.
  - eexists _, _, _, _. split; [vm_compute; reflexivity|].
    split; [vm_compute; reflexivity|]. vm_compute. discriminate.
Defined.

(** ** Ordering the operations *)

Lemma remove_first_perm o l : o ∈ l -> o :: remove_first o l ≡ₚ l.
Proof.
  induction l as [|y l IH]; intros Ho.
  - by apply elem_of_nil in Ho.
  - simpl. destruct (decide (o = y)) as [->|Hne]; [done|].
    apply elem_of_cons in Ho as [?|Ho]; [done|].
    rewrite Permutation_swap. by rewrite (IH Ho).
Qed.

Lemma remove_first_subset o l x : x ∈ remove_first o l -> x ∈ l.
Proof.
  induction l as [|y l IH]; simpl; [done|].
  destruct (decide (o = y)) as [->|Hne].
  - by right.
  - intros [->|?]%elem_of_cons; [by left | right; auto].
Qed.

Lemma find_ready_Some pending o :
  List.find (ready pending) pending = Some o ->
  o ∈ pending ∧ forall p, p ∈ pending -> depends_on o p = false.
Proof.
  intros [Hin Hr]%List.find_some. split; [by apply list_elem_of_In|].
  intros p Hp. unfold ready in Hr. rewrite forallb_forall in Hr.
  apply list_elem_of_In in Hp. apply Hr in Hp. by apply negb_true_iff.
Qed.

Lemma find_ready_None pending o :
  List.find (ready pending) pending = None -> o ∈ pending ->
  exists p, p ∈ pending ∧ depends_on o p = true.
Proof.
  intros Hnone Ho. apply list_elem_of_In in Ho.
  pose proof (List.find_none _ _ Hnone o Ho) as Hr.
  unfold ready in Hr.
  destruct (List.find (depends_on o) pending) as [p|] eqn:Hf.
  - apply List.find_some in Hf as [Hp Hd]. exists p.
    split; [by apply list_elem_of_In | done].
  - exfalso. assert (forallb (fun p => negb (depends_on o p)) pending = true);
      [|congruence].
    apply forallb_forall. intros p Hp.
    by rewrite (List.find_none _ _ Hf p Hp).
Qed.

Lemma topologically_ordered_snoc sorted pending o :
  closed_order sorted pending ->
  o ∈ pending ->
  (forall p, p ∈ pending -> depends_on o p = false) ->
  closed_order (sorted ++ [o]) (remove_first o pending).
Proof.
  intros [Htopo Hclosed] Ho Hready. split.
  - intros i j a b Hi Hj Hdep.
    destruct (decide (i < length sorted)%nat) as [Hil|Hil].
    + rewrite lookup_app_l in Hi by done.
      destruct (decide (j < length sorted)%nat) as [Hjl|Hjl].
      * rewrite lookup_app_l in Hj by done. by eapply Htopo.
      * rewrite lookup_app_r in Hj by lia.
        apply list_lookup_singleton_Some in Hj as [_ <-].
        apply list_elem_of_lookup_2 in Hi.
        by rewrite (Hclosed a o Hi Ho) in Hdep.
    + rewrite lookup_app_r in Hi by lia.
      apply list_lookup_singleton_Some in Hi as [Hi <-].
      destruct (decide (j < length sorted)%nat) as [Hjl|Hjl]; [lia|].
      rewrite lookup_app_r in Hj by lia.
      apply list_lookup_singleton_Some in Hj as [_ <-].
      by rewrite (Hready o Ho) in Hdep.
  - intros a p [Ha|Ha%list_elem_of_singleton]%elem_of_app Hp.
    + apply Hclosed; [done|]. by eapply remove_first_subset.
    + subst a. apply Hready. by eapply remove_first_subset.
Qed.

Lemma sort_rounds_spec rounds pending sorted sorted' pending' :
  sort_rounds rounds pending sorted = (sorted', pending') ->
  closed_order sorted pending ->
  (length pending ≤ rounds)%nat ->
  sorted' ++ pending' ≡ₚ sorted ++ pending
  ∧ closed_order sorted' pending'
  ∧ (forall x, x ∈ pending' -> x ∈ pending)
  ∧ (pending' = []
     ∨ forall o, o ∈ pending' ->
         exists p, p ∈ pending' ∧ depends_on o p = true).
Proof.
  revert pending sorted.
  induction rounds as [|rounds IH]; intros pending sorted; simpl.
  - intros [= <- <-] Hinv Hlen. destruct pending; [|simpl in Hlen; lia].
    repeat split; try done; [apply Hinv.. | by left].
  - destruct (List.find (ready pending) pending) as [o|] eqn:Hfind.
    + apply find_ready_Some in Hfind as [Ho Hready].
      intros Hrounds Hinv Hlen.
      pose proof (remove_first_perm o pending Ho) as Hperm.
      destruct (IH _ _ Hrounds) as (H1 & H2 & H3 & H4).
      * by apply topologically_ordered_snoc.
      * apply Permutation_length in Hperm. simpl in Hperm. lia.
      * repeat split; try apply H2; [| |done].
        -- rewrite H1, <- app_assoc. simpl. by rewrite Hperm.
        -- intros x Hx. by eapply remove_first_subset, H3.
    + intros [= <- <-] Hinv Hlen.
      repeat split; try done; try apply Hinv.
      right. intros o Ho. by apply find_ready_None.
Qed.

(** an order excludes a cycle *)
Lemma ordered_step_back ops order a b :
  order ≡ₚ ops -> topologically_ordered order ->
  tc (dependency ops) a b ->
  forall i, order !! i = Some a ->
    exists j, (j < i)%nat ∧ order !! j = Some b.
Proof.
  intros Hperm Htopo. induction 1 as [a b (Ha & Hb & Hdep)|a b c (Ha & Hb & Hdep) _ IH].
  - intros i Hi. rewrite <- Hperm in Hb.
    apply list_elem_of_lookup_1 in Hb as (j & Hj). exists j.
    split; [by eapply Htopo | done].
  - intros i Hi. rewrite <- Hperm in Hb.
    apply list_elem_of_lookup_1 in Hb as (j & Hj).
    destruct (IH j Hj) as (k & Hk & Hc). exists k.
    split; [|done]. pose proof (Htopo i j a b Hi Hj Hdep). lia.
Qed.

Lemma ordered_no_cycle ops order :
  order ≡ₚ ops -> topologically_ordered order -> ¬ has_cycle ops.
Proof.
  intros Hperm Htopo (a & Hcycle).
  assert (Hnone : forall i, order !! i ≠ Some a).
  { intros i. induction (lt_wf i) as [i _ IH]. intros Hi.
    destruct (ordered_step_back _ _ _ _ Hperm Htopo Hcycle i Hi)
      as (j & Hj & Hja).
    by apply (IH j Hj). }
  assert (Ha : a ∈ ops).
  { inversion Hcycle as [? ? (Ha & _)|? ? ? (Ha & _)]; done. }
  rewrite <- Hperm in Ha. apply list_elem_of_lookup_1 in Ha as (i & Hi).
  by apply (Hnone i).
Qed.

Lemma nonempty_elem {A} (l : list A) : l ≠ [] -> exists x, x ∈ l.
Proof. destruct l as [|x l]; [done|]. intros _. exists x. by left. Qed.

Lemma not_NoDup_repeat {A} `{EqDecision A} (l : list A) :
  ¬ NoDup l ->
  exists i j x, (i < j)%nat ∧ l !! i = Some x ∧ l !! j = Some x.
Proof.
  induction l as [|x l IH]; intros Hdup.
  - destruct Hdup. constructor.
  - destruct (decide (x ∈ l)) as [Hx|Hx].
    + apply list_elem_of_lookup_1 in Hx as (k & Hk).
      exists 0%nat, (S k), x. split; [lia|done].
    + destruct IH as (i & j & y & Hij & Hi & Hj).
      { intros Hnd. apply Hdup. by constructor. }
      exists (S i), (S j), y. split; [lia|done].
Qed.

(** a set in which every operation waits for another holds a cycle *)
Section Stuck.
Variables ops pending : list Operation.
Hypothesis Hsub : forall x, x ∈ pending -> x ∈ ops.
Hypothesis Hstuck :
  forall o, o ∈ pending -> exists p, p ∈ pending ∧ depends_on o p = true.

Lemma next_in_spec o :
  o ∈ pending ->
  next_in pending o ∈ pending ∧ dependency ops o (next_in pending o).
Proof.
  intros Ho. unfold next_in.
  destruct (List.find (depends_on o) pending) as [p|] eqn:Hf; simpl.
  - apply List.find_some in Hf as [Hp%list_elem_of_In Hd].
    split; [done|]. split; [auto|]. split; [auto|done].
  - destruct (Hstuck o Ho) as (p & Hp%list_elem_of_In & Hd).
    by rewrite (List.find_none _ _ Hf p Hp) in Hd.
Qed.

Lemma walk_in start n : start ∈ pending -> walk pending start n ∈ pending.
Proof.
  intros Hs. induction n as [|n IH]; simpl; [done|].
  by apply next_in_spec.
Qed.

Lemma walk_tc start i j :
  start ∈ pending -> (i < j)%nat ->
  tc (dependency ops) (walk pending start i) (walk pending start j).
Proof.
  intros Hs Hij. induction j as [|j IH]; [lia|].
  assert (Hstep : dependency ops (walk pending start j)
                    (walk pending start (S j))).
  { simpl. apply next_in_spec. by apply walk_in. }
  destruct (decide (i = j)) as [->|Hne].
  - by apply tc_once.
  - eapply tc_r; [|exact Hstep]. apply IH. lia.
Qed.

Lemma walk_repeats start :
  start ∈ pending ->
  exists i j, (i < j)%nat ∧ walk pending start i = walk pending start j.
Proof.
  intros Hs.
  set (path := walk pending start <$> seq 0 (S (length pending))).
  destruct (decide (NoDup path)) as [Hnd|Hdup].
  - exfalso.
    assert (length path ≤ length pending)%nat.
    { apply submseteq_length, NoDup_submseteq; [done|].
      intros x (n & -> & _)%list_elem_of_fmap. by apply walk_in. }
    unfold path in H. rewrite length_fmap, length_seq in H. lia.
  - destruct (not_NoDup_repeat path Hdup) as (i & j & x & Hij & Hi & Hj).
    unfold path in Hi, Hj. rewrite list_lookup_fmap in Hi, Hj.
    destruct (seq 0 (S (length pending)) !! i) as [i'|] eqn:Hi'; [|done].
    destruct (seq 0 (S (length pending)) !! j) as [j'|] eqn:Hj'; [|done].
    apply lookup_seq in Hi' as [-> _]. apply lookup_seq in Hj' as [-> _].
    simpl in Hi, Hj. exists i, j. split; [done|]. congruence.
Qed.

Lemma stuck_has_cycle : pending ≠ [] -> has_cycle ops.
Proof.
  intros (start & Hs)%nonempty_elem.
  destruct (walk_repeats start Hs) as (i & j & Hij & Heq).
  exists (walk pending start i).
  rewrite Heq at 2. by apply walk_tc.
Qed.
End Stuck.

Lemma sort_model_outcome ops :
  let result := sort_rounds (length ops) ops [] in
  fst result ++ snd result ≡ₚ ops
  ∧ topologically_ordered (fst result)
  ∧ (snd result = [] ∨ has_cycle ops).
Proof.
  destruct (sort_rounds (length ops) ops []) as [sorted pending] eqn:Hr.
  destruct (sort_rounds_spec _ _ _ _ _ Hr) as (Hperm & [Htopo _] & Hsub & Hend).
  { split; [by intros i j o p Hi|]. intros o p Ho. by apply elem_of_nil in Ho. }
  { done. }
  simpl. split; [done|]. split; [done|].
  destruct Hend as [->|Hstuck]; [by left|].
  destruct (decide (pending = [])) as [->|Hne]; [by left|]. right.
  by apply (stuck_has_cycle ops pending).
Qed.

Lemma sort_model_cases ops :
  (exists order,
     topological_sort_ops_model ops = inr order
     ∧ order ≡ₚ ops ∧ topologically_ordered order)
  ∨ (topological_sort_ops_model ops = inl CyclicGraphError ∧ has_cycle ops).
Proof.
  destruct (sort_model_outcome ops) as (Hperm & Htopo & Hend).
  unfold topological_sort_ops_model.
  destruct (sort_rounds (length ops) ops []) as [sorted pending].
  simpl in *. apply Permutation_length in Hperm as Hlen.
  rewrite length_app in Hlen.
  destruct Hend as [->|Hcycle].
  - left. exists sorted. rewrite app_nil_r in Hperm. simpl in Hlen.
    rewrite decide_False by lia. done.
  - case_decide; [by right|]. left. exists sorted.
    assert (pending = []) as -> by (apply length_zero_iff_nil; lia).
    rewrite app_nil_r in Hperm. done.
Qed.

Section SortInDriver.
Context {ndarray RandomState LayerParams SpecRest MLModel
         PreprocArgs ConversionFn : Type}.

(** C7, on the sorting as the specification describes it. When the
    sorting returns an order, the order is a rearrangement of the
    operations in which every operation stands at a greater index than
    every operation producing one of its inputs. It returns one for every
    graph without a cycle, and fails with [CyclicGraphError] for every
    graph with one; the conversion of such a graph stops there: after the
    loading, the sorting is the last call it makes, and it fails with
    that error. *)
Theorem topological_sort_ops_model_correct (ops : list Operation) :
  (forall order,
     topological_sort_ops_model ops = inr order ->
     order ≡ₚ ops ∧ topologically_ordered order)
  ∧ (¬ has_cycle ops ->
     exists order, topological_sort_ops_model ops = inr order)
  ∧ (has_cycle ops -> topological_sort_ops_model ops = inl CyclicGraphError)
  ∧ (forall (E : @Externals ndarray RandomState LayerParams SpecRest MLModel
                   PreprocArgs ConversionFn) args rng,
       _topological_sort_ops E = topological_sort_ops_model ->
       load_graph E (tf_model_path args) = inr ops ->
       "DecodeJpeg" ∉ op_type <$> ops ->
       has_cycle ops ->
       _convert_pb_to_mlmodel E args rng
       = (inl CyclicGraphError,
          [mkEvent call_load_graph None;
           mkEvent call_topological_sort_ops (Some CyclicGraphError)])).
Proof.
  assert (Hcyc : has_cycle ops ->
                 topological_sort_ops_model ops = inl CyclicGraphError).
  { intros Hcycle.
    destruct (sort_model_cases ops) as [(order & _ & Hperm & Htopo)|[H _]];
      [|done].
    by destruct (ordered_no_cycle ops order Hperm Htopo). }
  split; [|split; [|split]].
  - intros order Horder.
    destruct (sort_model_cases ops) as [(order' & H & Hperm & Htopo)|[H _]];
      [|congruence].
    rewrite H in Horder. by simplify_eq.
  - intros Hno.
    destruct (sort_model_cases ops) as [(order & H & _)|[_ Hcycle]];
      [by exists order | done].
  - done.
  - intros E args rng Hsort Hload Hjpeg Hcycle.
    unfold _convert_pb_to_mlmodel, analyse, load_and_sort.
    rewrite Hload. unfold call, lift. cbn [mbind fst snd raised].
    rewrite bool_decide_eq_false_2 by done. cbn [mbind fst snd raised].
    rewrite Hsort, (Hcyc Hcycle). reflexivity.
Qed.
End SortInDriver.

(** The sorting at two graphs: the chain declared as [z], [x], [y] is
    put in the order [x], [y], [z], and two operations that wait for
    each other are refused. *)
Example topological_sort_ops_model_examples :
  topological_sort_ops_model (Demo.chain "Identity" Demo.batch_of_ten)
  = inr [Demo.op_x Demo.batch_of_ten; Demo.op_y Demo.batch_of_ten;
         Demo.op_z "Identity" Demo.batch_of_ten]
  ∧ topological_sort_ops_model Demo.loop_graph = inl CyclicGraphError
  ∧ fst (_convert_pb_to_mlmodel
           (Demo.backend Demo.loop_graph Demo.no_findings Demo.static_run
              Demo.compile_ok)
           (Demo.args_for ["z:0"] ∅) 0%Z) = inl CyclicGraphError.
Proof. repeat split; vm_compute; reflexivity. Qed.

(** * Further properties of the module *)


Section ShapesOfFeatures.
Context {ndarray RandomState LayerParams SpecRest MLModel
         PreprocArgs ConversionFn : Type}.
Variable E : @Externals ndarray RandomState LayerParams SpecRest MLModel
               PreprocArgs ConversionFn.

(** X5. [_infer_coreml_input_shape] succeeds exactly on the shapes of
    at most four dimensions. The result has one dimension for a shape
    of two and three dimensions otherwise, and it holds as many elements
    as one example of the input: the batch dimension is dropped and
    nothing else. A shape of five dimensions or more is refused with a
    [ValueError]. *)
Theorem infer_coreml_input_shape_spec (tf_shape : list Z) :
  match _infer_coreml_input_shape E tf_shape with
  | inr shape =>
      (length tf_shape ≤ 4)%nat
      ∧ length shape = (if decide (length tf_shape = 2%nat) then 1 else 3)%nat
      ∧ numel shape = numel (per_example tf_shape)
  | inl e =>
      (4 < length tf_shape)%nat
      ∧ e = ValueError ("Unrecognized TensorFlow input shape"
                        +:+ list_str E (PyInt <$> tf_shape))
  end.
Proof.
  destruct tf_shape as [|a [|b [|c [|d [|e l]]]]]; simpl;
    unfold numel, per_example; simpl; repeat split; try lia.
Qed.

(** X6. [_infer_coreml_output_shape] fails exactly on the shapes of
    more than four dimensions. It leaves the output without a shape
    exactly for three dimensions and for two dimensions with a batch
    other than 1; any shape it does give holds as many elements as one
    example of the output, in one dimension for a scalar or a shape of
    two dimensions and in three otherwise. *)
Theorem infer_coreml_output_shape_spec (tf_shape : list Z) :
  match _infer_coreml_output_shape E tf_shape with
  | inr (Some shape) =>
      (length tf_shape ≤ 4)%nat
      ∧ length tf_shape ≠ 3%nat
      ∧ (length tf_shape = 2%nat -> tf_shape !! 0%nat = Some 1%Z)
      ∧ length shape = (if decide (length tf_shape = 0%nat ∨ length tf_shape = 2%nat)
                        then 1 else 3)%nat
      ∧ numel shape = numel (per_example tf_shape)
  | inr None =>
      length tf_shape = 3%nat
      ∨ (length tf_shape = 2%nat ∧ tf_shape !! 0%nat ≠ Some 1%Z)
  | inl e =>
      (4 < length tf_shape)%nat
      ∧ e = ValueError ("Unrecognized TensorFlow output shape "
                        +:+ list_str E (PyInt <$> tf_shape))
  end.
Proof.
  destruct tf_shape as [|a [|b [|c [|d [|e l]]]]]; simpl;
    unfold numel, per_example; simpl; repeat split; try lia; try done.
  all: try (by left).
  destruct (Z.eqb_spec a 1); simpl; repeat split; try lia; try done.
  - by subst.
  - right. split; [done|]. congruence.
Qed.

(** X7. The two inferences fail on the same shapes. Where both give a
    shape they give the same one for two and for four dimensions; for
    one dimension the output shape is the input shape reversed (the
    extent is the channel of an output and the width of an input), and
    a scalar is [1, 1, 1] as an input and [1] as an output. *)
Theorem infer_coreml_shapes_agree (tf_shape : list Z) :
  match _infer_coreml_input_shape E tf_shape,
        _infer_coreml_output_shape E tf_shape with
  | inr shape, inr (Some shape') =>
      if decide (length tf_shape = 2%nat ∨ length tf_shape = 4%nat)
      then shape' = shape
      else if decide (length tf_shape = 1%nat)
      then shape' = reverse shape
      else tf_shape = [] ∧ shape = [1; 1; 1]%Z ∧ shape' = [1%Z]
  | inr _, inr None =>
      length tf_shape = 3%nat
      ∨ (length tf_shape = 2%nat ∧ tf_shape !! 0%nat ≠ Some 1%Z)
  | inl _, inl _ => (4 < length tf_shape)%nat
  | _, _ => False
  end.
Proof.
  destruct tf_shape as [|a [|b [|c [|d [|e l]]]]]; simpl; try done.
  - destruct (Z.eqb_spec a 1); simpl; [done|].
    right. split; [done|]. congruence.
  - by left.
  - lia.
Qed.

End ShapesOfFeatures.

(** ** The supported targets *)

Lemma ios_support_check_spec target :
  SupportedVersion.ios_support_check target = true
  ↔ target = "11.2" ∨ target = "12" ∨ target = "13".
Proof.
  unfold SupportedVersion.ios_support_check,
    SupportedVersion.supported_ios_version.
  rewrite bool_decide_eq_true, !elem_of_cons, elem_of_nil. tauto.
Qed.

(** X1. [is_nd_array_supported] answers [True] for the target 13 only
    and [False] for 11.2 and 12; for any other target it raises the
    [TypeError] whose arguments are the unformatted template, the target
    and the list of the supported targets. *)
Theorem is_nd_array_supported_spec
    (args_str : string -> string -> list string -> string) target :
  (SupportedVersion.is_nd_array_supported args_str target = inr true
   ↔ target = "13")
  ∧ (SupportedVersion.is_nd_array_supported args_str target = inr false
     ↔ target = "11.2" ∨ target = "12")
  ∧ (SupportedVersion.ios_support_check target = false ->
     SupportedVersion.is_nd_array_supported args_str target
     = inl (TypeError (args_str SupportedVersion.not_supported_template
                         target SupportedVersion.get_supported_ios))).
Proof.
  unfold SupportedVersion.is_nd_array_supported.
  destruct (SupportedVersion.ios_support_check target) eqn:Hs; simpl.
  - apply ios_support_check_spec in Hs as [-> | [-> | ->]];
      (split; [|split; [|done]]); split; intros H;
      try done; try (vm_compute in H; congruence);
      try (destruct H; done); try (by left); by right.
  - assert (Hn : ¬ (target = "11.2" ∨ target = "12" ∨ target = "13")).
    { rewrite <- ios_support_check_spec. by rewrite Hs. }
    repeat split; try done; intros; tauto.
Qed.

(** X2. [get_specification_version] returns for no target: an
    unsupported one is refused with the [TypeError], and for each of the
    three supported ones the name it reads is bound nowhere in the
    module, so that the call ends in a [NameError]. *)
Theorem get_specification_version_never_returns
    (args_str : string -> string -> list string -> string) target :
  match SupportedVersion.get_specification_version args_str target with
  | inr _ => False
  | inl e =>
      if SupportedVersion.ios_support_check target
      then exists name,
             e = OtherError ("NameError: name '" +:+ name
                             +:+ "' is not defined")
      else e = TypeError (args_str SupportedVersion.not_supported_template
                            target SupportedVersion.get_supported_ios)
  end.
Proof.
  unfold SupportedVersion.get_specification_version.
  destruct (SupportedVersion.ios_support_check target); simpl; [|done].
  destruct (String.eqb target "11.2"); [by exists "IOS_11_2_SPEC_VERSION"|].
  destruct (String.eqb target "12");
    [by exists "IOS_12_SPEC_VERSION" | by exists "IOS_13_SPEC_VERSION"].
Qed.

(** ** The names of the new convention *)

Lemma before_colon_no_colon s : contains_char ":" (before_colon s) = false.
Proof.
  induction s as [|c s IH]; [done|]. simpl.
  destruct (Ascii.eqb c ":") eqn:Hc; [done|]. simpl. by rewrite Hc, IH.
Qed.

Lemma before_colon_id s : contains_char ":" s = false -> before_colon s = s.
Proof.
  induction s as [|c s IH]; [done|]. simpl.
  intros [Hc Hs]%orb_false_elim. by rewrite Hc, IH.
Qed.

Lemma before_colon_prefix s : exists rest, s = before_colon s +:+ rest.
Proof.
  induction s as [|c s [rest IH]]; [by exists EmptyString|]. simpl.
  destruct (Ascii.eqb c ":"); [by eexists|].
  exists rest. by rewrite string_app_cons, <- IH.
Qed.

Lemma foldl_note_colon names new old :
  foldl note_colon (new, old) names
  = (new ++ (before_colon <$> List.filter (contains_char ":") names),
     old ++ List.filter (contains_char ":") names).
Proof.
  revert new old. induction names as [|n names IH]; intros new old; simpl.
  - by rewrite !app_nil_r.
  - unfold note_colon at 2. destruct (contains_char ":" n); simpl.
    + rewrite IH. by rewrite <- !app_assoc.
    + apply IH.
Qed.

Lemma filter_nil_iff {A} (p : A -> bool) (l : list A) :
  List.filter p l = [] ↔ forall x, x ∈ l -> p x = false.
Proof.
  induction l as [|y l IH]; simpl.
  - split; [|done]. intros _ x Hx. by apply elem_of_nil in Hx.
  - destruct (p y) eqn:Hy.
    + split; [done|]. intros H. specialize (H y (list_elem_of_here _ _)).
      congruence.
    + rewrite IH. split.
      * intros H x [->|Hx]%elem_of_cons; auto.
      * intros H x Hx. apply H. by right.
Qed.

Section Names.
Context {ndarray RandomState LayerParams SpecRest MLModel
         PreprocArgs ConversionFn : Type}.
Variable E : @Externals ndarray RandomState LayerParams SpecRest MLModel
               PreprocArgs ConversionFn.

Lemma check_names_cases (dict : list (string * list Z)) (outs : list string) :
  let old_input := List.filter (contains_char ":") (fst <$> dict) in
  let old_output := List.filter (contains_char ":") outs in
  check_input_output_names E (Some dict) (Some outs)
  = if decide (old_input = [] ∧ old_output = [])
    then inr tt
    else inl (ValueError
                (colon_message
                   (if decide (old_input = []) then ""
                    else "Input: "
                         +:+ list_str E (PyStr <$> (before_colon <$> old_input))
                         +:+ " instead of "
                         +:+ list_str E (PyStr <$> old_input) +:+ nl)
                   (if decide (old_output = []) then ""
                    else "Output: "
                         +:+ list_str E (PyStr <$> (before_colon <$> old_output))
                         +:+ " instead of "
                         +:+ list_str E (PyStr <$> old_output)))).
Proof.
  intros old_input old_output. unfold check_input_output_names. simpl.
  rewrite !foldl_note_colon. simpl. fold old_input old_output.
  rewrite !length_fmap.
  destruct old_input as [|i is_]; destruct old_output as [|o os]; simpl.
  all: repeat case_decide; try done; try lia; try (exfalso; naive_solver lia).
Qed.

Lemma check_names_accepts (dict : list (string * list Z)) (outs : list string) :
  check_input_output_names E (Some dict) (Some outs) = inr tt
  ↔ forall name, name ∈ (fst <$> dict) ++ outs ->
      contains_char ":" name = false.
Proof.
  rewrite check_names_cases. split.
  - case_decide as H; [|done].
    intros _ name [Hn|Hn]%elem_of_app.
    + destruct H as [H _]. by apply (proj1 (filter_nil_iff _ _) H).
    + destruct H as [_ H]. by apply (proj1 (filter_nil_iff _ _) H).
  - intros H. case_decide as Hd; [done|].
    exfalso. apply Hd. split; apply filter_nil_iff; intros x Hx;
      apply H, elem_of_app; auto.
Qed.

(** X3. Given a dictionary and a list, [check_input_output_names]
    passes exactly when no key and no output name holds a colon, and its
    only failure is a [ValueError]; with [None] for the dictionary, or
    for the list, it fails with the [TypeError] of an iteration over
    [None]. *)
Theorem check_input_output_names_spec
    (dict : list (string * list Z)) (outs : list string) :
  (check_input_output_names E (Some dict) (Some outs) = inr tt
   ↔ forall name, name ∈ (fst <$> dict) ++ outs ->
       contains_char ":" name = false)
  ∧ (forall e, check_input_output_names E (Some dict) (Some outs) = inl e ->
       exists msg, e = ValueError msg)
  ∧ (forall o, exists msg,
       check_input_output_names E None o = inl (TypeError msg))
  ∧ (exists msg,
       check_input_output_names E (Some dict) None = inl (TypeError msg)).
Proof.
  split; [apply check_names_accepts|]. repeat split.
  - intros e. rewrite check_names_cases. case_decide; [done|].
    intros [= <-]. by eexists.
  - intros o. by eexists.
  - eexists. unfold check_input_output_names. simpl.
    by destruct (foldl _ _ _).
Qed.

(** X4. The names that [check_input_output_names] recommends, each
    name cut before its first colon, pass the check; the recommended
    name is a prefix of the name it stands for, and the name itself
    when that one holds no colon. *)
Theorem check_input_output_names_recommendation
    (dict : list (string * list Z)) (outs : list string) :
  check_input_output_names E
    (Some ((fun kv => (before_colon (fst kv), snd kv)) <$> dict))
    (Some (before_colon <$> outs)) = inr tt
  ∧ (forall name, name ∈ (fst <$> dict) ++ outs ->
       (exists rest, name = before_colon name +:+ rest)
       ∧ (contains_char ":" name = false -> before_colon name = name)).
Proof.
  split.
  - apply check_names_accepts.
    intros name [Hn|Hn]%elem_of_app.
    + rewrite <- list_fmap_compose in Hn.
      apply list_elem_of_fmap in Hn as (kv & -> & _). simpl.
      apply before_colon_no_colon.
    + apply list_elem_of_fmap in Hn as (n & -> & _).
      apply before_colon_no_colon.
  - intros name _. split; [apply before_colon_prefix|apply before_colon_id].
Qed.

End Names.

(** ** The entry point *)



Section EntryPoint.
Context {ndarray RandomState LayerParams SpecRest MLModel
         PreprocArgs ConversionFn ShapeFn : Type}.
Variable E : @Externals ndarray RandomState LayerParams SpecRest MLModel
               PreprocArgs ConversionFn.
Variable X : @EntryExternals MLModel PreprocArgs ConversionFn ShapeFn.

Lemma ios_support_check_false target :
  target ∉ SupportedVersion.supported_ios_version ->
  SupportedVersion.ios_support_check target = false.
Proof. intros H. by apply bool_decide_eq_false. Qed.

Lemma nd_supported_13 (f : string -> string -> list string -> string) :
  SupportedVersion.is_nd_array_supported f "13" = inr true.
Proof. reflexivity. Qed.

Lemma nd_supported_legacy (f : string -> string -> list string -> string) t :
  t = "11.2" ∨ t = "12" ->
  SupportedVersion.ios_support_check t = true
  ∧ SupportedVersion.is_nd_array_supported f t = inr false.
Proof. by intros [->| ->]. Qed.

(** X24. For a target that is not one of 11.2, 12 and 13, [convert]
    raises the [TypeError] at once: nothing outside the module is
    called. *)
Theorem convert_unsupported_target kw rng :
  kw_target_ios kw ∉ SupportedVersion.supported_ios_version ->
  convert E X kw rng
  = (inl (TypeError (args_str X SupportedVersion.not_supported_template
                       (kw_target_ios kw)
                       SupportedVersion.supported_ios_version)), []).
Proof.
  intros H. unfold convert. by rewrite (ios_support_check_false _ H).
Qed.

Lemma convert_legacy kw rng :
  kw_target_ios kw = "11.2" ∨ kw_target_ios kw = "12" ->
  convert E X kw rng
  = match kw_output_feature_names kw with
    | None =>
        (inl (ValueError "Output feature names must be provided."), [])
    | Some outs =>
        let m := _convert_pb_to_mlmodel E
                   (driver_args kw outs
                      (default [] (kw_input_name_shape_dict kw))) rng in
        (fst m, driver_event <$> snd m)
    end.
Proof.
  intros Ht. unfold convert.
  destruct (nd_supported_legacy (args_str X) _ Ht) as [-> ->]. simpl.
  destruct (kw_output_feature_names kw); [|done].
  by destruct (_convert_pb_to_mlmodel _ _ _).
Qed.

(** X26. For the targets 11.2 and 12, [convert] without output names
    fails with a [ValueError] before anything is called; otherwise it is
    the driver, run with an empty dictionary where none was given, and
    it makes the calls of the driver and no other. Neither the choice
    between the two targets nor the shape functions change anything. *)
Theorem convert_legacy_targets kw rng :
  kw_target_ios kw = "11.2" ∨ kw_target_ios kw = "12" ->
  convert E X kw rng
  = match kw_output_feature_names kw with
    | None =>
        (inl (ValueError "Output feature names must be provided."), [])
    | Some outs =>
        let m := _convert_pb_to_mlmodel E
                   (driver_args kw outs
                      (default [] (kw_input_name_shape_dict kw))) rng in
        (fst m, driver_event <$> snd m)
    end
  ∧ forall target fns,
      target = "11.2" ∨ target = "12" ->
      convert E X (retarget target fns kw) rng = convert E X kw rng.
Proof.
  intros Ht. split; [by apply convert_legacy|].
  intros target fns Ht'. by rewrite !convert_legacy.
Qed.

(** X25. For the target 13, [convert] never runs the driver and does
    not depend on the state of the random generator. A key or an output
    name with a colon fails with a [ValueError], and a missing
    dictionary or list with a [TypeError], before anything is called.
    When it succeeds, the model is the one the converter of coremltools
    returned, saved once when a path was given. *)
Theorem convert_nd_target kw rng :
  kw_target_ios kw = "13" ->
  let m := convert E X kw rng in
  Forall (fun ev => forall c, ee_call ev ≠ call_driver c) (snd m)
  ∧ (forall rng', convert E X kw rng' = m)
  ∧ (forall dict outs name,
       kw_input_name_shape_dict kw = Some dict ->
       kw_output_feature_names kw = Some outs ->
       name ∈ (fst <$> dict) ++ outs ->
       contains_char ":" name = true ->
       exists msg, m = (inl (ValueError msg), []))
  ∧ (kw_input_name_shape_dict kw = None ∨ kw_output_feature_names kw = None ->
     exists msg, m = (inl (TypeError msg), []))
  ∧ (forall model,
       fst m = inr model ->
       coremltools_convert X (kw_tf_model_path kw)
         (kw_input_name_shape_dict kw) (kw_output_feature_names kw)
         (kw_image_input_names kw) (kw_preprocessing kw) (kw_class_labels kw)
         (kw_predicted_feature_name kw)
         (kw_predicted_probabilities_output kw)
         (kw_add_custom_layers kw) (kw_custom_conversion_functions kw)
         (kw_custom_shape_functions kw) = inr model
       ∧ match kw_mlmodel_path kw with
         | Some path =>
             snd m = [mkEntryEvent call_coremltools_convert None;
                      mkEntryEvent (call_MLModel_save path) None]
         | None => snd m = [mkEntryEvent call_coremltools_convert None]
         end).
Proof.
  intros Ht m. subst m. unfold convert. rewrite Ht, nd_supported_13.
  change (negb (SupportedVersion.ios_support_check "13")) with false.
  cbv iota. repeat split.
  - destruct (check_input_output_names _ _ _); [by constructor|].
    unfold convert_nd. destruct (coremltools_convert _ _ _ _ _ _ _ _ _ _ _ _);
      [by repeat constructor|].
    destruct (kw_mlmodel_path kw); by repeat constructor.
  - intros dict outs name -> -> Hn Hc.
    destruct (check_input_output_names E (Some dict) (Some outs)) as [e|[]] eqn:Hck.
    + pose proof Hck as Hck'. rewrite check_names_cases in Hck'.
      case_decide; [done|]. simplify_eq. by eexists.
    + pose proof (proj1 (check_names_accepts E dict outs) Hck _ Hn) as Hf.
      congruence.
  - intros [-> | Ho].
    + by eexists.
    + rewrite Ho. destruct (kw_input_name_shape_dict kw); [|by eexists].
      simpl. unfold check_input_output_names. simpl.
      destruct (foldl _ _ _). by eexists.
  - destruct (check_input_output_names _ _ _); [done|].
    unfold convert_nd in *.
    destruct (coremltools_convert _ _ _ _ _ _ _ _ _ _ _ _); [done|].
    destruct (kw_mlmodel_path kw); simpl in *.
    + destruct (MLModel_save _ _ _); unfold ok in *; simpl in *; congruence.
    + congruence.
  - destruct (check_input_output_names _ _ _); [done|].
    unfold convert_nd in *.
    destruct (coremltools_convert _ _ _ _ _ _ _ _ _ _ _ _); [done|].
    destruct (kw_mlmodel_path kw); simpl in *; [|done].
    by destruct (MLModel_save _ _ _).
Qed.

End EntryPoint.

(** ** Renaming twice *)

Lemma canonical_name_idempotent s :
  canonical_name (canonical_name s) = canonical_name s.
Proof.
  destruct (canonical_name_no_separator s). by apply canonical_name_id.
Qed.

Lemma rename_blob_again (names : list string) n :
  rename_blob (canonical_name <$> names) (rename_blob names n)
  = rename_blob names n.
Proof.
  unfold rename_blob. destruct (bool_decide (n ∈ names)).
  - case_bool_decide; [apply canonical_name_idempotent | done].
  - case_bool_decide as Hn; [|done].
    apply list_elem_of_fmap in Hn as (m & -> & _).
    apply canonical_name_idempotent.
Qed.

(** X21. Renaming a renamed model changes nothing, in the description
    as in the layers; and the names that the renaming leaves as they
    are, are those that hold neither separator. *)
Theorem canonicalize_names_idempotent {LayerParams SpecRest : Type}
    (spec : @Model_spec LayerParams SpecRest) :
  canonicalize_names (canonicalize_names spec) = canonicalize_names spec
  ∧ forall name,
      canonical_name name = name
      ↔ contains_char ":" name = false ∧ contains_char "/" name = false.
Proof.
  split.
  - unfold canonicalize_names at 1 3. f_equal.
    + simpl. rewrite <- list_fmap_compose. apply list_fmap_ext.
      intros _ [n t d] _. unfold rename_feature. simpl.
      by rewrite canonical_name_idempotent.
    + simpl. rewrite <- list_fmap_compose. apply list_fmap_ext.
      intros _ [n t d] _. unfold rename_feature. simpl.
      by rewrite canonical_name_idempotent.
    + assert (Hnames : interface_blob_names_of (canonicalize_names spec)
                       = canonical_name <$> interface_blob_names_of spec).
      { unfold interface_blob_names_of. simpl.
        rewrite fmap_app, <- !list_fmap_compose. done. }
      rewrite Hnames. simpl. rewrite <- list_fmap_compose.
      apply list_fmap_ext. intros _ [i o p] _. unfold rename_layer. simpl.
      f_equal; rewrite <- list_fmap_compose; apply list_fmap_ext;
        intros _ n _; apply rename_blob_again.
  - intros name. split.
    + intros <-. apply canonical_name_no_separator.
    + intros [? ?]. by apply canonical_name_id.
Qed.

(** ** The unsupported-operation check, as a function of what it is told *)

Lemma scan_ops_monotone (reg reg' : gset string) (outs skip skip' : list string)
    ops u u' enc :
  reg ⊆ reg' -> skip ⊆ skip' -> u' ⊆ u ->
  scan_ops reg' outs skip' ops u' enc ⊆ scan_ops reg outs skip ops u enc.
Proof.
  intros Hreg Hskip. revert u u' enc.
  induction ops as [|op ops IH]; intros u u' enc Hu; simpl; [done|].
  destruct (all_outputs_reached outs enc); [done|].
  apply IH. intros type.
  rewrite !note_unsupported_spec. intros [?|(? & ? & ?)]; [left; auto|].
  destruct (decide (type ∈ u)); [by left|]. right.
  split_and!; [done| |]; set_solver.
Qed.

(** X8. When [_check_unsupported_ops] passes, it passes too with more
    types registered and more operations skipped; and with no output
    requested it passes whatever the operations, the registry and the
    skipped names are, none of the operations being examined. *)
Theorem check_unsupported_ops_monotone (reg reg' : gset string)
    ops outs (skip skip' : list string) :
  (reg ⊆ reg' -> skip ⊆ skip' ->
   _check_unsupported_ops reg ops outs skip = inr tt ->
   _check_unsupported_ops reg' ops outs skip' = inr tt)
  ∧ _check_unsupported_ops reg ops [] skip = inr tt.
Proof.
  split; [|by destruct ops].
  intros Hreg Hskip. unfold _check_unsupported_ops.
  pose proof (scan_ops_monotone reg reg' outs skip skip' ops [] [] ∅
                Hreg Hskip (reflexivity _)) as Hsub.
  destruct (scan_ops reg outs skip ops [] ∅) as [|x l]; simpl; [|done].
  intros _.
  destruct (scan_ops reg' outs skip' ops [] ∅) as [|y l']; [done|].
  exfalso. specialize (Hsub y (list_elem_of_here _ _)).
  by apply elem_of_nil in Hsub.
Qed.

(** ** What the refusal of a graph that decodes images costs *)

Section Early.
Context {ndarray RandomState LayerParams SpecRest MLModel
         PreprocArgs ConversionFn : Type}.
Variable E : @Externals ndarray RandomState LayerParams SpecRest MLModel
               PreprocArgs ConversionFn.

(** X9. A graph that holds an operation of type [DecodeJpeg] is
    refused with a [NotImplementedError] as soon as it is loaded: the
    operations are not sorted and nothing else is called. *)
Theorem decode_jpeg_is_refused args rng OPS :
  load_graph E (tf_model_path args) = inr OPS ->
  "DecodeJpeg" ∈ op_type <$> OPS ->
  _convert_pb_to_mlmodel E args rng
  = (inl (NotImplementedError decode_jpeg_message),
     [mkEvent call_load_graph None]).
Proof.
  intros Hload Hjpeg.
  unfold _convert_pb_to_mlmodel, analyse, load_and_sort, call.
  rewrite Hload. cbn [mbind fst snd raised].
  rewrite (bool_decide_true _ Hjpeg). reflexivity.
Qed.

(** ** Output features and the order of the request *)

Lemma any_requested_ext ons (outs outs' : list string) :
  (forall x, x ∈ outs ↔ x ∈ outs') ->
  any_requested ons outs = any_requested ons outs'.
Proof.
  intros H. unfold any_requested. apply eq_true_iff_eq.
  rewrite !existsb_exists. split; intros (x & Hx & Hne); exists x;
    (split; [|done]); apply List.filter_In; apply List.filter_In in Hx;
    destruct Hx as [Hx ?]; (split; [|done]);
    apply list_elem_of_In; apply list_elem_of_In in Hx; by apply H.
Qed.

Lemma for_each_ext {S A} (f g : S -> A -> Result S) xs st :
  (forall st x, f st x = g st x) -> for_each f xs st = for_each g xs st.
Proof.
  intros H. revert st. induction xs as [|x xs IH]; intros st; simpl; [done|].
  rewrite H. destruct (g st x); simpl; [done|apply IH].
Qed.

Lemma filter_ext_bool {A} (p q : A -> bool) l :
  (forall x, p x = q x) -> List.filter p l = List.filter q l.
Proof. intros H. induction l as [|x l IH]; simpl; [done|]. by rewrite H, IH. Qed.

(** X15. The output features depend on the set of the requested
    names only, not on their order nor on repetitions; when the
    collection succeeds, on a graph without an empty tensor name, the
    features are the requested tensors in the order of the graph. *)
Theorem output_features_follow_the_graph (outs : list string)
    (sd : gmap string (list Z)) OPS :
  (forall outs' : list string,
     (forall x, x ∈ outs ↔ x ∈ outs') ->
     collect_output_features E outs' sd OPS
     = collect_output_features E outs sd OPS)
  ∧ (forall ofs,
       EmptyString ∉ tensor_names OPS ->
       collect_output_features E outs sd OPS = inr ofs ->
       fst <$> ofs
       = List.filter (fun n => bool_decide (n ∈ outs)) (tensor_names OPS)).
Proof.
  split.
  - intros outs' H. unfold collect_output_features. apply for_each_ext.
    intros ofs op. unfold output_step.
    rewrite (any_requested_ext _ _ _ H).
    destruct (any_requested _ _); [|done]. f_equal.
    apply filter_ext_bool. intros x. symmetry. apply bool_decide_ext, H.
  - intros ofs Hne Hofs. by apply collect_output_names in Hofs.
Qed.

End Early.

(** ** The dictionary from a blob to its consumers *)


Lemma blob_inputs_lookup (op : Operation) inputs
    (g : gmap string (list Operation)) name :
  foldl (fun g inp =>
           match g !! t_name inp with
           | Some consumers_ => <[t_name inp := consumers_ ++ [op]]> g
           | None => g
           end) g inputs !! name
  = (fun cs => cs ++ ((fun _ => op)
                        <$> List.filter (fun inp => bool_decide (t_name inp = name))
                              inputs))
      <$> g !! name.
Proof.
  revert g. induction inputs as [|inp inputs IH]; intros g; simpl.
  - destruct (g !! name); simpl; [by rewrite app_nil_r|done].
  - rewrite IH. case_bool_decide as Hn.
    + subst name. destruct (g !! t_name inp) as [cs|] eqn:Hg.
      * rewrite lookup_insert_eq. simpl. by rewrite <- app_assoc.
      * by rewrite Hg.
    + destruct (g !! t_name inp) as [cs|] eqn:Hg; [|done].
      by rewrite lookup_insert_ne.
Qed.

Lemma blob_outputs_lookup outputs (g : gmap string (list Operation)) name :
  foldl (fun g out =>
           match g !! t_name out with
           | None => <[t_name out := []]> g
           | Some _ => g
           end) g outputs !! name
  = match g !! name with
    | Some cs => Some cs
    | None => if bool_decide (name ∈ t_name <$> outputs) then Some [] else None
    end.
Proof.
  revert g. induction outputs as [|out outputs IH]; intros g; simpl.
  - by destruct (g !! name).
  - rewrite IH. destruct (decide (t_name out = name)) as [<-|Hne].
    + destruct (g !! t_name out) as [cs|] eqn:Hg.
      * by rewrite Hg.
      * rewrite lookup_insert_eq. rewrite bool_decide_true; [done|].
        by left.
    + assert (Hl : (match g !! t_name out with
                    | Some _ => g
                    | None => <[t_name out:=[]]> g
                    end) !! name = g !! name).
      { destruct (g !! t_name out); [done|]. by rewrite lookup_insert_ne. }
      rewrite Hl. destruct (g !! name); [done|].
      assert (Hb : bool_decide (name ∈ t_name <$> outputs)
                   = bool_decide (name ∈ t_name <$> out :: outputs)).
      { apply bool_decide_ext. rewrite fmap_cons, elem_of_cons. naive_solver. }
      by rewrite Hb.
Qed.

Lemma blob_graph_step_lookup (g : gmap string (list Operation)) op name :
  blob_graph_step g op !! name
  = match g !! name with
    | Some cs => Some (cs ++ feeds name op)
    | None => if bool_decide (name ∈ output_names_of op) then Some [] else None
    end.
Proof.
  unfold blob_graph_step. rewrite blob_outputs_lookup, blob_inputs_lookup.
  by destruct (g !! name).
Qed.

Lemma blob_graph_known (g : gmap string (list Operation)) OPS name cs :
  g !! name = Some cs ->
  foldl blob_graph_step g OPS !! name = Some (cs ++ mjoin (feeds name <$> OPS)).
Proof.
  revert g cs. induction OPS as [|op OPS IH]; intros g cs Hg; simpl.
  - by rewrite app_nil_r.
  - erewrite IH; [|by rewrite blob_graph_step_lookup, Hg].
    by rewrite <- app_assoc.
Qed.

Lemma blob_graph_unknown (g : gmap string (list Operation)) OPS name :
  g !! name = None -> name ∉ tensor_names OPS ->
  foldl blob_graph_step g OPS !! name = None.
Proof.
  revert g. induction OPS as [|op OPS IH]; intros g Hg Hn; simpl; [done|].
  unfold tensor_names in Hn. simpl in Hn. rewrite fmap_app in Hn.
  apply not_elem_of_app in Hn as [Hop Hn].
  apply IH; [|done]. rewrite blob_graph_step_lookup, Hg.
  by rewrite bool_decide_false.
Qed.

(** X10. The keys of [BLOB_GRAPH] are the names of the tensors that
    the operations produce. *)
Theorem make_blob_graph_keys OPS name :
  is_Some (make_blob_graph OPS !! name) ↔ name ∈ tensor_names OPS.
Proof.
  unfold make_blob_graph.
  assert (H : forall g : gmap string (list Operation),
             is_Some (foldl blob_graph_step g OPS !! name)
             ↔ is_Some (g !! name) ∨ name ∈ tensor_names OPS).
  { induction OPS as [|op OPS IH]; intros g; simpl.
    - unfold tensor_names. simpl. rewrite elem_of_nil. tauto.
    - rewrite IH, blob_graph_step_lookup. unfold tensor_names. simpl.
      rewrite fmap_app, elem_of_app. fold (tensor_names OPS).
      fold (output_names_of op).
      destruct (g !! name) as [cs|]; simpl.
      + split; [intros _; left; eauto | intros _; left; eauto].
      + case_bool_decide as Ho.
        * split; [intros _; right; by left | intros _; left; eauto].
        * split; [intros [[? [=]]|?]; by right; right
                 | intros [[? [=]]|[?|?]]; [done|by right]]. }
  rewrite H, lookup_empty. split; [intros [[? [=]]|?]; done | by right].
Qed.

(** X11. Under the name of a tensor, [BLOB_GRAPH] holds the
    operations that stand after the first producer of the tensor and
    consume it, in order, once for each input of that name. The producer
    itself and the operations before it are not listed. *)
Theorem make_blob_graph_consumers pre producer post name :
  name ∉ tensor_names pre ->
  name ∈ output_names_of producer ->
  make_blob_graph (pre ++ producer :: post) !! name
  = Some (mjoin (feeds name <$> post)).
Proof.
  intros Hpre Hprod. unfold make_blob_graph. rewrite foldl_app. simpl.
  assert (Hstep : blob_graph_step (foldl blob_graph_step ∅ pre) producer
                  !! name = Some []).
  { rewrite blob_graph_step_lookup, blob_graph_unknown by done.
    by rewrite bool_decide_true. }
  by rewrite (blob_graph_known _ _ _ _ Hstep).
Qed.

(** ** The feeds of the placeholders *)

Lemma dict_set_keys {K V} `{EqDecision K} (k : K) (v : V) (d : list (K * V)) :
  fst <$> dict_set k v d
  = if bool_decide (k ∈ fst <$> d) then fst <$> d else (fst <$> d) ++ [k].
Proof.
  induction d as [|[k' v'] d IH]; csimpl; [done|].
  destruct (decide (k = k')) as [->|Hne]; csimpl.
  - rewrite bool_decide_true; [done | by left].
  - rewrite IH. destruct (bool_decide (k ∈ d.*1)) eqn:Hk.
    + rewrite bool_decide_true; [done|].
      right. by apply bool_decide_eq_true in Hk.
    + rewrite bool_decide_false; [done|].
      apply bool_decide_eq_false in Hk. rewrite elem_of_cons. naive_solver.
Qed.

Lemma dict_set_elem {K V} `{EqDecision K} (k : K) (v : V) (d : list (K * V)) x :
  x ∈ fst <$> dict_set k v d ↔ x ∈ fst <$> d ∨ x = k.
Proof.
  rewrite dict_set_keys. case_bool_decide as Hk.
  - split; [by left|]. by intros [?| ->].
  - rewrite elem_of_app, list_elem_of_singleton. done.
Qed.

Lemma dict_set_NoDup {K V} `{EqDecision K} (k : K) (v : V) (d : list (K * V)) :
  NoDup (fst <$> d) -> NoDup (fst <$> dict_set k v d).
Proof.
  intros Hnd. rewrite dict_set_keys. case_bool_decide as Hk; [done|].
  apply NoDup_app. split_and!; [done| |apply NoDup_singleton].
  intros x Hx ->%list_elem_of_singleton. done.
Qed.

Section Feeds.
Context {ndarray RandomState LayerParams SpecRest MLModel
         PreprocArgs ConversionFn : Type}.
Variable E : @Externals ndarray RandomState LayerParams SpecRest MLModel
               PreprocArgs ConversionFn.

Lemma placeholder_step_inv outs dict st op st' :
  placeholder_step E outs dict st op = inr st' ->
  (op_type op ≠ "Placeholder" ∧ st' = st)
  ∨ (op_type op = "Placeholder"
     ∧ exists out0 shape v1 v2,
         head (op_outputs op) = Some out0
         ∧ ps_SHAPE_DICT st' = <[t_name out0 := shape]> (ps_SHAPE_DICT st)
         ∧ ps_input_feed_dict st' = dict_set out0 v1 (ps_input_feed_dict st)
         ∧ ps_input_feed_dict2 st'
           = dict_set out0 v2 (ps_input_feed_dict2 st)
         ∧ (shape = [] -> v1 = feed_int 1 ∧ v2 = feed_int 1
                          ∧ ps_rng st' = ps_rng st)).
Proof.
  unfold placeholder_step. destruct (String.eqb_spec (op_type op) "Placeholder")
    as [Htype|Htype]; [|intros [= <-]; by left].
  destruct (any_requested _ _); [done|]. intros Hstep. right. split; [done|].
  apply bind_inr_inv in Hstep as (out0 & Hout0 & Hstep).
  apply bind_inr_inv in Hstep as (shape & Hshape & Hstep).
  unfold placeholder_commit in Hstep.
  apply bind_inr_inv in Hstep as ([[v1 v2] rng'] & Hfeeds & Hstep).
  exists out0, shape, v1, v2. unfold index in Hout0.
  rewrite <- head_lookup in Hout0.
  destruct (head (op_outputs op)); [|done]. unfold ok in *. simplify_eq.
  simpl. split_and!; try done.
  intros ->. unfold draw_feeds in Hfeeds. simpl in Hfeeds.
  unfold ok in Hfeeds. by simplify_eq.
Qed.


Lemma placeholder_pass_keys outs dict OPS st ps :
  for_each (placeholder_step E outs dict) OPS st = inr ps ->
  fst <$> ps_input_feed_dict2 st = fst <$> ps_input_feed_dict st ->
  NoDup (fst <$> ps_input_feed_dict st) ->
  fst <$> ps_input_feed_dict2 ps = fst <$> ps_input_feed_dict ps
  ∧ NoDup (fst <$> ps_input_feed_dict ps)
  ∧ (forall t, t ∈ fst <$> ps_input_feed_dict ps
       ↔ t ∈ fst <$> ps_input_feed_dict st ∨ fed_by OPS t)
  ∧ (forall name, is_Some (ps_SHAPE_DICT ps !! name)
       ↔ is_Some (ps_SHAPE_DICT st !! name)
         ∨ exists t, fed_by OPS t ∧ t_name t = name).
Proof.
  revert st. induction OPS as [|op OPS IH]; intros st; simpl.
  - intros [= <-] Hk Hnd. split_and!; try done.
    + intros t. split; [by left|]. intros [?|(op & Hop & _)]; [done|].
      by apply elem_of_nil in Hop.
    + intros name. split; [by left|]. intros [?|(t & (op & Hop & _) & _)]; [done|].
      by apply elem_of_nil in Hop.
  - intros (st1 & Hstep & Hrest)%bind_inr_inv Hk Hnd.
    apply placeholder_step_inv in Hstep
      as [[Htype ->]|(Htype & out0 & shape & v1 & v2 & Hhead & Hsd & Hf1 & Hf2 & _)].
    + destruct (IH _ Hrest Hk Hnd) as (H1 & H2 & H3 & H4).
      split_and!; try done.
      * intros t. rewrite H3. apply or_iff_compat_l. unfold fed_by.
        setoid_rewrite elem_of_cons. naive_solver.
      * intros name. rewrite H4. apply or_iff_compat_l. unfold fed_by.
        setoid_rewrite elem_of_cons. naive_solver.
    + assert (Hk1 : fst <$> ps_input_feed_dict2 st1
                    = fst <$> ps_input_feed_dict st1).
      { by rewrite Hf1, Hf2, !dict_set_keys, Hk. }
      assert (Hnd1 : NoDup (fst <$> ps_input_feed_dict st1)).
      { rewrite Hf1. by apply dict_set_NoDup. }
      destruct (IH _ Hrest Hk1 Hnd1) as (H1 & H2 & H3 & H4).
      split_and!; try done.
      * intros t. rewrite H3, Hf1, dict_set_elem. unfold fed_by.
        setoid_rewrite elem_of_cons. naive_solver.
      * intros name. rewrite H4, Hsd. unfold fed_by.
        setoid_rewrite elem_of_cons.
        destruct (decide (t_name out0 = name)) as [<-|Hne].
        -- rewrite lookup_insert_eq. split; [|naive_solver].
           intros _. right. exists out0. naive_solver.
        -- rewrite lookup_insert_ne by done. naive_solver.
Qed.

(** X12. When the placeholder pass succeeds, the two feed
    dictionaries have the same keys in the same order, without
    repetition: the first outputs of the placeholders of the graph. The
    shape dictionary has an entry under the names of these tensors and
    under no other. *)
Theorem placeholder_pass_feeds outs dict OPS rng ps :
  placeholder_pass E outs dict OPS (placeholder_start rng) = inr ps ->
  fst <$> ps_input_feed_dict2 ps = fst <$> ps_input_feed_dict ps
  ∧ NoDup (fst <$> ps_input_feed_dict ps)
  ∧ (forall t, t ∈ fst <$> ps_input_feed_dict ps ↔ fed_by OPS t)
  ∧ (forall name, is_Some (ps_SHAPE_DICT ps !! name)
       ↔ exists t, fed_by OPS t ∧ t_name t = name).
Proof.
  intros Hpass. unfold placeholder_pass in Hpass.
  apply placeholder_pass_keys in Hpass as (H1 & H2 & H3 & H4);
    [|done|apply NoDup_nil_2].
  split_and!; try done.
  - intros t. rewrite H3. simpl. rewrite elem_of_nil. tauto.
  - intros name. rewrite H4. simpl. rewrite lookup_empty.
    split; [intros [[? [=]]|?]; done | by right].
Qed.

End Feeds.

(** ** Every tensor of the graph has a shape *)

Lemma for_each_inl_inv {S A} (body : S -> A -> Result S) xs st e :
  for_each body xs st = inl e ->
  exists st' x, x ∈ xs ∧ body st' x = inl e.
Proof.
  revert st. induction xs as [|x xs IH]; intros st; simpl; [done|].
  destruct (body st x) as [e'|st1] eqn:Hb; simpl.
  - intros [= <-]. exists st, x. split; [by left|done].
  - intros (st' & y & Hy & He)%IH. exists st', y. split; [by right|done].
Qed.

Section Complete.
Context {ndarray RandomState LayerParams SpecRest MLModel
         PreprocArgs ConversionFn : Type}.
Variable E : @Externals ndarray RandomState LayerParams SpecRest MLModel
               PreprocArgs ConversionFn.


Lemma grows_refl st : grows st st.
Proof. by split. Qed.

Lemma grows_trans st1 st2 st3 : grows st1 st2 -> grows st2 st3 -> grows st1 st3.
Proof. intros [? ?] [? ?]. split; auto. Qed.

Lemma grows_accounted st st' out : grows st st' -> accounted st out -> accounted st' out.
Proof. intros [? ?] [?|?]; [left|right]; auto. Qed.

Lemma note_output_grows st out :
  grows st (note_output st out) ∧ accounted (note_output st out) out.
Proof.
  unfold note_output, grows, accounted.
  destruct (is_fully_defined (t_shape out)); simpl.
  - split_and!; [|done|].
    + intros n Hn. destruct (decide (t_name out = n)) as [<-|Hne].
      * rewrite lookup_insert_eq. eauto.
      * by rewrite lookup_insert_ne.
    + left. rewrite lookup_insert_eq. eauto.
  - split_and!; [done| |].
    + intros x Hx. apply elem_of_app. by left.
    + right. apply elem_of_app. right. by left.
Qed.

Lemma fold_note_output_grows outs st :
  grows st (foldl note_output st outs)
  ∧ forall out, out ∈ outs -> accounted (foldl note_output st outs) out.
Proof.
  revert st. induction outs as [|o outs IH]; intros st; simpl.
  - split; [apply grows_refl|]. intros out Hout. by apply elem_of_nil in Hout.
  - destruct (note_output_grows st o) as [Hg Ha].
    destruct (IH (note_output st o)) as [Hg' Ha']. split.
    + by eapply grows_trans.
    + intros out [->|Hout]%elem_of_cons; [|by apply Ha'].
      by eapply grows_accounted.
Qed.

Lemma collect_step_grows eff st op st' :
  collect_step eff st op = inr st' ->
  grows st st' ∧ forall out, out ∈ op_outputs op -> accounted st' out.
Proof.
  unfold collect_step. destruct (fold_note_output_grows (op_outputs op) st)
    as [Hg Ha].
  destruct (is_const eff op).
  - intros (const & _ & H)%bind_inr_inv. unfold ok in H. simplify_eq. done.
  - intros [= <-]. done.
Qed.

Lemma for_each_collect_grows eff OPS st w :
  for_each (collect_step eff) OPS st = inr w ->
  grows st w
  ∧ forall op out, op ∈ OPS -> out ∈ op_outputs op -> accounted w out.
Proof.
  revert st. induction OPS as [|op OPS IH]; intros st; simpl.
  - intros [= <-]. split; [apply grows_refl|].
    intros op out Hop. by apply elem_of_nil in Hop.
  - intros (st1 & Hstep & Hrest)%bind_inr_inv.
    apply collect_step_grows in Hstep as [Hg Ha].
    apply IH in Hrest as [Hg' Ha']. split; [by eapply grows_trans|].
    intros o out [->|Ho]%elem_of_cons Hout.
    + eapply grows_accounted; [done|]. by apply Ha.
    + by eapply Ha'.
Qed.

Lemma commit_step_adds names cn vals sd cs i sd' cs' name :
  commit_step E names cn vals (sd, cs) i = inr (sd', cs') ->
  names !! i = Some name -> is_Some (sd' !! name).
Proof.
  unfold commit_step. intros (n & Hn & H)%bind_inr_inv Hname.
  unfold index in Hn. rewrite Hname in Hn. unfold ok in Hn. simplify_eq.
  apply bind_inr_inv in H as (sd1 & Hsd & H).
  apply bind_inr_inv in H as (cs1 & _ & H). unfold ok in H. simplify_eq.
  destruct (sd !! n) as [shape|] eqn:Hl.
  - unfold ok in Hsd. simplify_eq. eauto.
  - apply bind_inr_inv in Hsd as (v & _ & Hsd). unfold ok in Hsd.
    simplify_eq. rewrite lookup_insert_eq. eauto.
Qed.

Lemma commit_all names cn vals k st0 sd cs :
  for_each (commit_step E names cn vals) (seq 0 k) st0 = inr (sd, cs) ->
  forall i name, (i < k)%nat -> names !! i = Some name -> is_Some (sd !! name).
Proof.
  revert sd cs. induction k as [|k IH]; intros sd cs; [intros _ i name; lia|].
  rewrite seq_S, for_each_app. simpl.
  intros ([sd1 cs1] & Hpre & Hlast)%bind_inr_inv.
  apply bind_inr_inv in Hlast as ([sd2 cs2] & Hstep & Hlast).
  unfold ok in Hlast. simplify_eq.
  intros i name Hi Hname. destruct (decide (i = k)) as [->|Hne].
  - by eapply commit_step_adds.
  - destruct (IH _ _ Hpre i name) as [shape Hs]; [lia|done|].
    exists shape. by eapply commit_step_keeps_shape.
Qed.

Lemma run_and_commit_covers w feed sd cs tr :
  run_and_commit E w feed = (inr (sd, cs), tr) ->
  forall out, accounted w out -> is_Some (sd !! t_name out).
Proof.
  intros Hrun out [[shape Hs]|Hw].
  - exists shape. by eapply run_and_commit_keeps_shape.
  - unfold run_and_commit in Hrun.
    destruct (decide _) as [Hpos|Hnone].
    + apply mbind_inr_inv in Hrun as (vals & tr1 & _ & Hloop & _).
      simpl in Hloop.
      assert (Hin : t_name out
                    ∈ fst <$> w_shapes_wanted w ++ w_consts_wanted w).
      { apply list_elem_of_fmap. exists (t_name out, out). split; [done|].
        apply elem_of_app. by left. }
      apply list_elem_of_lookup in Hin as [i Hi].
      eapply commit_all; [exact Hloop| |exact Hi].
      by apply lookup_lt_Some in Hi.
    + exfalso. apply Hnone. left.
      destruct (w_shapes_wanted w); [by apply elem_of_nil in Hw|simpl; lia].
Qed.

(** X14. When the shape-and-constant stage succeeds, the shape
    dictionary has an entry for every tensor of the graph and has lost
    none it had. The collection of the output features that follows
    therefore never fails on a missing key: its only failure is the
    [ValueError] for an output of more than four dimensions. *)
Theorem shape_dict_is_complete eff OPS sd0 feed sd cs tr :
  populate_shape_dict E eff OPS sd0 feed = (inr (sd, cs), tr) ->
  (forall name, name ∈ tensor_names OPS -> is_Some (sd !! name))
  ∧ (forall name, is_Some (sd0 !! name) -> is_Some (sd !! name))
  ∧ (forall outs e,
       collect_output_features E outs sd OPS = inl e ->
       exists shape,
         (4 < length shape)%nat
         ∧ e = ValueError ("Unrecognized TensorFlow output shape "
                           +:+ list_str E (PyInt <$> shape))).
Proof.
  intros Hpop. unfold populate_shape_dict in Hpop.
  apply mbind_inr_inv in Hpop as (w & tr1 & Hw & Hrun & _).
  apply lift_inr_inv in Hw as [Hw _].
  destruct (run_and_commit E w feed) as [r tr2] eqn:Hrc. simpl in Hrun.
  subst r. unfold collect_wanted in Hw.
  apply for_each_collect_grows in Hw as [[Hg _] Ha].
  assert (Hall : forall name, name ∈ tensor_names OPS -> is_Some (sd !! name)).
  { intros name (out & -> & Hout)%list_elem_of_fmap.
    apply list_elem_of_join in Hout as (outs & Hout & Houts).
    apply list_elem_of_fmap in Houts as (op & -> & Hop).
    eapply run_and_commit_covers; [done|]. by eapply Ha. }
  split_and!; [done| |].
  - intros name [shape Hs]%Hg.
    exists shape. by eapply run_and_commit_keeps_shape.
  - intros outs e He. unfold collect_output_features in He.
    apply for_each_inl_inv in He as (ofs & op & Hop & He).
    unfold output_step in He. destruct (any_requested _ _); [|done].
    apply for_each_inl_inv in He as (ofs' & out & Hout & He).
    apply list_elem_of_In, List.filter_In in Hout as [Hout _].
    apply list_elem_of_In in Hout.
    destruct (Hall (t_name out)) as [shape Hs].
    { apply list_elem_of_fmap. exists out. split; [done|].
      apply list_elem_of_join. exists (op_outputs op). split; [done|].
      apply list_elem_of_fmap. by exists op. }
    unfold getitem in He. rewrite Hs in He. simpl in He.
    exists shape.
    destruct shape as [|a [|b [|c [|d [|x l]]]]]; simpl in He; try done.
    + by destruct (a =? 1)%Z.
    + split; [simpl; lia|]. by simplify_eq.
Qed.

End Complete.

(** ** Input features *)


Section Inputs.
Context {ndarray RandomState LayerParams SpecRest MLModel
         PreprocArgs ConversionFn : Type}.
Variable E : @Externals ndarray RandomState LayerParams SpecRest MLModel
               PreprocArgs ConversionFn.

Lemma infer_input_rank tf_shape shape :
  _infer_coreml_input_shape E tf_shape = inr shape ->
  length shape = 1%nat ∨ length shape = 3%nat.
Proof.
  destruct tf_shape as [|a [|b [|c [|d [|e l]]]]]; simpl; intros [= <-];
    simpl; auto.
Qed.

Lemma input_step_inv st entry st' tr :
  input_step E st entry = (inr st', tr) ->
  (exists shape,
     in_input_features st'
     = in_input_features st ++ [(t_name (fst entry), Some shape)]
     ∧ (length shape = 1%nat ∨ length shape = 3%nat))
  ∧ consumers E (fst entry) ≠ []
  ∧ (forall name d, in_sequence_inputs st' !! name = Some d ->
       in_sequence_inputs st !! name = Some d
       ∨ (name = t_name (fst entry) ∧ d ≠ 1%Z)).
Proof.
  unfold input_step.
  intros (shape0 & tr1 & _ & H & _)%mbind_inr_inv.
  destruct (mbind _ _) as [r tr2] eqn:H2 in H. simpl in H. subst r.
  apply mbind_inr_inv in H2 as ([status context] & tr3 & _ & H & _).
  destruct (mbind _ _) as [r tr4] eqn:H4 in H. simpl in H. subst r.
  apply mbind_inr_inv in H4 as (shape1 & tr5 & _ & H & _).
  destruct (mbind _ _) as [r tr6] eqn:H6 in H. simpl in H. subst r.
  apply mbind_inr_inv in H6 as (consumer_op & tr7 & Hc & H & _).
  apply lift_inr_inv in Hc as [Hc _].
  assert (Hcons : consumers E (fst entry) ≠ []).
  { intros Hnil. unfold index in Hc. by rewrite Hnil in Hc. }
  set (seqs := match shape1 with
               | [d0; _; _; _] =>
                   if (d0 =? 1)%Z then in_sequence_inputs st
                   else <[t_name (fst entry) := d0]> (in_sequence_inputs st)
               | _ => in_sequence_inputs st
               end) in *.
  assert (Hseqs : forall name d, seqs !! name = Some d ->
            in_sequence_inputs st !! name = Some d
            ∨ (name = t_name (fst entry) ∧ d ≠ 1%Z)).
  { intros name d. subst seqs.
    destruct shape1 as [|d0 [|b [|c [|x [|y l]]]]]; auto.
    destruct (Z.eqb_spec d0 1); [auto|].
    destruct (decide (t_name (fst entry) = name)) as [<-|Hne].
    - rewrite lookup_insert_eq. intros [= <-]. by right.
    - rewrite lookup_insert_ne by done. auto. }
  destruct (String.eqb _ _).
  - simpl in H. simplify_eq. simpl. split_and!; [|done|].
    + exists [1%Z]. split; [done|by left].
    + intros name d.
      destruct (decide (t_name (fst entry) = name)) as [<-|Hne].
      * rewrite lookup_insert_eq. intros [= <-]. by right.
      * rewrite lookup_insert_ne by done. auto.
  - destruct (mbind _ _) as [r tr8] eqn:H8 in H. simpl in H. subst r.
    apply mbind_inr_inv in H8 as (shape & tr9 & Hs & H & _).
    apply lift_inr_inv in Hs as [Hs _]. simpl in H. simplify_eq. simpl.
    split_and!; [|done|done].
    exists shape. split; [done|]. by eapply infer_input_rank.
Qed.

Lemma collect_inputs_spec xs st st' tr :
  mfor_each (input_step E) xs st = (inr st', tr) ->
  fst <$> in_input_features st'
  = (fst <$> in_input_features st) ++ ((fun entry => t_name (fst entry)) <$> xs)
  ∧ (Forall ranked (in_input_features st) ->
     Forall ranked (in_input_features st'))
  ∧ Forall (fun entry => consumers E (fst entry) ≠ []) xs
  ∧ (forall name d, in_sequence_inputs st' !! name = Some d ->
       in_sequence_inputs st !! name = Some d
       ∨ (name ∈ (fun entry => t_name (fst entry)) <$> xs ∧ d ≠ 1%Z)).
Proof.
  revert st tr. induction xs as [|x xs IH]; intros st tr; simpl.
  - intros [= <- <-]. rewrite app_nil_r. split_and!; auto.
  - intros (st1 & tr1 & Hstep & H & _)%mbind_inr_inv.
    destruct (mfor_each _ _ _) as [r tr2] eqn:Hrest in H. simpl in H. subst r.
    apply input_step_inv in Hstep as ((shape & Hf & Hlen) & Hcons & Hseq).
    apply IH in Hrest as (Hn & Hr & Hc & Hs).
    split_and!.
    + rewrite Hn, Hf, fmap_app, <- app_assoc. done.
    + intros Hst. apply Hr. rewrite Hf. apply Forall_app. split; [done|].
      apply Forall_singleton. by exists shape.
    + by constructor.
    + intros name d [Hd|[Hd ?]]%Hs.
      * apply Hseq in Hd as [?|[-> ?]]; [by left|]. right.
        split; [by left|done].
      * right. split; [by right|done].
Qed.

(** X18. When the collection of the input features succeeds, there
    is one feature for each fed tensor, under its name and in the order
    of the feed dictionary, each with a shape of one or of three
    dimensions; every fed tensor has a consumer; and the inputs recorded
    as sequences are fed tensors, with a length other than 1. *)
Theorem input_features_follow_the_feeds context feed ins tr :
  collect_input_features E context feed = (inr ins, tr) ->
  fst <$> in_input_features ins = (fun entry => t_name (fst entry)) <$> feed
  ∧ Forall ranked (in_input_features ins)
  ∧ Forall (fun entry => consumers E (fst entry) ≠ []) feed
  ∧ (forall name d, in_sequence_inputs ins !! name = Some d ->
       name ∈ (fun entry => t_name (fst entry)) <$> feed ∧ d ≠ 1%Z).
Proof.
  intros H. apply collect_inputs_spec in H as (Hn & Hr & Hc & Hs).
  split_and!; [done| by apply Hr | done |].
  intros name d [Hd|?]%Hs; [|done]. simpl in Hd.
  by rewrite lookup_empty in Hd.
Qed.

Lemma collect_inputs_calls context feed :
  calls_only (fun c => exists n, c = call_interpret_shape n)
    (collect_input_features E context feed).
Proof.
  unfold collect_input_features. apply calls_only_mfor_each.
  intros st x. unfold input_step.
  apply calls_only_mbind; [apply calls_only_lift|intros shape0].
  apply calls_only_mbind.
  { destruct (use_dfs_shape_infer _); [|apply calls_only_mret].
    apply calls_only_call. by eexists. }
  intros [status context'].
  apply calls_only_mbind; [apply calls_only_lift|intros shape1].
  apply calls_only_mbind; [apply calls_only_lift|intros cop].
  destruct (String.eqb _ _); [apply calls_only_mret|].
  apply calls_only_mbind; [apply calls_only_lift|intros ?].
  apply calls_only_mret.
Qed.

(** X19. Let the analysis succeed on a graph in which a fed
    placeholder has no consumer. Then the conversion fails, and after
    the analysis the driver has called nothing but [interpret_shape]:
    the builder is never constructed. *)
Theorem unconsumed_placeholder_fails args rng a tr t v :
  analyse E args rng = (inr a, tr) ->
  (t, v) ∈ an_input_feed_dict a ->
  consumers E t = [] ->
  exists e tr',
    _convert_pb_to_mlmodel E args rng = (inl e, tr ++ tr')
    ∧ Forall (fun ev => exists n, ev_call ev = call_interpret_shape n) tr'.
Proof.
  intros Ha Hin Hnil. rewrite (convert_after_analysis _ _ _ _ _ Ha).
  unfold after_analysis.
  destruct (check_output_names _ _) as [e|[]]; [by exists e, []|].
  destruct (unsupported_check _ _ _) as [e|[]]; [by exists e, []|].
  rewrite !mbind_lift_inr. unfold translate.
  set (context := Context_init _ _ _ _ _).
  destruct (collect_input_features E context (an_input_feed_dict a))
    as [[e|ins] tr'] eqn:Hc.
  - exists e, tr'. split; [done|].
    pose proof (collect_inputs_calls context (an_input_feed_dict a)) as Hcalls.
    unfold calls_only in Hcalls. by rewrite Hc in Hcalls.
  - exfalso. apply collect_inputs_spec in Hc as (_ & _ & Hcons & _).
    rewrite Forall_forall in Hcons. by apply (Hcons _ Hin).
Qed.

End Inputs.

(** ** Saving and compiling come last *)


Lemma ends_compiling_mbind path {A B} (m : M A) (k : A -> M B) :
  calls_only (fun c => ¬ compile_call c) m ->
  (forall a, ends_compiling path (k a)) ->
  ends_compiling path (mbind m k).
Proof.
  intros Hm Hk. destruct m as [[e|a] tr]; simpl.
  - exists tr, []. rewrite app_nil_r. split_and!; [done|done|].
    destruct path; by left.
  - destruct (Hk a) as (tr1 & tr2 & Heq & H1 & H2).
    exists (tr ++ tr1), tr2. rewrite Heq, app_assoc. split_and!; [done| |done].
    apply Forall_app. split; [exact Hm|done].
Qed.

Lemma calls_only_impl (P Q : Call -> Prop) {A} (m : M A) :
  (forall c, P c -> Q c) -> calls_only P m -> calls_only Q m.
Proof.
  intros H Hm. unfold calls_only in *. eapply Forall_impl; [exact Hm|].
  intros ev. apply H.
Qed.

Ltac before_compile_step :=
  first
    [ apply calls_only_mret
    | apply calls_only_lift
    | apply calls_only_call; simpl; tauto
    | apply calls_only_except_all
    | apply calls_only_mbind; [|intros ?]
    | apply calls_only_mfor_each; intros ? ?
    | match goal with
      | |- calls_only _ (let (_, _) := ?x in _) => destruct x
      | |- calls_only _ (if ?b then _ else _) => destruct b
      | |- calls_only _ (match ?x with _ => _ end) => destruct x
      end ].

Section Last.
Context {ndarray RandomState LayerParams SpecRest MLModel
         PreprocArgs ConversionFn : Type}.
Variable E : @Externals ndarray RandomState LayerParams SpecRest MLModel
               PreprocArgs ConversionFn.

Lemma translate_before_compile args a :
  calls_only (fun c => ¬ compile_call c) (translate E args a).
Proof.
  unfold translate, collect_input_features, input_step.
  repeat before_compile_step.
Qed.

Lemma finish_ends_compiling args spec :
  ends_compiling (mlmodel_path args) (finish E args spec).
Proof.
  unfold finish.
  apply ends_compiling_mbind.
  { unfold read_classes. repeat before_compile_step. }
  intros spec1. apply ends_compiling_mbind; [repeat before_compile_step|].
  intros spec2. exists []. eexists. split; [reflexivity|]. split; [done|].
  destruct (mlmodel_path args) as [path|]; simpl.
  - unfold call. destruct (save_spec E spec2 path) as [e|[]]; simpl.
    + right. left. destruct e; by eexists.
    + right. right.
      destruct (MLModel_of_spec E spec2) as [e|m]; simpl;
        [destruct e|]; by eexists.
  - right. unfold call.
    destruct (MLModel_of_spec E spec2) as [e|m]; simpl;
      [destruct e|]; by eexists.
Qed.

(** X23. Saving and compiling are the last calls of a conversion.
    Without a path the model is never saved; with one, [save_spec] is
    called at most once, directly before [MLModel], which is not called
    when the saving failed. When the last stage is reached, every call
    before it, the probing apart, has succeeded. *)
Theorem model_is_saved_last args rng :
  exists tr1 tr2,
    snd (_convert_pb_to_mlmodel E args rng) = tr1 ++ tr2
    ∧ Forall (fun ev => ¬ compile_call (ev_call ev)) tr1
    ∧ saved_last (mlmodel_path args) tr2
    ∧ (tr2 ≠ [] ->
       Forall (fun ev => ev_raised ev = None
                         ∨ ev_call ev = call_find_unused_ops) tr1).
Proof.
  assert (H : ends_compiling (mlmodel_path args)
                (_convert_pb_to_mlmodel E args rng)).
  { unfold _convert_pb_to_mlmodel. apply ends_compiling_mbind.
    { eapply calls_only_impl; [|apply analyse_calls].
      intros c; destruct c; simpl; tauto. }
    intros a. unfold after_analysis.
    apply ends_compiling_mbind; [apply calls_only_lift|intros _].
    apply ends_compiling_mbind; [apply calls_only_lift|intros _].
    apply ends_compiling_mbind; [apply translate_before_compile|intros spec].
    apply finish_ends_compiling. }
  destruct H as (tr1 & tr2 & Heq & H1 & H2). exists tr1, tr2.
  split_and!; try done.
  intros Hne. apply Forall_forall. intros [c [e|]] Hev; [|by left].
  destruct (decide (c = call_find_unused_ops)) as [->|Hc]; [by right|].
  exfalso. apply list_elem_of_split in Hev as (l1 & l2 & ->).
  destruct (propagates_convert E args rng l1 c e (l2 ++ tr2)) as [Hnil _];
    [by rewrite Heq, <- app_assoc|done|].
  apply app_eq_nil in Hnil as [_ ?]. done.
Qed.

(** ** Class labels are read after the lowering *)

(** X22. The class labels are looked at after the lowering. When
    they are a path that is no file, or neither a path nor a list, the
    conversion fails with a [ValueError] once the analysis, the two
    checks and the whole lowering have run: the calls made are exactly
    theirs. *)
Theorem class_labels_are_read_late args rng a tr spec tr' classes_in :
  analyse E args rng = (inr a, tr) ->
  check_output_names (an_output_features a) (output_feature_names args)
    = inr tt ->
  unsupported_check E args a = inr tt ->
  translate E args a = (inr spec, tr') ->
  class_labels args = Some classes_in ->
  (forall path,
     classes_in = labels_path path -> os_path_isfile E path = false ->
     _convert_pb_to_mlmodel E args rng
     = (inl (ValueError (class_path_message path)), tr ++ tr'))
  ∧ (classes_in = labels_other ->
     _convert_pb_to_mlmodel E args rng
     = (inl (ValueError
          "Class labels must be a list of integers / strings, or a file path"),
        tr ++ tr')).
Proof.
  intros Ha Hnames Hsup Htr Hcl.
  rewrite (convert_after_analysis _ _ _ _ _ Ha).
  unfold after_analysis. rewrite Hnames, Hsup, !mbind_lift_inr.
  rewrite (mbind_inr _ _ _ _ Htr). unfold finish. rewrite Hcl. split.
  - intros path -> Hfile. simpl. rewrite Hfile. simpl. by rewrite app_nil_r.
  - intros ->. simpl. by rewrite app_nil_r.
Qed.

End Last.

(** ** How a placeholder can fail *)

Section PlaceholderFailures.
Context {ndarray RandomState LayerParams SpecRest MLModel
         PreprocArgs ConversionFn : Type}.
Variable E : @Externals ndarray RandomState LayerParams SpecRest MLModel
               PreprocArgs ConversionFn.

Lemma placeholder_shape_inl dict name shape e :
  placeholder_shape E dict name shape = inl e ->
  dict !! name = None
  ∧ is_fully_defined shape = false
  ∧ exists msg, e = ValueError msg ∧ occurs_in name msg.
Proof.
  unfold placeholder_shape. destruct (dict !! name); [done|].
  destruct (is_fully_defined shape) eqn:Hfd; [done|].
  intros H. split_and!; [done|done|].
  unfold raise, ok in H.
  destruct shape as [[|d0 dims]|]; simpl in H.
  - done.
  - destruct (_ && _); [done|]. simplify_eq.
    eexists. split; [done|]. apply occurs_in_self_prefix.
  - simplify_eq. eexists. split; [done|]. apply occurs_in_after.
Qed.

(** X13. The body of the placeholder pass fails on placeholders only,
    and in four ways: the [AssertionError] for a requested output, an
    [IndexError] for a placeholder without output, a [ValueError] that
    names the input when no shape was given for it and its declared
    shape is incomplete, or the failure of a draw for a shape that is no
    scalar. Reading the first dimension of the declared shape never
    fails. *)
Theorem placeholder_step_failures outs dict st op e :
  placeholder_step E outs dict st op = inl e ->
  op_type op = "Placeholder"
  ∧ ((any_requested (output_names_of op) outs = true
      ∧ e = AssertionError "Output feature cannot be a placeholder")
     ∨ (op_outputs op = [] ∧ e = IndexError)
     ∨ (exists out0 msg,
          head (op_outputs op) = Some out0
          ∧ dict !! t_name out0 = None
          ∧ is_fully_defined (t_shape out0) = false
          ∧ e = ValueError msg ∧ occurs_in (t_name out0) msg)
     ∨ (exists shape rng, shape ≠ []
          ∧ fst (np_random_rand E shape rng) = inl e)).
Proof.
  unfold placeholder_step.
  destruct (String.eqb_spec (op_type op) "Placeholder") as [Htype|]; [|done].
  intros H. split; [done|]. revert H.
  destruct (any_requested _ _); [intros [= <-]; by left|].
  destruct (op_outputs op) as [|out0 rest] eqn:Hout.
  { intros [= <-]. right. by left. }
  simpl. destruct (placeholder_shape _ _ _ _) as [e'|shape] eqn:Hshape; simpl.
  - intros [= <-]. right. right. left.
    apply placeholder_shape_inl in Hshape as (? & ? & msg & -> & ?).
    by exists out0, msg.
  - unfold placeholder_commit, draw_feeds.
    destruct (decide (length shape = 0%nat)) as [|Hlen]; [done|].
    intros H. right. right. right.
    destruct (np_random_rand E shape (ps_rng st)) as [r1 rng1] eqn:H1.
    destruct r1 as [e1|a1]; simpl in H.
    + simplify_eq. exists shape, (ps_rng st). rewrite H1.
      split; [by intros ->|done].
    + destruct (np_random_rand E shape rng1) as [r2 rng2] eqn:H2.
      destruct r2 as [e2|a2]; simpl in H; [|done].
      simplify_eq. exists shape, rng1. rewrite H2.
      split; [by intros ->|done].
Qed.

End PlaceholderFailures.

(** ** The test of the output names *)

Lemma check_names_loop (all outs : list string) :
  for_each
    (fun (_ : unit) given_out_name =>
       if bool_decide (given_out_name ∉ all)
       then raise (ValueError (missing_output_message given_out_name))
       else ok tt) outs tt = inr tt
  ↔ forall n, n ∈ outs -> n ∈ all.
Proof.
  induction outs as [|o outs IH]; simpl.
  - split; [|done]. intros _ n Hn. by apply elem_of_nil in Hn.
  - case_bool_decide as Ho; simpl.
    + split; [done|]. intros H. exfalso. apply Ho, H. by left.
    + rewrite IH. split.
      * intros H n [->|Hn]%elem_of_cons; auto.
      * intros H n Hn. apply H. by right.
Qed.

(** X16. The check of the output names passes exactly when there
    are as many output features as requested names, or every requested
    name is the name of an output feature: the names are looked at only
    when the counts differ. *)
Theorem check_output_names_spec (output_features : list Feature)
    (outs : list string) :
  check_output_names output_features outs = inr tt
  ↔ length output_features = length outs
    ∨ forall n, n ∈ outs -> n ∈ fst <$> output_features.
Proof.
  unfold check_output_names. case_decide as Hlen.
  - rewrite check_names_loop. split; [by right|]. by intros [?|?].
  - split; [by left|done].
Qed.

(** ** The calls of the analysis and of the lowering, in order *)

Section Order.
Context {ndarray RandomState LayerParams SpecRest MLModel
         PreprocArgs ConversionFn : Type}.
Variable E : @Externals ndarray RandomState LayerParams SpecRest MLModel
               PreprocArgs ConversionFn.

(** X17. A successful analysis has loaded the graph, sorted it and
    probed it, in this order and once each, and has then run the session
    at most once; only the probing may have failed. *)
Theorem analysis_calls_in_order args rng a tr :
  analyse E args rng = (inr a, tr) ->
  exists probed ran,
    tr = [mkEvent call_load_graph None;
          mkEvent call_topological_sort_ops None;
          mkEvent call_find_unused_ops probed] ++ ran
    ∧ (ran = []
       ∨ exists fetches, ran = [mkEvent (call_session_run fetches) None]).
Proof.
  unfold analyse, load_and_sort.
  intros (OPS & tr1 & Hls & H & ->)%mbind_inr_inv.
  apply mbind_inr_inv in Hls as (OPS0 & tr2 & Hload & Hls & ->).
  unfold call in Hload. destruct (load_graph E _) as [|ops]; [done|].
  simpl in Hload. simplify_eq.
  destruct (mbind _ _) as [r tr3] eqn:H3 in Hls. simpl in Hls. subst r.
  apply mbind_inr_inv in H3 as ([] & tr4 & Hj & Hs & ->).
  apply lift_inr_inv in Hj as [Hj ->].
  destruct (bool_decide _); [done|].
  unfold call in Hs. destruct (_topological_sort_ops E _) as [|sorted]; [done|].
  simpl in Hs. simplify_eq. simpl.
  unfold analyse_sorted in *.
  destruct (mbind _ _) as [r tr5] eqn:H5 in H. simpl in H. subst r.
  rewrite H5. simpl.
  apply mbind_inr_inv in H5 as (ps & tr6 & Hps & H & ->).
  apply lift_inr_inv in Hps as [_ ->]. simpl.
  unfold analyse_fed, probe in *.
  destruct (mbind _ _) as [r tr7] eqn:H7 in H. simpl in H. subst r.
  rewrite H7. simpl.
  apply mbind_inr_inv in H7 as ([un eff] & tr8 & Hp & H & ->).
  exists (raised (_find_unused_ops E OPS (output_feature_names args)
                    (ps_input_feed_dict ps) (ps_input_feed_dict2 ps))).
  assert (tr8 = [mkEvent call_find_unused_ops
                   (raised (_find_unused_ops E OPS (output_feature_names args)
                      (ps_input_feed_dict ps) (ps_input_feed_dict2 ps)))])
    as ->.
  { unfold call, except_all in Hp.
    destruct (_find_unused_ops E _ _ _ _); simpl in Hp; by simplify_eq. }
  eexists. split; [reflexivity|].
  unfold analyse_probed in *.
  destruct (mbind _ _) as [r tr9] eqn:H9 in H. simpl in H. subst r.
  rewrite H9. simpl.
  apply mbind_inr_inv in H9 as ([sd cs] & tr10 & Hpop & H & ->).
  destruct (mbind _ _) as [r tr11] eqn:H11 in H. simpl in H. subst r.
  rewrite H11. simpl.
  apply mbind_inr_inv in H11 as (ofs & tr12 & Hofs & _ & ->).
  apply lift_inr_inv in Hofs as [_ ->]. simpl. rewrite app_nil_r.
  unfold populate_shape_dict in Hpop.
  apply mbind_inr_inv in Hpop as (w & tr13 & Hw & H & ->).
  apply lift_inr_inv in Hw as [_ ->]. simpl.
  unfold run_and_commit in *. destruct (decide _); [|by left].
  right. destruct (mbind _ _) as [r tr14] eqn:H14 in H. simpl in H. subst r.
  rewrite H14. simpl.
  apply mbind_inr_inv in H14 as (vals & tr15 & Hrun & H & ->).
  unfold call in Hrun. destruct (session_run E _ _) as [|vs] eqn:Hsr; [done|].
  simpl in Hrun. simplify_eq. simpl. eexists. reflexivity.
Qed.

Lemma input_step_trace st entry st' tr :
  input_step E st entry = (inr st', tr) ->
  tr = []
  ∨ tr = [mkEvent (call_interpret_shape (t_name (fst entry))) None].
Proof.
  unfold input_step.
  intros (shape0 & tr1 & Hs0 & H & ->)%mbind_inr_inv.
  apply lift_inr_inv in Hs0 as [_ ->].
  destruct (mbind _ _) as [r tr2] eqn:H2 in H. simpl in H. subst r.
  rewrite H2. simpl.
  apply mbind_inr_inv in H2 as ([status context] & tr3 & Hi & H & ->).
  assert (Htr3 : tr3 = []
                 ∨ tr3 = [mkEvent (call_interpret_shape (t_name (fst entry)))
                            None]).
  { destruct (use_dfs_shape_infer _).
    - unfold call in Hi. destruct (interpret_shape E _ _); [done|].
      simpl in Hi. simplify_eq. by right.
    - unfold mret in Hi. simplify_eq. by left. }
  destruct (mbind _ _) as [r tr4] eqn:H4 in H. simpl in H. subst r.
  rewrite H4. simpl.
  apply mbind_inr_inv in H4 as (shape1 & tr5 & Hs1 & H & ->).
  apply lift_inr_inv in Hs1 as [_ ->].
  destruct (mbind _ _) as [r tr6] eqn:H6 in H. simpl in H. subst r.
  rewrite H6. simpl.
  apply mbind_inr_inv in H6 as (cop & tr7 & Hc & H & ->).
  apply lift_inr_inv in Hc as [_ ->]. simpl.
  destruct (String.eqb _ _); [simpl; by rewrite app_nil_r|].
  destruct (_infer_coreml_input_shape E shape1); simpl in *;
    [done|by rewrite app_nil_r].
Qed.

Lemma collect_inputs_trace xs st st' tr :
  mfor_each (input_step E) xs st = (inr st', tr) ->
  Forall (fun ev => ev_raised ev = None
                    ∧ exists entry,
                        entry ∈ xs
                        ∧ ev_call ev
                          = call_interpret_shape (t_name (fst entry))) tr.
Proof.
  revert st tr. induction xs as [|x xs IH]; intros st tr; simpl.
  - intros [= _ <-]. constructor.
  - intros (st1 & tr1 & Hstep & H & ->)%mbind_inr_inv.
    destruct (mfor_each _ _ _) as [r tr2] eqn:Hrest in H. simpl in H. subst r.
    rewrite Hrest. simpl. apply Forall_app. split.
    + apply input_step_trace in Hstep as [->| ->]; repeat constructor.
      exists x. split; [by left|done].
    + apply IH in Hrest. eapply Forall_impl; [exact Hrest|].
      intros ev [? (entry & ? & ?)]. split; [done|]. exists entry.
      split; [by right|done].
Qed.

(** X20. A successful lowering has called [interpret_shape] for fed
    tensors only, each call succeeding, and then the builder, the
    conversion of the operations and the optimization of the
    specification, in this order and once each. *)
Theorem lowering_calls_in_order args a spec tr :
  translate E args a = (inr spec, tr) ->
  exists interpreted,
    tr = interpreted
         ++ [mkEvent call_NeuralNetworkBuilder None;
             mkEvent call_convert_ops_to_layers None;
             mkEvent call_optimize_nn_spec None]
    ∧ Forall (fun ev => ev_raised ev = None
                        ∧ exists entry,
                            entry ∈ an_input_feed_dict a
                            ∧ ev_call ev
                              = call_interpret_shape (t_name (fst entry)))
        interpreted.
Proof.
  unfold translate.
  destruct (collect_input_features E _ _) as [[e|ins] tr1] eqn:Hins;
    cbn [mbind fst snd]; [done|].
  unfold call.
  destruct (NeuralNetworkBuilder E _ _ _) as [|b];
    cbn [mbind fst snd raised]; [done|].
  destruct (convert_ops_to_layers E _) as [|c];
    cbn [mbind fst snd raised]; [done|].
  destruct (optimize_nn_spec E _) as [|o];
    cbn [mbind mret fst snd raised]; [done|].
  intros [= <- <-]. exists tr1. split; [done|].
  by eapply collect_inputs_trace.
Qed.

End Order.

(** ** The properties, on graphs of a few operations *)


(** X24 on the target 14. *)
Lemma convert_unsupported_target_witness :
  let kw := DemoEntry.kwargs_for (Some ["z:0"]) None "14" in
  (kw_target_ios kw ∉ SupportedVersion.supported_ios_version)
  ∧ convert Cases.chain_backend DemoEntry.entry kw 0%Z
    = (inl (TypeError "<arguments>"), []).
Proof.
  intros kw.
  assert (H : kw_target_ios kw ∉ SupportedVersion.supported_ios_version)
    by (apply (bool_decide_unpack _); by vm_compute).
  split; [exact H|].
  exact (convert_unsupported_target Cases.chain_backend DemoEntry.entry
           kw 0%Z H).
Defined.

(** X26 on the chain of three operations: the targets 11.2 and 12 give the same conversion, which succeeds. *)
Lemma convert_legacy_targets_witness :
  let kw := DemoEntry.kwargs_for (Some ["z:0"]) None "12" in
  (kw_target_ios kw = "11.2" ∨ kw_target_ios kw = "12")
  ∧ convert Cases.chain_backend DemoEntry.entry
      (DemoEntry.kwargs_for (Some ["z:0"]) None "11.2") 0%Z
    = convert Cases.chain_backend DemoEntry.entry kw 0%Z
  ∧ exists model tr,
      convert Cases.chain_backend DemoEntry.entry kw 0%Z = (inr model, tr).
Proof.
  intros kw.
  assert (H : kw_target_ios kw = "11.2" ∨ kw_target_ios kw = "12")
    by (right; reflexivity).
  split; [exact H|]. split.
  - exact (proj2 (convert_legacy_targets Cases.chain_backend DemoEntry.entry
                    kw 0%Z H) "11.2" ∅ (or_introl eq_refl)).
  - eexists _, _. vm_compute. reflexivity.
Defined.

(** X25 on a dictionary with the key [x:0]: the conversion fails before anything is called. *)
Lemma convert_nd_target_witness :
  let kw := DemoEntry.kwargs_for (Some ["z:0"]) (Some [("x:0", [1; 10]%Z)])
              "13" in
  kw_target_ios kw = "13"
  ∧ (exists msg,
       convert Cases.chain_backend DemoEntry.entry kw 0%Z
       = (inl (ValueError msg), []))
  ∧ Forall (fun ev => forall c, ee_call ev ≠ call_driver c)
      (snd (convert Cases.chain_backend DemoEntry.entry kw 0%Z)).
Proof.
  intros kw.
  pose proof (convert_nd_target Cases.chain_backend DemoEntry.entry kw 0%Z
                eq_refl) as (Hcalls & _ & Hcolon & _).
  split; [reflexivity|]. split; [|exact Hcalls].
  apply (Hcolon [("x:0", [1; 10]%Z)] ["z:0"] "x:0");
    [reflexivity | reflexivity | by left | reflexivity].
Defined.

(** X8 on the chain ending in an operation of an unregistered type:
    the check passes when the operation is skipped, and then with more
    registered and more skipped; when it is not skipped the check fails
    for the output [z:0] and passes for no output at all. *)
Lemma check_unsupported_ops_monotone_witness :
  let reg : gset string := {[ "Placeholder"; "Identity" ]} in
  let reg' : gset string := {[ "Placeholder"; "Identity"; "Add" ]} in
  let ops := [Demo.op_x Demo.batch_of_ten; Demo.op_y Demo.batch_of_ten;
              Demo.op_z "Weird" Demo.batch_of_ten] in
  reg ⊆ reg'
  ∧ ["z"] ⊆ ["y"; "z"]
  ∧ _check_unsupported_ops reg ops ["z:0"] ["z"] = inr tt
  ∧ _check_unsupported_ops reg' ops ["z:0"] ["y"; "z"] = inr tt
  ∧ _check_unsupported_ops reg ops ["z:0"] []
    = inl (NotImplementedError "Unsupported Ops of type: Weird")
  ∧ _check_unsupported_ops reg ops [] [] = inr tt.
Proof.
  intros reg reg' ops.
  assert (H1 : reg ⊆ reg') by set_solver.
  assert (H2 : ["z"] ⊆ ["y"; "z"]) by set_solver.
  assert (H3 : _check_unsupported_ops reg ops ["z:0"] ["z"] = inr tt)
    by (vm_compute; reflexivity).
  split; [exact H1|]. split; [exact H2|]. split; [exact H3|].
  split; [|split].
  - exact (proj1 (check_unsupported_ops_monotone reg reg' ops ["z:0"] ["z"]
                    ["y"; "z"]) H1 H2 H3).
  - vm_compute. reflexivity.
  - exact (proj2 (check_unsupported_ops_monotone reg reg' ops ["z:0"] []
                    [])).
Defined.

(** X9 on a placeholder followed by the decoding of its contents. *)
Lemma decode_jpeg_is_refused_witness :
  let E := Demo.backend Cases.jpeg_graph Demo.no_findings Demo.static_run
             Demo.compile_ok in
  let args := Demo.args_for ["y:0"] ∅ in
  load_graph E (tf_model_path args) = inr Cases.jpeg_graph
  ∧ "DecodeJpeg" ∈ op_type <$> Cases.jpeg_graph
  ∧ _convert_pb_to_mlmodel E args 0%Z
    = (inl (NotImplementedError decode_jpeg_message),
       [mkEvent call_load_graph None]).
Proof.
  intros E args.
  assert (H : "DecodeJpeg" ∈ op_type <$> Cases.jpeg_graph) by (right; left).
  split; [reflexivity|]. split; [exact H|].
  exact (decode_jpeg_is_refused E args 0%Z Cases.jpeg_graph eq_refl H).
Defined.

(** X11 on the chain of three operations: the identity is consumed by the operation behind it. *)
Lemma make_blob_graph_consumers_witness :
  let s := Demo.batch_of_ten in
  ("y:0" ∉ tensor_names [Demo.op_x s])
  ∧ "y:0" ∈ output_names_of (Demo.op_y s)
  ∧ make_blob_graph ([Demo.op_x s] ++ Demo.op_y s :: [Demo.op_z "Identity" s])
      !! "y:0"
    = Some (mjoin (feeds "y:0" <$> [Demo.op_z "Identity" s])).
Proof.
  intros s.
  assert (H1 : "y:0" ∉ tensor_names [Demo.op_x s])
    by (apply (bool_decide_unpack _); by vm_compute).
  assert (H2 : "y:0" ∈ output_names_of (Demo.op_y s)) by left.
  split; [exact H1|]. split; [exact H2|].
  exact (make_blob_graph_consumers [Demo.op_x s] (Demo.op_y s)
           [Demo.op_z "Identity" s] "y:0" H1 H2).
Defined.

(** X12 on the chain of three operations. *)
Lemma placeholder_pass_feeds_witness :
  exists ps,
    placeholder_pass Cases.chain_backend ["z:0"] ∅ Cases.sorted_chain
      (placeholder_start 0%Z) = inr ps
    ∧ fst <$> ps_input_feed_dict2 ps = fst <$> ps_input_feed_dict ps
    ∧ NoDup (fst <$> ps_input_feed_dict ps)
    ∧ (forall t, t ∈ fst <$> ps_input_feed_dict ps
         ↔ fed_by Cases.sorted_chain t)
    ∧ (forall name, is_Some (ps_SHAPE_DICT ps !! name)
         ↔ exists t, fed_by Cases.sorted_chain t ∧ t_name t = name).
Proof.
  eexists. split; [vm_compute; reflexivity|].
  apply (placeholder_pass_feeds Cases.chain_backend ["z:0"] ∅
           Cases.sorted_chain 0%Z).
  vm_compute. reflexivity.
Defined.

(** X14 on the graph with an extent known only when it runs. *)
Lemma shape_dict_is_complete_witness :
  let E := Demo.backend Demo.selection_graph Demo.no_findings
             Demo.static_run Demo.compile_ok in
  exists sd cs tr,
    populate_shape_dict E [] Demo.selection_graph ∅ [] = (inr (sd, cs), tr)
    ∧ (forall name, name ∈ tensor_names Demo.selection_graph ->
         is_Some (sd !! name))
    ∧ (forall name, is_Some ((∅ : gmap string (list Z)) !! name) ->
         is_Some (sd !! name))
    ∧ (forall outs e,
         collect_output_features E outs sd Demo.selection_graph = inl e ->
         exists shape,
           (4 < length shape)%nat
           ∧ e = ValueError ("Unrecognized TensorFlow output shape "
                             +:+ list_str E (PyInt <$> shape))).
Proof.
  intros E. eexists _, _, _. split; [vm_compute; reflexivity|].
  eapply (shape_dict_is_complete E [] Demo.selection_graph ∅ []).
  vm_compute. reflexivity.
Defined.

(** X18 on the placeholder of the chain. *)
Lemma input_features_follow_the_feeds_witness :
  let context : Demo.Ctx :=
    Context_init ∅ {[ "x:0" := [1; 10]%Z ]} Cases.sorted_chain ∅ [] in
  let feed := [(Demo.x0 Demo.batch_of_ten, feed_int 1)] in
  exists ins tr,
    collect_input_features Cases.chain_backend context feed = (inr ins, tr)
    ∧ fst <$> in_input_features ins = ["x:0"]
    ∧ Forall ranked (in_input_features ins).
Proof.
  intros context feed. eexists _, _. split; [vm_compute; reflexivity|].
  pose proof (input_features_follow_the_feeds Cases.chain_backend context feed
                _ _ ltac:(vm_compute; reflexivity)) as (Hn & Hr & _).
  split; [exact Hn | exact Hr].
Defined.

(** X19 on a placeholder beside a constant that is the output. *)
Lemma unconsumed_placeholder_fails_witness :
  let E := Demo.backend Cases.idle_graph Demo.no_findings Demo.static_run
             Demo.compile_ok in
  let args := Demo.args_for ["c:0"] ∅ in
  let t := Demo.x0 Demo.batch_of_ten in
  exists a tr v,
    analyse E args 0%Z = (inr a, tr)
    ∧ (t, v) ∈ an_input_feed_dict a
    ∧ consumers E t = []
    ∧ exists e tr',
        _convert_pb_to_mlmodel E args 0%Z = (inl e, tr ++ tr')
        ∧ Forall (fun ev => exists n, ev_call ev = call_interpret_shape n) tr'.
Proof.
  intros E args t. eexists _, _, _.
  split; [vm_compute; reflexivity|].
  assert (Hin : (t, feed_array {| Demo.arr_shape := [1; 10]%Z;
                                  Demo.arr_value := 0 |})
                ∈ [(t, feed_array {| Demo.arr_shape := [1; 10]%Z;
                                     Demo.arr_value := 0%Z |})]) by left.
  split; [exact Hin|]. split; [reflexivity|].
  eapply (unconsumed_placeholder_fails E args 0%Z _ _ t _);
    [vm_compute; reflexivity | exact Hin | reflexivity].
Defined.

(** X22 on the chain, for a classifier whose labels are a path that is no file. *)
Lemma class_labels_are_read_late_witness :
  let E := Cases.chain_backend in
  let args := Cases.classifier_args ["z:0"] (labels_path "labels.txt") in
  exists a tr spec tr',
    analyse E args 0%Z = (inr a, tr)
    ∧ translate E args a = (inr spec, tr')
    ∧ os_path_isfile E "labels.txt" = false
    ∧ _convert_pb_to_mlmodel E args 0%Z
      = (inl (ValueError (class_path_message "labels.txt")), tr ++ tr').
Proof.
  intros E args. eexists _, _, _, _.
  split; [vm_compute; reflexivity|].
  split; [vm_compute; reflexivity|].
  split; [reflexivity|].
  apply (proj1 (class_labels_are_read_late E args 0%Z _ _ _ _
                  (labels_path "labels.txt")
                  ltac:(vm_compute; reflexivity)
                  ltac:(vm_compute; reflexivity)
                  ltac:(vm_compute; reflexivity)
                  ltac:(vm_compute; reflexivity)
                  eq_refl) "labels.txt" eq_refl eq_refl).
Defined.

(** X13 on a placeholder that is a requested output. *)
Lemma placeholder_step_failures_witness :
  let op := Demo.op_x Demo.batch_of_ten in
  exists e,
    placeholder_step Cases.chain_backend ["x:0"] ∅ (placeholder_start 0%Z) op
    = inl e
    ∧ op_type op = "Placeholder"
    ∧ e = AssertionError "Output feature cannot be a placeholder".
Proof.
  intros op. eexists. split; [vm_compute; reflexivity|].
  pose proof (placeholder_step_failures Cases.chain_backend ["x:0"] ∅
                (placeholder_start 0%Z) op _
                ltac:(vm_compute; reflexivity)) as [Htype _].
  split; [exact Htype | reflexivity].
Defined.

(** X17 on the chain of three operations. *)
Lemma analysis_calls_in_order_witness :
  let args := Demo.args_for ["z:0"] ∅ in
  exists a tr,
    analyse Cases.chain_backend args 0%Z = (inr a, tr)
    ∧ exists probed ran,
        tr = [mkEvent call_load_graph None;
              mkEvent call_topological_sort_ops None;
              mkEvent call_find_unused_ops probed] ++ ran
        ∧ (ran = []
           ∨ exists fetches,
               ran = [mkEvent (call_session_run fetches) None]).
Proof.
  intros args. eexists _, _. split; [vm_compute; reflexivity|].
  eapply (analysis_calls_in_order Cases.chain_backend args 0%Z).
  vm_compute. reflexivity.
Defined.

(** X20 on the chain of three operations. *)
Lemma lowering_calls_in_order_witness :
  let args := Demo.args_for ["z:0"] ∅ in
  exists a tr spec tr',
    analyse Cases.chain_backend args 0%Z = (inr a, tr)
    ∧ translate Cases.chain_backend args a = (inr spec, tr')
    ∧ exists interpreted,
        tr' = interpreted
              ++ [mkEvent call_NeuralNetworkBuilder None;
                  mkEvent call_convert_ops_to_layers None;
                  mkEvent call_optimize_nn_spec None]
        ∧ Forall (fun ev => ev_raised ev = None
                            ∧ exists entry,
                                entry ∈ an_input_feed_dict a
                                ∧ ev_call ev
                                  = call_interpret_shape (t_name (fst entry)))
            interpreted.
Proof.
  intros args. eexists _, _, _, _.
  split; [vm_compute; reflexivity|].
  split; [vm_compute; reflexivity|].
  eapply (lowering_calls_in_order Cases.chain_backend args).
  vm_compute. reflexivity.
Defined.

(** ** Graphs fed with scalars only *)

Section Scalars.
Context {ndarray RandomState LayerParams SpecRest MLModel
         PreprocArgs ConversionFn : Type}.
Variable E : @Externals ndarray RandomState LayerParams SpecRest MLModel
               PreprocArgs ConversionFn.

Lemma placeholder_step_scalar outs dict (st1 st2 : @PState ndarray RandomState)
    op :
  (forall out0 shape,
     op_type op = "Placeholder" -> head (op_outputs op) = Some out0 ->
     placeholder_shape E dict (t_name out0) (t_shape out0) = inr shape ->
     shape = []) ->
  ps_SHAPE_DICT st1 = ps_SHAPE_DICT st2 ->
  ps_input_feed_dict st1 = ps_input_feed_dict st2 ->
  ps_input_feed_dict2 st1 = ps_input_feed_dict2 st2 ->
  match placeholder_step E outs dict st1 op,
        placeholder_step E outs dict st2 op with
  | inr st1', inr st2' =>
      ps_SHAPE_DICT st1' = ps_SHAPE_DICT st2'
      ∧ ps_input_feed_dict st1' = ps_input_feed_dict st2'
      ∧ ps_input_feed_dict2 st1' = ps_input_feed_dict2 st2'
  | inl e1, inl e2 => e1 = e2
  | _, _ => False
  end.
Proof.
  intros Hscalar Hsd Hf1 Hf2. unfold placeholder_step.
  destruct (String.eqb_spec (op_type op) "Placeholder") as [Htype|]; [|done].
  destruct (any_requested _ _); [done|].
  destruct (op_outputs op) as [|out0 rest] eqn:Hout; [done|]. simpl.
  destruct (placeholder_shape E dict (t_name out0) (t_shape out0))
    as [e|shape] eqn:Hshape; [done|]. simpl.
  rewrite (Hscalar out0 shape Htype eq_refl Hshape).
  unfold placeholder_commit, draw_feeds. simpl.
  by rewrite Hsd, Hf1, Hf2.
Qed.

Lemma placeholder_pass_scalar outs dict OPS
    (st1 st2 : @PState ndarray RandomState) :
  (forall op out0 shape,
     op ∈ OPS -> op_type op = "Placeholder" ->
     head (op_outputs op) = Some out0 ->
     placeholder_shape E dict (t_name out0) (t_shape out0) = inr shape ->
     shape = []) ->
  ps_SHAPE_DICT st1 = ps_SHAPE_DICT st2 ->
  ps_input_feed_dict st1 = ps_input_feed_dict st2 ->
  ps_input_feed_dict2 st1 = ps_input_feed_dict2 st2 ->
  drawn (placeholder_pass E outs dict OPS st1)
  = drawn (placeholder_pass E outs dict OPS st2).
Proof.
  unfold placeholder_pass. revert st1 st2.
  induction OPS as [|op OPS IH]; intros st1 st2 Hscalar Hsd Hf1 Hf2; simpl.
  - unfold drawn. simpl. by rewrite Hsd, Hf1, Hf2.
  - pose proof (placeholder_step_scalar outs dict st1 st2 op
                  (fun out0 shape => Hscalar op out0 shape
                                       (list_elem_of_here _ _))
                  Hsd Hf1 Hf2) as Hstep.
    destruct (placeholder_step E outs dict st1 op) as [e1|st1'];
      destruct (placeholder_step E outs dict st2 op) as [e2|st2'];
      try done; simpl.
    + by subst.
    + destruct Hstep as (? & ? & ?). apply IH; try done.
      intros o out0 shape Ho. apply Hscalar. by right.
Qed.

(** X27. When every placeholder of the sorted graph resolves to a
    scalar shape, nothing is drawn from the random generator: two
    conversions with the same arguments give the same result and make
    the same calls, whatever the states of the generator. *)
Theorem scalar_feeds_are_reproducible args rng1 rng2 :
  (forall OPS tr op out0 shape,
     load_and_sort E (tf_model_path args) = (inr OPS, tr) ->
     op ∈ OPS -> op_type op = "Placeholder" ->
     head (op_outputs op) = Some out0 ->
     placeholder_shape E (input_name_shape_dict args) (t_name out0)
       (t_shape out0) = inr shape ->
     shape = []) ->
  _convert_pb_to_mlmodel E args rng1 = _convert_pb_to_mlmodel E args rng2.
Proof.
  intros Hscalar. unfold _convert_pb_to_mlmodel, analyse.
  destruct (load_and_sort E (tf_model_path args)) as [[e|OPS] tr] eqn:Hsort;
    [done|].
  cbn [mbind]. unfold analyse_sorted.
  pose proof (placeholder_pass_scalar (output_feature_names args)
                (input_name_shape_dict args) OPS
                (placeholder_start rng1) (placeholder_start rng2)
                (fun op out0 shape => Hscalar OPS tr op out0 shape eq_refl)
                eq_refl eq_refl eq_refl) as Hfeeds.
  destruct (placeholder_pass _ _ _ _ (placeholder_start rng1)) as [e1|ps1];
    destruct (placeholder_pass _ _ _ _ (placeholder_start rng2)) as [e2|ps2];
    unfold drawn, ok in Hfeeds; simpl in Hfeeds; try done.
  - by simplify_eq.
  - injection Hfeeds as H1 H2 H3.
    rewrite !mbind_lift_inr.
    by rewrite (analyse_fed_feeds E args OPS ps1 ps2).
Qed.

End Scalars.

(** X27 on a scalar placeholder and an identity on it. *)
Lemma scalar_feeds_are_reproducible_witness :
  let E := Demo.backend Demo.scalar_graph Demo.no_findings Demo.static_run
             Demo.compile_ok in
  let args := Demo.args_for ["y:0"] ∅ in
  _convert_pb_to_mlmodel E args 0%Z = _convert_pb_to_mlmodel E args 7%Z
  ∧ exists model tr, _convert_pb_to_mlmodel E args 0%Z = (inr model, tr).
Proof.
  intros E args. split.
  - apply (scalar_feeds_are_reproducible E args 0%Z 7%Z).
    intros OPS tr op out0 shape Hsort Hop Htype Hhead Hshape.
    assert (HOPS : OPS = Demo.scalar_graph)
      by (vm_compute in Hsort; injection Hsort as <- _; reflexivity).
    subst OPS.
    apply elem_of_cons in Hop as [->|Hop].
    + vm_compute in Hhead. injection Hhead as <-.
      vm_compute in Hshape. congruence.
    + apply elem_of_cons in Hop as [->|Hop]; [done|].
      by apply elem_of_nil in Hop.
  - eexists _, _. vm_compute. reflexivity.
Defined.
